(** * RobHoot: the quiz session engine of [server.js]

    A shallow embedding of the session state machine of [server.js]
    (game state, reset, question cycle, reveal and scoring, leaderboard,
    host and player message handlers) and the properties of its
    specification.

    Conventions of the embedding.
    - JavaScript numbers that hold integers (scores, indices, counters,
      seconds) are [Z]; this is exact for the safe integers, of magnitude
      up to 2^53.  Where the program leaves the integers, the time bonus
      [Math.round((p.answerTime / q.timeLimit) * 1000)] and the draw of
      the join code [Math.floor(1000 + Math.random() * 9000)], the
      rounding of binary64 is written out.
    - Strings are [string], the UTF-8 form of the sequence of code units
      that JavaScript has; [length], [slice], [trim], [toLowerCase] and
      the white space of [parseInt] are those of ECMAScript, by code
      units and code points.
    - The [Map] of players is an association list in insertion order,
      which is the order [Map.prototype.forEach] and [values()] follow.
      A key [String(n)] is represented by [n].
    - Mutation of the module-level [game], [questions] and [nextPlayerId]
      is state passing over a [world]; messages handed to [ws.send] are
      appended to an outbox; an uncaught [TypeError] is an explicit
      outcome.
    - Inbound messages are taken after [JSON.parse], by their [type];
      the fields the handlers read are scalar JSON values.  The static
      files and the start of the process are outside the embedding; the
      rows of [questions.csv] are an input of the handlers, and the CSV
      reader is embedded on its own. *)

From Stdlib Require Import ZArith List String Ascii Bool Lia.
From Stdlib Require Import Floats Uint63.
From Stdlib Require Import Permutation Sorted.
Import ListNotations.
Open Scope string_scope.
Open Scope Z_scope.

(** ** JavaScript primitives used by the server *)

Module JS.

(** Scalar JSON values as they come out of [JSON.parse]; [JUndefined]
    is an absent field.  [JNum z] is the number [z], a safe integer
    (see [plain]): these are the numbers that the conversions below
    treat as JavaScript does. *)
Inductive jsval : Type :=
  | JUndefined
  | JNull
  | JBool (b : bool)
  | JNum (z : Z)
  | JStr (s : string).

(** [!v] is [negb (truthy v)]. *)
Definition truthy (v : jsval) : bool :=
  match v with
  | JUndefined | JNull => false
  | JBool b => b
  | JNum z => negb (z =? 0)
  | JStr s => negb (String.eqb s "")
  end.

Definition digit_char (d : Z) : ascii := ascii_of_nat (48 + Z.to_nat d).

(** The decimal digits of [n >= 0] in front of [acc], last digit
    first; [fuel] bounds the number of digits. *)
Fixpoint decimal (fuel : nat) (n : Z) (acc : string) : string :=
  match fuel with
  | O => acc
  | S fuel' =>
      let acc' := String (digit_char (n mod 10)) acc in
      if n / 10 =? 0 then acc' else decimal fuel' (n / 10) acc'
  end.

(** [String(z)] for a safe integer [z]: all its digits.  (JavaScript
    writes the shortest digits that read back as the same double, which
    are other digits above 2^53, and an exponent from 10^21 on.) *)
Definition string_of_Z (z : Z) : string :=
  if z <? 0 then String "-" (decimal (S (Z.to_nat (Z.log2 (- z)))) (- z) "")
  else decimal (S (Z.to_nat (Z.log2 z))) z "".

(** [String(v)] *)
Definition toString (v : jsval) : string :=
  match v with
  | JUndefined => "undefined"
  | JNull => "null"
  | JBool true => "true"
  | JBool false => "false"
  | JNum z => string_of_Z z
  | JStr s => s
  end.

(** The values on which [toString] and [parseInt] are those of
    JavaScript: every value but a number outside the safe integers. *)
Definition plain (v : jsval) : Prop :=
  match v with
  | JNum z => Z.abs z < 2 ^ 53
  | _ => True
  end.

(** *** Strings

    A JavaScript string is a sequence of UTF-16 code units.  It is
    written here as a [string] in UTF-8: a code point as its 1 to 4
    bytes (a surrogate pair is one code point of 4 bytes), a surrogate
    without its partner as the 3 bytes of its own code point.  The
    operations that JavaScript defines on code units and code points
    ([length], [slice], [trim], [toLowerCase], the white space that
    [parseInt] skips) are defined on this form; [===] is equality of
    the bytes. *)

Definition byte (c : ascii) : Z := Z.of_nat (nat_of_ascii c).

Definition char (b : Z) : ascii := ascii_of_nat (Z.to_nat b).

(** A byte [10xxxxxx], which continues a character. *)
Definition is_cont (c : ascii) : bool := (128 <=? byte c) && (byte c <=? 191).

Definition low6 (c : ascii) : Z := byte c - 128.

(** The code point at the front of [s] and the number of its bytes.  A
    byte that does not start a character is taken alone and has no code
    point, written [-1]. *)
Definition decode (s : string) : Z * nat :=
  match s with
  | EmptyString => (-1, 0%nat)
  | String c0 s1 =>
      let b0 := byte c0 in
      if b0 <? 128 then (b0, 1%nat)
      else
        match s1 with
        | String c1 s2 =>
            if negb (is_cont c1) then (-1, 1%nat)
            else if (192 <=? b0) && (b0 <? 224) then
              ((b0 - 192) * 64 + low6 c1, 2%nat)
            else
              match s2 with
              | String c2 s3 =>
                  if negb (is_cont c2) then (-1, 1%nat)
                  else if (224 <=? b0) && (b0 <? 240) then
                    (((b0 - 224) * 64 + low6 c1) * 64 + low6 c2, 3%nat)
                  else
                    match s3 with
                    | String c3 _ =>
                        if is_cont c3 && (240 <=? b0) && (b0 <? 248) then
                          ((((b0 - 240) * 64 + low6 c1) * 64 + low6 c2) * 64
                           + low6 c3, 4%nat)
                        else (-1, 1%nat)
                    | EmptyString => (-1, 1%nat)
                    end
              | EmptyString => (-1, 1%nat)
              end
        | EmptyString => (-1, 1%nat)
        end
  end.

(** The bytes of the code point [cp]. *)
Definition encode (cp : Z) : string :=
  if cp <? 128 then String (char cp) ""
  else if cp <? 2048 then
    String (char (192 + cp / 64)) (String (char (128 + cp mod 64)) "")
  else if cp <? 65536 then
    String (char (224 + cp / 4096))
      (String (char (128 + cp / 64 mod 64))
         (String (char (128 + cp mod 64)) ""))
  else
    String (char (240 + cp / 262144))
      (String (char (128 + cp / 4096 mod 64))
         (String (char (128 + cp / 64 mod 64))
            (String (char (128 + cp mod 64)) ""))).

(** The number of code units that the character starting with the
    byte [c] takes: 2 when it has 4 bytes, 1 otherwise; a continuation
    byte adds nothing to the character it belongs to. *)
Definition units (c : ascii) : nat :=
  if is_cont c then 0%nat else if 240 <=? byte c then 2%nat else 1%nat.

(** [s.length] *)
Fixpoint length (s : string) : nat :=
  match s with
  | EmptyString => 0%nat
  | String c s' => (units c + length s')%nat
  end.

(** The six low bits of the byte number [k] of [s]; 0 when [s] is
    shorter. *)
Fixpoint bits_at (k : nat) (s : string) : Z :=
  match s, k with
  | EmptyString, _ => 0
  | String c _, O => byte c mod 64
  | String _ s', S k' => bits_at k' s'
  end.

(** The first code unit of the character of 4 bytes at the front of
    [s]: the high surrogate of its pair, [0xD800 + (cp - 0x10000) / 1024],
    as a character of its own. *)
Definition high_surrogate (s : string) : string :=
  let cp :=
    (((bits_at 0 s mod 8) * 64 + bits_at 1 s) * 64 + bits_at 2 s) * 64
    + bits_at 3 s in
  encode (55296 + (cp - 65536) / 1024 mod 1024).

(** [s.slice(0, n)]: the first [n] code units.  A character is kept
    with all its bytes while its code units fit; of a surrogate pair
    that straddles the end, the high surrogate is kept. *)
Fixpoint slice0 (n : nat) (s : string) : string :=
  match s with
  | EmptyString => EmptyString
  | String c s' =>
      if is_cont c then String c (slice0 n s')
      else if (units c <=? n)%nat then String c (slice0 (n - units c) s')
      else if (n =? 1)%nat then high_surrogate s
      else EmptyString
  end.

(** The white space and the line terminators of ECMAScript
    ([WhiteSpace] and [LineTerminator]): what [trim] strips and
    [parseInt] skips. *)
Definition is_white (cp : Z) : bool :=
  ((9 <=? cp) && (cp <=? 13)) || (cp =? 32) || (cp =? 160) || (cp =? 5760)
  || ((8192 <=? cp) && (cp <=? 8202)) || (cp =? 8232) || (cp =? 8233)
  || (cp =? 8239) || (cp =? 8287) || (cp =? 12288) || (cp =? 65279).

(** The number of bytes of the white space character at the front of
    [s]; 0 when there is none. *)
Definition white_bytes (s : string) : nat :=
  let (cp, n) := decode s in if is_white cp then n else 0%nat.

(** Drops [skip] bytes, then the white space at the front. *)
Fixpoint drop_white (skip : nat) (s : string) : string :=
  match s with
  | EmptyString => EmptyString
  | String c s' =>
      match skip with
      | S k => drop_white k s'
      | O =>
          match white_bytes s with
          | O => s
          | S k => drop_white k s'
          end
      end
  end.

Definition trim_start (s : string) : string := drop_white 0 s.

(** The string is white space only. *)
Definition blank (s : string) : bool :=
  match trim_start s with EmptyString => true | _ => false end.

(** Drops the white space at the end: what is left from some byte on is
    dropped when it is white space only. *)
Fixpoint trim_end (s : string) : string :=
  match s with
  | EmptyString => EmptyString
  | String c s' => if blank s then EmptyString else String c (trim_end s')
  end.

(** [s.trim()] *)
Definition trim (s : string) : string := trim_end (trim_start s).

Definition in_ranges (cp : Z) (t : list (Z * Z)) : bool :=
  existsb (fun r => (fst r <=? cp) && (cp <=? snd r)) t.

(** The upper-case letters with a lower-case partner, as the Unicode
    Character Database (version 14, which Node 18 carries) lists them:
    every [step]-th code point from [first] to [last] has its partner
    [delta] further on. *)
Definition lower_table : list (Z * Z * Z * Z) :=
  [
   (65, 90, 1, 32); (192, 214, 1, 32); (216, 222, 1, 32); (256, 302, 2, 1);
   (306, 310, 2, 1); (313, 327, 2, 1); (330, 374, 2, 1); (376, 376, 1, -121);
   (377, 381, 2, 1); (385, 385, 1, 210); (386, 388, 2, 1);
   (390, 390, 1, 206); (391, 391, 1, 1); (393, 394, 1, 205);
   (395, 395, 1, 1); (398, 398, 1, 79); (399, 399, 1, 202);
   (400, 400, 1, 203); (401, 401, 1, 1); (403, 403, 1, 205);
   (404, 404, 1, 207); (406, 406, 1, 211); (407, 407, 1, 209);
   (408, 408, 1, 1); (412, 412, 1, 211); (413, 413, 1, 213);
   (415, 415, 1, 214); (416, 420, 2, 1); (422, 422, 1, 218);
   (423, 423, 1, 1); (425, 425, 1, 218); (428, 428, 1, 1);
   (430, 430, 1, 218); (431, 431, 1, 1); (433, 434, 1, 217);
   (435, 437, 2, 1); (439, 439, 1, 219); (440, 440, 1, 1); (444, 444, 1, 1);
   (452, 452, 1, 2); (453, 453, 1, 1); (455, 455, 1, 2); (456, 456, 1, 1);
   (458, 458, 1, 2); (459, 475, 2, 1); (478, 494, 2, 1); (497, 497, 1, 2);
   (498, 500, 2, 1); (502, 502, 1, -97); (503, 503, 1, -56);
   (504, 542, 2, 1); (544, 544, 1, -130); (546, 562, 2, 1);
   (570, 570, 1, 10795); (571, 571, 1, 1); (573, 573, 1, -163);
   (574, 574, 1, 10792); (577, 577, 1, 1); (579, 579, 1, -195);
   (580, 580, 1, 69); (581, 581, 1, 71); (582, 590, 2, 1); (880, 882, 2, 1);
   (886, 886, 1, 1); (895, 895, 1, 116); (902, 902, 1, 38);
   (904, 906, 1, 37); (908, 908, 1, 64); (910, 911, 1, 63);
   (913, 929, 1, 32); (931, 939, 1, 32); (975, 975, 1, 8); (984, 1006, 2, 1);
   (1012, 1012, 1, -60); (1015, 1015, 1, 1); (1017, 1017, 1, -7);
   (1018, 1018, 1, 1); (1021, 1023, 1, -130); (1024, 1039, 1, 80);
   (1040, 1071, 1, 32); (1120, 1152, 2, 1); (1162, 1214, 2, 1);
   (1216, 1216, 1, 15); (1217, 1229, 2, 1); (1232, 1326, 2, 1);
   (1329, 1366, 1, 48); (4256, 4293, 1, 7264); (4295, 4295, 1, 7264);
   (4301, 4301, 1, 7264); (5024, 5103, 1, 38864); (5104, 5109, 1, 8);
   (7312, 7354, 1, -3008); (7357, 7359, 1, -3008); (7680, 7828, 2, 1);
   (7838, 7838, 1, -7615); (7840, 7934, 2, 1); (7944, 7951, 1, -8);
   (7960, 7965, 1, -8); (7976, 7983, 1, -8); (7992, 7999, 1, -8);
   (8008, 8013, 1, -8); (8025, 8031, 2, -8); (8040, 8047, 1, -8);
   (8072, 8079, 1, -8); (8088, 8095, 1, -8); (8104, 8111, 1, -8);
   (8120, 8121, 1, -8); (8122, 8123, 1, -74); (8124, 8124, 1, -9);
   (8136, 8139, 1, -86); (8140, 8140, 1, -9); (8152, 8153, 1, -8);
   (8154, 8155, 1, -100); (8168, 8169, 1, -8); (8170, 8171, 1, -112);
   (8172, 8172, 1, -7); (8184, 8185, 1, -128); (8186, 8187, 1, -126);
   (8188, 8188, 1, -9); (8486, 8486, 1, -7517); (8490, 8490, 1, -8383);
   (8491, 8491, 1, -8262); (8498, 8498, 1, 28); (8544, 8559, 1, 16);
   (8579, 8579, 1, 1); (9398, 9423, 1, 26); (11264, 11311, 1, 48);
   (11360, 11360, 1, 1); (11362, 11362, 1, -10743); (11363, 11363, 1, -3814);
   (11364, 11364, 1, -10727); (11367, 11371, 2, 1);
   (11373, 11373, 1, -10780); (11374, 11374, 1, -10749);
   (11375, 11375, 1, -10783); (11376, 11376, 1, -10782);
   (11378, 11378, 1, 1); (11381, 11381, 1, 1); (11390, 11391, 1, -10815);
   (11392, 11490, 2, 1); (11499, 11501, 2, 1); (11506, 11506, 1, 1);
   (42560, 42604, 2, 1); (42624, 42650, 2, 1); (42786, 42798, 2, 1);
   (42802, 42862, 2, 1); (42873, 42875, 2, 1); (42877, 42877, 1, -35332);
   (42878, 42886, 2, 1); (42891, 42891, 1, 1); (42893, 42893, 1, -42280);
   (42896, 42898, 2, 1); (42902, 42920, 2, 1); (42922, 42922, 1, -42308);
   (42923, 42923, 1, -42319); (42924, 42924, 1, -42315);
   (42925, 42925, 1, -42305); (42926, 42926, 1, -42308);
   (42928, 42928, 1, -42258); (42929, 42929, 1, -42282);
   (42930, 42930, 1, -42261); (42931, 42931, 1, 928); (42932, 42946, 2, 1);
   (42948, 42948, 1, -48); (42949, 42949, 1, -42307);
   (42950, 42950, 1, -35384); (42951, 42953, 2, 1); (42960, 42960, 1, 1);
   (42966, 42968, 2, 1); (42997, 42997, 1, 1); (65313, 65338, 1, 32);
   (66560, 66599, 1, 40); (66736, 66771, 1, 40); (66928, 66938, 1, 39);
   (66940, 66954, 1, 39); (66956, 66962, 1, 39); (66964, 66965, 1, 39);
   (68736, 68786, 1, 64); (71840, 71871, 1, 32); (93760, 93791, 1, 32);
   (125184, 125217, 1, 34) ].

(** The code points with the property [Case_Ignorable]. *)
Definition case_ignorable_table : list (Z * Z) :=
  [
   (39, 39); (46, 46); (58, 58); (94, 94); (96, 96); (168, 168); (173, 173);
   (175, 175); (180, 180); (183, 184); (688, 879); (884, 885); (890, 890);
   (900, 901); (903, 903); (1155, 1161); (1369, 1369); (1375, 1375);
   (1425, 1469); (1471, 1471); (1473, 1474); (1476, 1477); (1479, 1479);
   (1524, 1524); (1536, 1541); (1552, 1562); (1564, 1564); (1600, 1600);
   (1611, 1631); (1648, 1648); (1750, 1757); (1759, 1768); (1770, 1773);
   (1807, 1807); (1809, 1809); (1840, 1866); (1958, 1968); (2027, 2037);
   (2042, 2042); (2045, 2045); (2070, 2093); (2137, 2139); (2184, 2184);
   (2192, 2193); (2200, 2207); (2249, 2306); (2362, 2362); (2364, 2364);
   (2369, 2376); (2381, 2381); (2385, 2391); (2402, 2403); (2417, 2417);
   (2433, 2433); (2492, 2492); (2497, 2500); (2509, 2509); (2530, 2531);
   (2558, 2558); (2561, 2562); (2620, 2620); (2625, 2626); (2631, 2632);
   (2635, 2637); (2641, 2641); (2672, 2673); (2677, 2677); (2689, 2690);
   (2748, 2748); (2753, 2757); (2759, 2760); (2765, 2765); (2786, 2787);
   (2810, 2815); (2817, 2817); (2876, 2876); (2879, 2879); (2881, 2884);
   (2893, 2893); (2901, 2902); (2914, 2915); (2946, 2946); (3008, 3008);
   (3021, 3021); (3072, 3072); (3076, 3076); (3132, 3132); (3134, 3136);
   (3142, 3144); (3146, 3149); (3157, 3158); (3170, 3171); (3201, 3201);
   (3260, 3260); (3263, 3263); (3270, 3270); (3276, 3277); (3298, 3299);
   (3328, 3329); (3387, 3388); (3393, 3396); (3405, 3405); (3426, 3427);
   (3457, 3457); (3530, 3530); (3538, 3540); (3542, 3542); (3633, 3633);
   (3636, 3642); (3654, 3662); (3761, 3761); (3764, 3772); (3782, 3782);
   (3784, 3789); (3864, 3865); (3893, 3893); (3895, 3895); (3897, 3897);
   (3953, 3966); (3968, 3972); (3974, 3975); (3981, 3991); (3993, 4028);
   (4038, 4038); (4141, 4144); (4146, 4151); (4153, 4154); (4157, 4158);
   (4184, 4185); (4190, 4192); (4209, 4212); (4226, 4226); (4229, 4230);
   (4237, 4237); (4253, 4253); (4348, 4348); (4957, 4959); (5906, 5908);
   (5938, 5939); (5970, 5971); (6002, 6003); (6068, 6069); (6071, 6077);
   (6086, 6086); (6089, 6099); (6103, 6103); (6109, 6109); (6155, 6159);
   (6211, 6211); (6277, 6278); (6313, 6313); (6432, 6434); (6439, 6440);
   (6450, 6450); (6457, 6459); (6679, 6680); (6683, 6683); (6742, 6742);
   (6744, 6750); (6752, 6752); (6754, 6754); (6757, 6764); (6771, 6780);
   (6783, 6783); (6823, 6823); (6832, 6862); (6912, 6915); (6964, 6964);
   (6966, 6970); (6972, 6972); (6978, 6978); (7019, 7027); (7040, 7041);
   (7074, 7077); (7080, 7081); (7083, 7085); (7142, 7142); (7144, 7145);
   (7149, 7149); (7151, 7153); (7212, 7219); (7222, 7223); (7288, 7293);
   (7376, 7378); (7380, 7392); (7394, 7400); (7405, 7405); (7412, 7412);
   (7416, 7417); (7468, 7530); (7544, 7544); (7579, 7679); (8125, 8125);
   (8127, 8129); (8141, 8143); (8157, 8159); (8173, 8175); (8189, 8190);
   (8203, 8207); (8216, 8217); (8228, 8228); (8231, 8231); (8234, 8238);
   (8288, 8292); (8294, 8303); (8305, 8305); (8319, 8319); (8336, 8348);
   (8400, 8432); (11388, 11389); (11503, 11505); (11631, 11631);
   (11647, 11647); (11744, 11775); (11823, 11823); (12293, 12293);
   (12330, 12333); (12337, 12341); (12347, 12347); (12441, 12446);
   (12540, 12542); (40981, 40981); (42232, 42237); (42508, 42508);
   (42607, 42610); (42612, 42621); (42623, 42623); (42652, 42655);
   (42736, 42737); (42752, 42785); (42864, 42864); (42888, 42890);
   (42994, 42996); (43000, 43001); (43010, 43010); (43014, 43014);
   (43019, 43019); (43045, 43046); (43052, 43052); (43204, 43205);
   (43232, 43249); (43263, 43263); (43302, 43309); (43335, 43345);
   (43392, 43394); (43443, 43443); (43446, 43449); (43452, 43453);
   (43471, 43471); (43493, 43494); (43561, 43566); (43569, 43570);
   (43573, 43574); (43587, 43587); (43596, 43596); (43632, 43632);
   (43644, 43644); (43696, 43696); (43698, 43700); (43703, 43704);
   (43710, 43711); (43713, 43713); (43741, 43741); (43756, 43757);
   (43763, 43764); (43766, 43766); (43867, 43871); (43881, 43883);
   (44005, 44005); (44008, 44008); (44013, 44013); (64286, 64286);
   (64434, 64450); (65024, 65039); (65043, 65043); (65056, 65071);
   (65106, 65106); (65109, 65109); (65279, 65279); (65287, 65287);
   (65294, 65294); (65306, 65306); (65342, 65342); (65344, 65344);
   (65392, 65392); (65438, 65439); (65507, 65507); (65529, 65531);
   (66045, 66045); (66272, 66272); (66422, 66426); (67456, 67461);
   (67463, 67504); (67506, 67514); (68097, 68099); (68101, 68102);
   (68108, 68111); (68152, 68154); (68159, 68159); (68325, 68326);
   (68900, 68903); (69291, 69292); (69446, 69456); (69506, 69509);
   (69633, 69633); (69688, 69702); (69744, 69744); (69747, 69748);
   (69759, 69761); (69811, 69814); (69817, 69818); (69821, 69821);
   (69826, 69826); (69837, 69837); (69888, 69890); (69927, 69931);
   (69933, 69940); (70003, 70003); (70016, 70017); (70070, 70078);
   (70089, 70092); (70095, 70095); (70191, 70193); (70196, 70196);
   (70198, 70199); (70206, 70206); (70367, 70367); (70371, 70378);
   (70400, 70401); (70459, 70460); (70464, 70464); (70502, 70508);
   (70512, 70516); (70712, 70719); (70722, 70724); (70726, 70726);
   (70750, 70750); (70835, 70840); (70842, 70842); (70847, 70848);
   (70850, 70851); (71090, 71093); (71100, 71101); (71103, 71104);
   (71132, 71133); (71219, 71226); (71229, 71229); (71231, 71232);
   (71339, 71339); (71341, 71341); (71344, 71349); (71351, 71351);
   (71453, 71455); (71458, 71461); (71463, 71467); (71727, 71735);
   (71737, 71738); (71995, 71996); (71998, 71998); (72003, 72003);
   (72148, 72151); (72154, 72155); (72160, 72160); (72193, 72202);
   (72243, 72248); (72251, 72254); (72263, 72263); (72273, 72278);
   (72281, 72283); (72330, 72342); (72344, 72345); (72752, 72758);
   (72760, 72765); (72767, 72767); (72850, 72871); (72874, 72880);
   (72882, 72883); (72885, 72886); (73009, 73014); (73018, 73018);
   (73020, 73021); (73023, 73029); (73031, 73031); (73104, 73105);
   (73109, 73109); (73111, 73111); (73459, 73460); (78896, 78904);
   (92912, 92916); (92976, 92982); (92992, 92995); (94031, 94031);
   (94095, 94111); (94176, 94177); (94179, 94180); (110576, 110579);
   (110581, 110587); (110589, 110590); (113821, 113822); (113824, 113827);
   (118528, 118573); (118576, 118598); (119143, 119145); (119155, 119170);
   (119173, 119179); (119210, 119213); (119362, 119364); (121344, 121398);
   (121403, 121452); (121461, 121461); (121476, 121476); (121499, 121503);
   (121505, 121519); (122880, 122886); (122888, 122904); (122907, 122913);
   (122915, 122916); (122918, 122922); (123184, 123197); (123566, 123566);
   (123628, 123631); (125136, 125142); (125252, 125259); (127995, 127999);
   (917505, 917505); (917536, 917631); (917760, 917999) ].

(** The code points with the property [Cased] that are not
    [Case_Ignorable]. *)
Definition cased_table : list (Z * Z) :=
  [
   (65, 90); (97, 122); (170, 170); (181, 181); (186, 186); (192, 214);
   (216, 246); (248, 442); (444, 447); (452, 659); (661, 687); (880, 883);
   (886, 887); (891, 893); (895, 895); (902, 902); (904, 906); (908, 908);
   (910, 929); (931, 1013); (1015, 1153); (1162, 1327); (1329, 1366);
   (1376, 1416); (4256, 4293); (4295, 4295); (4301, 4301); (4304, 4346);
   (4349, 4351); (5024, 5109); (5112, 5117); (7296, 7304); (7312, 7354);
   (7357, 7359); (7424, 7467); (7531, 7543); (7545, 7578); (7680, 7957);
   (7960, 7965); (7968, 8005); (8008, 8013); (8016, 8023); (8025, 8025);
   (8027, 8027); (8029, 8029); (8031, 8061); (8064, 8116); (8118, 8124);
   (8126, 8126); (8130, 8132); (8134, 8140); (8144, 8147); (8150, 8155);
   (8160, 8172); (8178, 8180); (8182, 8188); (8450, 8450); (8455, 8455);
   (8458, 8467); (8469, 8469); (8473, 8477); (8484, 8484); (8486, 8486);
   (8488, 8488); (8490, 8493); (8495, 8500); (8505, 8505); (8508, 8511);
   (8517, 8521); (8526, 8526); (8544, 8575); (8579, 8580); (9398, 9449);
   (11264, 11387); (11390, 11492); (11499, 11502); (11506, 11507);
   (11520, 11557); (11559, 11559); (11565, 11565); (42560, 42605);
   (42624, 42651); (42786, 42863); (42865, 42887); (42891, 42894);
   (42896, 42954); (42960, 42961); (42963, 42963); (42965, 42969);
   (42997, 42998); (43002, 43002); (43824, 43866); (43872, 43880);
   (43888, 43967); (64256, 64262); (64275, 64279); (65313, 65338);
   (65345, 65370); (66560, 66639); (66736, 66771); (66776, 66811);
   (66928, 66938); (66940, 66954); (66956, 66962); (66964, 66965);
   (66967, 66977); (66979, 66993); (66995, 67001); (67003, 67004);
   (68736, 68786); (68800, 68850); (71840, 71903); (93760, 93823);
   (119808, 119892); (119894, 119964); (119966, 119967); (119970, 119970);
   (119973, 119974); (119977, 119980); (119982, 119993); (119995, 119995);
   (119997, 120003); (120005, 120069); (120071, 120074); (120077, 120084);
   (120086, 120092); (120094, 120121); (120123, 120126); (120128, 120132);
   (120134, 120134); (120138, 120144); (120146, 120485); (120488, 120512);
   (120514, 120538); (120540, 120570); (120572, 120596); (120598, 120628);
   (120630, 120654); (120656, 120686); (120688, 120712); (120714, 120744);
   (120746, 120770); (120772, 120779); (122624, 122633); (122635, 122654);
   (125184, 125251); (127280, 127305); (127312, 127337); (127344, 127369) ].

(** The lower-case partner of the code point [cp], when it has one. *)
Definition lower_of (cp : Z) : option Z :=
  match
    find
      (fun r =>
         match r with
         | (first, last, step, _) =>
             (first <=? cp) && (cp <=? last) && ((cp - first) mod step =? 0)
         end)
      lower_table
  with
  | Some (_, _, _, delta) => Some (cp + delta)
  | None => None
  end.

Definition case_ignorable (cp : Z) : bool := in_ranges cp case_ignorable_table.

Definition cased (cp : Z) : bool := in_ranges cp cased_table.

(** After [skip] bytes: a cased letter follows, with nothing but
    case-ignorable characters before it. *)
Fixpoint cased_follows (skip : nat) (s : string) : bool :=
  match s with
  | EmptyString => false
  | String c s' =>
      match skip with
      | S k => cased_follows k s'
      | O =>
          let (cp, n) := decode s in
          if case_ignorable cp then cased_follows (n - 1) s' else cased cp
      end
  end.

(** The lowering of the rest [s] of a string.  [after_cased]: a cased
    letter stands before, with nothing but case-ignorable characters
    since.  The next [skip] bytes belong to the character just
    handled: they are copied when [copy] is set, left out when the
    character has been replaced.  A capital sigma becomes the final
    sigma when a cased letter stands before it and none follows
    ([Final_Sigma] of the Unicode special casing); a capital I with a
    dot becomes an i and a combining dot. *)
Fixpoint lower (after_cased copy : bool) (skip : nat) (s : string) : string :=
  match s with
  | EmptyString => EmptyString
  | String c s' =>
      match skip with
      | S k =>
          if copy then String c (lower after_cased copy k s')
          else lower after_cased copy k s'
      | O =>
          let (cp, n) := decode s in
          let after := if case_ignorable cp then after_cased else cased cp in
          if cp =? 931 then
            (if after_cased && negb (cased_follows (n - 1) s')
             then encode 962 else encode 963)
            ++ lower after false (n - 1) s'
          else if cp =? 304 then
            String "i" (encode 775) ++ lower after false (n - 1) s'
          else
            match lower_of cp with
            | Some l => encode l ++ lower after false (n - 1) s'
            | None => String c (lower after true (n - 1) s')
            end
      end
  end.

(** [s.toLowerCase()] *)
Definition toLowerCase (s : string) : string := lower false false 0 s.

Definition digit_of (c : ascii) : option Z :=
  let n := nat_of_ascii c in
  if ((48 <=? n) && (n <=? 57))%nat then Some (Z.of_nat (n - 48)) else None.

(** The longest prefix of decimal digits, read as a number on top of
    the accumulator; [None] when there is no digit at all. *)
Fixpoint digits (acc : option Z) (s : string) : option Z :=
  match s with
  | String c s' =>
      match digit_of c with
      | Some d =>
          digits (Some (10 * match acc with Some a => a | None => 0 end + d)) s'
      | None => acc
      end
  | EmptyString => acc
  end.

(** [parseInt(s, 10)] on a string; [None] is [NaN].  The digits are
    read exactly; JavaScript rounds what they say to a double, which is
    the same number up to 2^53. *)
Definition parseInt_string (s : string) : option Z :=
  match trim_start s with
  | String "-" s' => option_map Z.opp (digits None s')
  | String "+" s' => digits None s'
  | s' => digits None s'
  end.

(** [parseInt(v, 10)]: the argument is converted with [String] first. *)
Definition parseInt (v : jsval) : option Z := parseInt_string (toString v).

(** *** Binary64 arithmetic of the time bonus *)

(** The double that holds the integer [z] (exact below 2^53). *)
Definition float_of_Z (z : Z) : float :=
  if z <? 0 then PrimFloat.opp (PrimFloat.of_uint63 (Uint63.of_Z (- z)))
  else PrimFloat.of_uint63 (Uint63.of_Z z).

(** [Math.round(x)]: the integer nearest to [x], a tie going up, that is
    the floor of [x + 1/2] taken exactly.  For [x = v * 2^e] with [e < 0]
    this is the floor of [(2 * v + 2^(-e)) / 2^(1 - e)], a shift to the
    right.  A [NaN] or an infinity has no integer value and is mapped to
    [0] here; the server never divides by a zero time limit (see
    [loadQuestions]). *)
Definition Math_round (x : float) : Z :=
  match Prim2SF x with
  | S754_finite s m e =>
      let v := if s then Z.neg m else Z.pos m in
      if 0 <=? e then Z.shiftl v e
      else Z.shiftr (2 * v + Z.shiftl 1 (- e)) (1 - e)
  | _ => 0
  end.

(** [Math.floor(x)], with the same convention. *)
Definition Math_floor (x : float) : Z :=
  match Prim2SF x with
  | S754_finite s m e =>
      let v := if s then Z.neg m else Z.pos m in
      if 0 <=? e then Z.shiftl v e else Z.shiftr v (- e)
  | _ => 0
  end.

(** The rounding of binary64 on an integer [n >= 0]: [n] itself when it
    has at most 53 bits, and otherwise the nearest integer with 53
    significant bits, the one with the even significand at a tie.  As
    the rounding only looks at the bits, this is also how [n * 2^e]
    rounds for every exponent [e] in the range of the normal numbers. *)
Definition round53 (n : Z) : Z :=
  let k := Z.log2 n - 52 in
  if k <=? 0 then n
  else
    let d := 2 ^ k in
    let q := n / d in
    let r := n mod d in
    let q' :=
      if 2 * r <? d then q
      else if d <? 2 * r then q + 1
      else if Z.even q then q else q + 1 in
    q' * d.

End JS.

(** ** Data model *)

(** A connection ([ws]) is identified by a number. *)
Definition conn : Type := nat.

(** [game.state] *)
Inductive phase : Type := idle | lobby | question | reveal | leaderboard.

Definition phase_eqb (a b : phase) : bool :=
  match a, b with
  | idle, idle | lobby, lobby | question, question
  | reveal, reveal | leaderboard, leaderboard => true
  | _, _ => false
  end.

(** A row of [questions.csv] as [parseCSV] returns it. *)
Record csv_row : Type := {
  row_question : string;
  row_type : string;
  option1 : string;
  option2 : string;
  option3 : string;
  option4 : string;
  row_correct : string;
  time_limit : string
}.

(** A question as [loadQuestions] builds it; [correct] is [None] when
    [parseInt] gave [NaN]. *)
Record quiz_question : Type := {
  q_question : string;
  q_type : string;
  options : list string;
  correct : option Z;
  timeLimit : Z
}.

(** A value of [game.players]; [None] is [null]. *)
Record player : Type := {
  name : string;
  ws : conn;
  score : Z;
  answer : option Z;
  answerTime : option Z;
  lastPoints : Z
}.

(** The [Map] from player id to player, in insertion order. *)
Definition player_map : Type := list (nat * player).

Record game_state : Type := {
  pin : option string;
  state : phase;
  players : player_map;
  questions : list quiz_question;
  currentQuestion : Z;
  timer : option nat;
  timeRemaining : Z;
  hostWs : option conn;
  answerCount : Z
}.

(** Messages of the server, by their [type]; the payload is the [data]
    object as [JSON.stringify] writes it (a [NaN] or a hole of the
    distribution array is [null], here [None]). *)
Inductive server_msg : Type :=
  | msg_lobby (pin : option string) (players : list string)
  | msg_question (index total : Z) (text type : string)
      (options : list string) (timeLimit : Z)
  | msg_timer (remaining : Z)
  | msg_results (correct : option Z) (distribution : list (option Z))
      (options : list string) (leaderboard : list (string * Z)) (isLast : bool)
  | msg_result (correct yourAnswer : option Z) (points totalScore : Z)
      (isLast : bool)
  | msg_leaderboard (leaderboard : list (string * Z))
  | msg_player_joined (name : string) (count : Z) (players : list string)
  | msg_player_left (name : string) (count : Z) (players : list string)
  | msg_host_disconnected
  | msg_error (message : string)
  | msg_joined (name : string)
  | msg_answer_received
  | msg_answer_count (count total : Z).

(** A parsed inbound message, by its [type]: [Join] carries the fields
    [pin] and [name] of [msg.data || {}], [Answer] carries
    [msg.data?.answer]. *)
Inductive client_msg : Type :=
  | Join (pin name : JS.jsval)
  | Answer (answer : JS.jsval)
  | Start
  | Next
  | Reset
  | Other (type : string).

(** The module-level state: [game], [questions], [nextPlayerId], the
    intervals that [setInterval] has scheduled and [clearInterval] has
    not removed, and what was handed to [ws.send]. *)
Record world : Type := {
  game : game_state;
  loaded : list quiz_question;
  nextPlayerId : nat;
  intervals : list nat;
  nextInterval : nat;
  outbox : list (conn * server_msg)
}.

(** The state at start-up: [let game = { pin: null, state: 'idle', ... }]. *)
Definition initial_game (qs : list quiz_question) : game_state :=
  {| pin := None; state := idle; players := []; questions := qs;
     currentQuestion := -1; timer := None; timeRemaining := 0;
     hostWs := None; answerCount := 0 |}.

Definition initial_world (qs : list quiz_question) : world :=
  {| game := initial_game qs; loaded := qs; nextPlayerId := 1;
     intervals := []; nextInterval := 0; outbox := [] |}.

(** *** Field updates *)

Definition set_pin (v : option string) (g : game_state) : game_state :=
  {| pin := v; state := state g; players := players g;
     questions := questions g; currentQuestion := currentQuestion g;
     timer := timer g; timeRemaining := timeRemaining g;
     hostWs := hostWs g; answerCount := answerCount g |}.

Definition set_state (v : phase) (g : game_state) : game_state :=
  {| pin := pin g; state := v; players := players g;
     questions := questions g; currentQuestion := currentQuestion g;
     timer := timer g; timeRemaining := timeRemaining g;
     hostWs := hostWs g; answerCount := answerCount g |}.

Definition set_players (v : player_map) (g : game_state) : game_state :=
  {| pin := pin g; state := state g; players := v;
     questions := questions g; currentQuestion := currentQuestion g;
     timer := timer g; timeRemaining := timeRemaining g;
     hostWs := hostWs g; answerCount := answerCount g |}.

Definition set_questions (v : list quiz_question) (g : game_state) : game_state :=
  {| pin := pin g; state := state g; players := players g;
     questions := v; currentQuestion := currentQuestion g;
     timer := timer g; timeRemaining := timeRemaining g;
     hostWs := hostWs g; answerCount := answerCount g |}.

Definition set_currentQuestion (v : Z) (g : game_state) : game_state :=
  {| pin := pin g; state := state g; players := players g;
     questions := questions g; currentQuestion := v;
     timer := timer g; timeRemaining := timeRemaining g;
     hostWs := hostWs g; answerCount := answerCount g |}.

Definition set_timer (v : option nat) (g : game_state) : game_state :=
  {| pin := pin g; state := state g; players := players g;
     questions := questions g; currentQuestion := currentQuestion g;
     timer := v; timeRemaining := timeRemaining g;
     hostWs := hostWs g; answerCount := answerCount g |}.

Definition set_timeRemaining (v : Z) (g : game_state) : game_state :=
  {| pin := pin g; state := state g; players := players g;
     questions := questions g; currentQuestion := currentQuestion g;
     timer := timer g; timeRemaining := v;
     hostWs := hostWs g; answerCount := answerCount g |}.

Definition set_hostWs (v : option conn) (g : game_state) : game_state :=
  {| pin := pin g; state := state g; players := players g;
     questions := questions g; currentQuestion := currentQuestion g;
     timer := timer g; timeRemaining := timeRemaining g;
     hostWs := v; answerCount := answerCount g |}.

Definition set_answerCount (v : Z) (g : game_state) : game_state :=
  {| pin := pin g; state := state g; players := players g;
     questions := questions g; currentQuestion := currentQuestion g;
     timer := timer g; timeRemaining := timeRemaining g;
     hostWs := hostWs g; answerCount := v |}.

Definition with_game (f : game_state -> game_state) (w : world) : world :=
  {| game := f (game w); loaded := loaded w; nextPlayerId := nextPlayerId w;
     intervals := intervals w; nextInterval := nextInterval w;
     outbox := outbox w |}.

Definition set_loaded (v : list quiz_question) (w : world) : world :=
  {| game := game w; loaded := v; nextPlayerId := nextPlayerId w;
     intervals := intervals w; nextInterval := nextInterval w;
     outbox := outbox w |}.

Definition set_nextPlayerId (v : nat) (w : world) : world :=
  {| game := game w; loaded := loaded w; nextPlayerId := v;
     intervals := intervals w; nextInterval := nextInterval w;
     outbox := outbox w |}.

Definition set_intervals (v : list nat) (w : world) : world :=
  {| game := game w; loaded := loaded w; nextPlayerId := nextPlayerId w;
     intervals := v; nextInterval := nextInterval w; outbox := outbox w |}.

Definition set_nextInterval (v : nat) (w : world) : world :=
  {| game := game w; loaded := loaded w; nextPlayerId := nextPlayerId w;
     intervals := intervals w; nextInterval := v; outbox := outbox w |}.

Definition set_outbox (v : list (conn * server_msg)) (w : world) : world :=
  {| game := game w; loaded := loaded w; nextPlayerId := nextPlayerId w;
     intervals := intervals w; nextInterval := nextInterval w; outbox := v |}.

(** *** The [Map] operations the server uses *)

Module PMap.

Definition values (m : player_map) : list player := map snd m.

Definition size (m : player_map) : Z := Z.of_nat (List.length m).

Fixpoint get (k : nat) (m : player_map) : option player :=
  match m with
  | [] => None
  | (k', p) :: m' => if Nat.eqb k k' then Some p else get k m'
  end.

(** [m.set(k, p)]: an existing key keeps its place, a new one goes last. *)
Fixpoint set (k : nat) (p : player) (m : player_map) : player_map :=
  match m with
  | [] => [(k, p)]
  | (k', p') :: m' =>
      if Nat.eqb k k' then (k', p) :: m' else (k', p') :: set k p m'
  end.

Fixpoint delete (k : nat) (m : player_map) : player_map :=
  match m with
  | [] => []
  | (k', p') :: m' =>
      if Nat.eqb k k' then m' else (k', p') :: delete k m'
  end.

(** [m.forEach(p => ...)] where the callback only assigns fields of [p]. *)
Definition update_all (f : player -> player) (m : player_map) : player_map :=
  map (fun kp => (fst kp, f (snd kp))) m.

End PMap.

(** ** Effects: state, and the uncaught exception *)

Inductive outcome (A : Type) : Type :=
  | Done (a : A) (w : world)
  | Thrown (w : world).
Arguments Done {A} a w.
Arguments Thrown {A} w.

(** The state the handler leaves behind, however it ended. *)
Definition final {A : Type} (o : outcome A) : world :=
  match o with Done _ w => w | Thrown w => w end.

Definition M (A : Type) : Type := world -> outcome A.

Definition ret {A : Type} (a : A) : M A := fun w => Done a w.

Definition bind {A B : Type} (m : M A) (k : A -> M B) : M B :=
  fun w => match m w with Done a w' => k a w' | Thrown w' => Thrown w' end.

Definition throw {A : Type} : M A := fun w => Thrown w.

Definition get_game : M game_state := fun w => Done (game w) w.

Definition update_game (f : game_state -> game_state) : M unit :=
  fun w => Done tt (with_game f w).

Declare Scope js_scope.
Delimit Scope js_scope with js.
Notation "x <- c1 ;; c2" := (bind c1 (fun x => c2))
  (at level 61, c1 at next level, right associativity) : js_scope.
Notation "c1 ;; c2" := (bind c1 (fun _ => c2))
  (at level 61, right associativity) : js_scope.
Open Scope js_scope.

(** ** The server *)

(** [loadQuestions], from the rows [parseCSV] read. *)
Definition load_row (q : csv_row) : quiz_question :=
  {| q_question := row_question q;
     q_type := row_type q;
     options :=
       filter (fun o => negb (String.eqb o ""))
         [option1 q; option2 q; option3 q; option4 q];
     correct := JS.parseInt_string (row_correct q);
     timeLimit :=
       match JS.parseInt_string (time_limit q) with
       | Some n => if n =? 0 then 20 else n
       | None => 20
       end |}.

Definition loadQuestions (rows : list csv_row) : list quiz_question :=
  map load_row rows.

(** [Math.floor(1000 + Math.random() * 9000)] in binary64, where
    [Math.random()] is the double [rnd / 2^53] with [0 <= rnd < 2^53].
    In units of [2^-53]: the product is the integer [rnd * 9000]
    rounded to a double, the sum is [1000 * 2^53] plus that product,
    rounded again, and the floor drops the 53 bits after the point. *)
Definition draw_pin (rnd : Z) : Z :=
  JS.round53 (1000 * 2 ^ 53 + JS.round53 (rnd * 9000)) / 2 ^ 53.

(** The same expression on the primitive floats. *)
Definition draw_pin_binary64 (rnd : Z) : Z :=
  let r := PrimFloat.div (JS.float_of_Z rnd) (JS.float_of_Z (2 ^ 53)) in
  JS.Math_floor
    (PrimFloat.add (JS.float_of_Z 1000) (PrimFloat.mul r (JS.float_of_Z 9000))).

(** [Math.round((p.answerTime / q.timeLimit) * 1000)] in binary64;
    a [null] answer time counts as [0] in the division. *)
Definition timeBonus (answerTime : option Z) (timeLimit : Z) : Z :=
  let a := match answerTime with Some a => a | None => 0 end in
  JS.Math_round
    (PrimFloat.mul (PrimFloat.div (JS.float_of_Z a) (JS.float_of_Z timeLimit))
       (JS.float_of_Z 1000)).

(** [p.answer === q.correct] for a non-null answer; [NaN] equals nothing. *)
Definition answer_is (a : Z) (c : option Z) : bool :=
  match c with Some c => a =? c | None => false end.

(** The body of the scoring loop of [revealAnswer] on one player. *)
Definition score_player (q : quiz_question) (p : player) : player :=
  match answer p with
  | Some a =>
      if answer_is a (correct q) then
        let lp := 1000 + timeBonus (answerTime p) (timeLimit q) in
        {| name := name p; ws := ws p; score := score p + lp;
           answer := answer p; answerTime := answerTime p; lastPoints := lp |}
      else
        {| name := name p; ws := ws p; score := score p;
           answer := answer p; answerTime := answerTime p; lastPoints := 0 |}
  | None =>
      {| name := name p; ws := ws p; score := score p;
         answer := answer p; answerTime := answerTime p; lastPoints := 0 |}
  end.

(** [distribution[a - 1]++] as the serialised array shows it: a slot in
    range is incremented; a slot past the end extends the array, and the
    new slots are holes and a [NaN], all written [null]; a negative
    index is not an element. *)
Definition bump (d : list (option Z)) (a : Z) : list (option Z) :=
  let i := a - 1 in
  if i <? 0 then d
  else
    let n := Z.to_nat i in
    if (n <? List.length d)%nat then
      firstn n d ++ option_map (Z.add 1) (nth n d None) :: skipn (S n) d
    else d ++ repeat None (S n - List.length d).

Definition count_answers (d : list (option Z)) (ps : list player)
  : list (option Z) :=
  fold_left
    (fun d p => match answer p with Some a => bump d a | None => d end) ps d.

(** [Array.prototype.sort(cmp)]: a stable sort (ECMAScript 2019; the
    README asks for Node 18), here by insertion.  An element goes in
    front of the first one it does not compare greater than. *)
Fixpoint sort_insert {A : Type} (cmp : A -> A -> Z) (x : A) (l : list A)
  : list A :=
  match l with
  | [] => [x]
  | y :: l' => if cmp x y <=? 0 then x :: y :: l' else y :: sort_insert cmp x l'
  end.

Definition js_sort {A : Type} (cmp : A -> A -> Z) (l : list A) : list A :=
  fold_right (sort_insert cmp) [] l.

(** The comparator of [getLeaderboard]: [(a, b) => b.score - a.score]. *)
Definition by_score (a b : string * Z) : Z := snd b - snd a.

(** [getLeaderboard] on the players of a game. *)
Definition getLeaderboard (g : game_state) : list (string * Z) :=
  js_sort by_score
    (map (fun p => (name p, score p)) (PMap.values (players g))).

(** [game.questions[game.currentQuestion]]; [None] is [undefined]. *)
Definition current_question (g : game_state) : option quiz_question :=
  if currentQuestion g <? 0 then None
  else nth_error (questions g) (Z.to_nat (currentQuestion g)).

Definition clearInterval (h : nat) : M unit :=
  fun w =>
    Done tt (set_intervals (filter (fun x => negb (Nat.eqb x h)) (intervals w)) w).

Definition setInterval : M nat :=
  fun w =>
    Done (nextInterval w)
      (set_nextInterval (S (nextInterval w))
         (set_intervals (intervals w ++ [nextInterval w]) w)).

Fixpoint forEach {A : Type} (f : A -> M unit) (l : list A) : M unit :=
  match l with
  | [] => ret tt
  | x :: l' => f x ;; forEach f l'
  end.

Section Server.

(** [ws.readyState] of every connection while a handler runs. *)
Variable readyState : conn -> Z.

Definition send (c : conn) (m : server_msg) : M unit :=
  fun w =>
    if readyState c =? 1 then Done tt (set_outbox (outbox w ++ [(c, m)]) w)
    else Done tt w.

Definition sendToHost (m : server_msg) : M unit :=
  g <- get_game ;;
  match hostWs g with Some h => send h m | None => ret tt end.

Definition broadcast (m : server_msg) : M unit :=
  g <- get_game ;;
  forEach (fun p => send (ws p) m) (PMap.values (players g)) ;;
  sendToHost m.

(** [csv] is what [loadQuestions()] finds: [None] when it throws. *)
Definition resetGame (csv : option (list csv_row)) (rnd : Z) : M unit :=
  g <- get_game ;;
  match timer g with Some h => clearInterval h | None => ret tt end ;;
  match csv with
  | Some rows => fun w => Done tt (set_loaded (loadQuestions rows) w)
  | None => ret tt
  end ;;
  update_game (set_pin (Some (JS.string_of_Z (draw_pin rnd)))) ;;
  update_game (set_state lobby) ;;
  update_game (set_players []) ;;
  (fun w => Done tt (with_game (set_questions (loaded w)) w)) ;;
  update_game (set_currentQuestion (-1)) ;;
  update_game (set_timer None) ;;
  update_game (set_timeRemaining 0) ;;
  update_game (set_answerCount 0).

Definition endGame : M unit :=
  update_game (set_state leaderboard) ;;
  g <- get_game ;;
  broadcast (msg_leaderboard (getLeaderboard g)).

Definition startQuestion : M unit :=
  update_game (fun g => set_currentQuestion (currentQuestion g + 1) g) ;;
  g <- get_game ;;
  if currentQuestion g >=? Z.of_nat (List.length (questions g)) then endGame
  else
    update_game (set_state question) ;;
    update_game (set_answerCount 0) ;;
    match current_question g with
    | None => throw
    | Some q =>
        update_game (set_timeRemaining (timeLimit q)) ;;
        update_game (fun g =>
          set_players
            (PMap.update_all
               (fun p =>
                  {| name := name p; ws := ws p; score := score p;
                     answer := None; answerTime := None;
                     lastPoints := lastPoints p |})
               (players g)) g) ;;
        broadcast
          (msg_question (currentQuestion g)
             (Z.of_nat (List.length (questions g)))
             (q_question q) (q_type q) (options q) (timeLimit q)) ;;
        h <- setInterval ;;
        update_game (set_timer (Some h))
    end.

Definition revealAnswer : M unit :=
  g <- get_game ;;
  if negb (phase_eqb (state g) question) then ret tt
  else
    match timer g with
    | Some h => clearInterval h ;; update_game (set_timer None)
    | None => ret tt
    end ;;
    update_game (set_state reveal) ;;
    match current_question g with
    | None => throw
    | Some q =>
        let distribution :=
          count_answers (repeat (Some 0) (List.length (options q)))
            (PMap.values (players g)) in
        update_game (fun g =>
          set_players (PMap.update_all (score_player q) (players g)) g) ;;
        let isLast :=
          currentQuestion g >=? Z.of_nat (List.length (questions g)) - 1 in
        g' <- get_game ;;
        sendToHost
          (msg_results (correct q) distribution (options q)
             (firstn 5 (getLeaderboard g')) isLast) ;;
        forEach
          (fun p =>
             send (ws p)
               (msg_result (correct q) (answer p) (lastPoints p) (score p)
                  isLast))
          (PMap.values (players g'))
    end.

(** The callback of the countdown [setInterval] of [startQuestion]. *)
Definition tick : M unit :=
  update_game (fun g => set_timeRemaining (timeRemaining g - 1) g) ;;
  g <- get_game ;;
  broadcast (msg_timer (timeRemaining g)) ;;
  if timeRemaining g <=? 0 then
    match timer g with Some h => clearInterval h | None => ret tt end ;;
    update_game (set_timer None) ;;
    revealAnswer
  else ret tt.

(** [handleHost(ws)] up to the registration of the listeners: what runs
    when a host connection is established. *)
Definition handleHost (c : conn) (csv : option (list csv_row)) (rnd : Z)
  : M unit :=
  g <- get_game ;;
  forEach (fun p => send (ws p) msg_host_disconnected)
    (PMap.values (players g)) ;;
  update_game (set_hostWs (Some c)) ;;
  resetGame csv rnd ;;
  g' <- get_game ;;
  send c (msg_lobby (pin g') (map name (PMap.values (players g')))).

(** The ['message'] listener of a host connection.  [csv] and [rnd] are
    what a [reset] would read and draw. *)
Definition host_message (c : conn) (msg : client_msg)
    (csv : option (list csv_row)) (rnd : Z) : M unit :=
  g <- get_game ;;
  match msg with
  | Start =>
      if phase_eqb (state g) lobby then
        if PMap.size (players g) =? 0 then
          send c (msg_error "Need at least 1 player")
        else startQuestion
      else ret tt
  | Next =>
      if phase_eqb (state g) reveal then startQuestion else ret tt
  | Reset =>
      resetGame csv rnd ;;
      g' <- get_game ;;
      send c (msg_lobby (pin g') [])
  | _ => ret tt
  end.

(** The ['close'] listener of a host connection. *)
Definition host_close (c : conn) : M unit :=
  g <- get_game ;;
  match hostWs g with
  | Some h =>
      if Nat.eqb h c then
        update_game (set_hostWs None) ;;
        forEach (fun p => send (ws p) msg_host_disconnected)
          (PMap.values (players g))
      else ret tt
  | None => ret tt
  end.

(** [String(pin) !== game.pin]; a [null] game pin differs from every
    string. *)
Definition pin_differs (v : JS.jsval) (p : option string) : bool :=
  match p with
  | Some s => negb (String.eqb (JS.toString v) s)
  | None => true
  end.

Definition name_taken (trimmedName : string) (m : player_map) : bool :=
  existsb
    (fun p => String.eqb (JS.toLowerCase (name p)) (JS.toLowerCase trimmedName))
    (PMap.values m).

(** The ['message'] listener of a player connection; [playerId] is the
    variable of the closure, and its value afterwards is returned. *)
Definition player_message (c : conn) (playerId : option nat)
    (msg : client_msg) : M (option nat) :=
  match msg with
  | Join vpin vname =>
      g <- get_game ;;
      if negb (JS.truthy vpin) || negb (JS.truthy vname) then
        send c (msg_error "PIN and name required") ;; ret playerId
      else if pin_differs vpin (pin g) then
        send c (msg_error "Invalid PIN") ;; ret playerId
      else if negb (phase_eqb (state g) lobby) then
        send c (msg_error "Game already in progress") ;; ret playerId
      else
        match vname with
        | JS.JStr s =>
            let trimmedName := JS.slice0 20 (JS.trim s) in
            if String.eqb trimmedName "" then
              send c (msg_error "Name cannot be empty") ;; ret playerId
            else if name_taken trimmedName (players g) then
              send c (msg_error "Name already taken") ;; ret playerId
            else
              id <- (fun w =>
                       Done (nextPlayerId w)
                         (set_nextPlayerId (S (nextPlayerId w)) w)) ;;
              update_game (fun g =>
                set_players
                  (PMap.set id
                     {| name := trimmedName; ws := c; score := 0;
                        answer := None; answerTime := None; lastPoints := 0 |}
                     (players g)) g) ;;
              send c (msg_joined trimmedName) ;;
              g' <- get_game ;;
              sendToHost
                (msg_player_joined trimmedName (PMap.size (players g'))
                   (map name (PMap.values (players g')))) ;;
              ret (Some id)
        | _ => throw
        end
  | Answer v =>
      g <- get_game ;;
      match playerId with
      | None => ret playerId
      | Some id =>
          if negb (phase_eqb (state g) question) then ret playerId
          else
            match PMap.get id (players g) with
            | None => ret playerId
            | Some p =>
                match answer p with
                | Some _ => ret playerId
                | None =>
                    match JS.parseInt v with
                    | None => ret playerId
                    | Some answerIndex =>
                        if answerIndex <? 1 then ret playerId
                        else
                          match current_question g with
                          | None => throw
                          | Some q =>
                              if answerIndex >?
                                 Z.of_nat (List.length (options q))
                              then ret playerId
                              else
                                update_game (fun g =>
                                  set_players
                                    (PMap.set id
                                       {| name := name p; ws := ws p;
                                          score := score p;
                                          answer := Some answerIndex;
                                          answerTime := Some (timeRemaining g);
                                          lastPoints := lastPoints p |}
                                       (players g)) g) ;;
                                update_game (fun g =>
                                  set_answerCount (answerCount g + 1) g) ;;
                                send c msg_answer_received ;;
                                g' <- get_game ;;
                                sendToHost
                                  (msg_answer_count (answerCount g')
                                     (PMap.size (players g'))) ;;
                                (if answerCount g' >=? PMap.size (players g')
                                 then revealAnswer else ret tt) ;;
                                ret playerId
                          end
                    end
                end
            end
      end
  | _ => ret playerId
  end.

(** The ['close'] listener of a player connection. *)
Definition player_close (playerId : option nat) : M unit :=
  g <- get_game ;;
  match playerId with
  | Some id =>
      if phase_eqb (state g) lobby then
        update_game (fun g => set_players (PMap.delete id (players g)) g) ;;
        match PMap.get id (players g) with
        | Some p =>
            g' <- get_game ;;
            sendToHost
              (msg_player_left (name p) (PMap.size (players g'))
                 (map name (PMap.values (players g'))))
        | None => ret tt
        end
      else ret tt
  | None => ret tt
  end.

(** The [fs.watch] callback on a ['change'] of [questions.csv]. *)
Definition csv_changed (csv : option (list csv_row)) : M unit :=
  match csv with
  | Some rows =>
      (fun w => Done tt (set_loaded (loadQuestions rows) w)) ;;
      g <- get_game ;;
      if phase_eqb (state g) idle || phase_eqb (state g) lobby then
        fun w => Done tt (with_game (set_questions (loaded w)) w)
      else ret tt
  | None => ret tt
  end.

(** *** Events of the reactor

    What the environment supplies comes with the event: the rows a
    reload reads ([None] when [loadQuestions] throws), the draw of
    [Math.random], and for a player socket the value its closure
    variable [playerId] holds.  The reactor below accepts every value of
    [playerId], which covers the values the closures really hold. *)

Inductive event : Type :=
  | HostConnect (c : conn) (csv : option (list csv_row)) (rnd : Z)
  | HostMessage (c : conn) (msg : client_msg)
      (csv : option (list csv_row)) (rnd : Z)
  | HostClose (c : conn)
  | PlayerMessage (c : conn) (playerId : option nat) (msg : client_msg)
  | PlayerClose (c : conn) (playerId : option nat)
  | Tick (h : nat)
  | CsvChange (csv : option (list csv_row)).

Definition forget {A : Type} (m : M A) : M unit := m ;; ret tt.

(** One reaction, run to completion.  A tick is delivered only for an
    interval that is still scheduled. *)
Definition react (e : event) : M unit :=
  match e with
  | HostConnect c csv rnd => handleHost c csv rnd
  | HostMessage c msg csv rnd => host_message c msg csv rnd
  | HostClose c => host_close c
  | PlayerMessage c pid msg => forget (player_message c pid msg)
  | PlayerClose _ pid => player_close pid
  | Tick h =>
      fun w => if existsb (Nat.eqb h) (intervals w) then tick w else Done tt w
  | CsvChange csv => csv_changed csv
  end.

End Server.

(** The worlds the server can be in: from start-up, after any number of
    reactions that did not throw (a throw ends the process). *)
Inductive reachable (qs : list quiz_question) : world -> Prop :=
  | reach_init : reachable qs (initial_world qs)
  | reach_step (rs : conn -> Z) (e : event) (w w' : world) :
      reachable qs w -> react rs e w = Done tt w' -> reachable qs w'.

(** ** Vocabulary of the specification *)

(** *** Messages handed to the sockets *)

(** What [send] hands to the socket [c]: the message when the socket is
    open, nothing otherwise. *)
Definition delivered (rs : conn -> Z) (c : conn) (m : server_msg)
  : list (conn * server_msg) :=
  if rs c =? 1 then [(c, m)] else [].

(** What a [forEach] of [send] over players hands out, in order. *)
Definition delivered_all (rs : conn -> Z) (f : player -> server_msg)
    (ps : list player) : list (conn * server_msg) :=
  flat_map (fun p => delivered rs (ws p) (f p)) ps.

Definition delivered_host (rs : conn -> Z) (g : game_state) (m : server_msg)
  : list (conn * server_msg) :=
  match hostWs g with Some h => delivered rs h m | None => [] end.

(** What [broadcast] hands out for the game [g]: to every player in
    join order, then to the host. *)
Definition broadcast_to (rs : conn -> Z) (g : game_state) (m : server_msg)
  : list (conn * server_msg) :=
  delivered_all rs (fun _ => m) (PMap.values (players g))
  ++ delivered_host rs g m.

(** The world after [l] has been handed to the sockets. *)
Definition emit (l : list (conn * server_msg)) (w : world) : world :=
  set_outbox (outbox w ++ l) w.


(** The distributions of the [results] messages sent so far. *)
Definition distributions_sent (w : world) : list (list (option Z)) :=
  flat_map
    (fun cm =>
       match snd cm with
       | msg_results _ d _ _ _ => [d]
       | _ => []
       end)
    (outbox w).

(** *** The worlds the handlers leave *)

(** The intervals left when the timer of the game is cleared. *)
Definition cleared (w : world) : list nat :=
  match timer (game w) with
  | Some h => filter (fun x => negb (Nat.eqb x h)) (intervals w)
  | None => intervals w
  end.

(** The game after the reveal of question [q]: every player scored,
    the phase [reveal], no timer. *)
Definition scored (q : quiz_question) (g : game_state) : game_state :=
  set_players (PMap.update_all (score_player q) (players g))
    (set_state reveal (set_timer None g)).

(** What a reveal of question [q] sends for the game [g] it found:
    the results to the host, then each player's result. *)
Definition reveal_messages (rs : conn -> Z) (q : quiz_question)
    (g : game_state) : list (conn * server_msg) :=
  let isLast :=
    currentQuestion g >=? Z.of_nat (List.length (questions g)) - 1 in
  delivered_host rs g
    (msg_results (correct q)
       (count_answers (repeat (Some 0) (List.length (options q)))
          (PMap.values (players g)))
       (options q) (firstn 5 (getLeaderboard (scored q g))) isLast)
  ++ delivered_all rs
       (fun p =>
          msg_result (correct q) (answer p) (lastPoints p) (score p) isLast)
       (PMap.values (players (scored q g))).

(** The game once the cursor has moved past the last question. *)
Definition ended (g : game_state) : game_state :=
  set_state leaderboard (set_currentQuestion (currentQuestion g + 1) g).

(** The game once the next question [q] has started under the
    interval [h]. *)
Definition asking (q : quiz_question) (h : nat) (g : game_state)
  : game_state :=
  set_timer (Some h)
    (set_players
       (PMap.update_all
          (fun p =>
             {| name := name p; ws := ws p; score := score p;
                answer := None; answerTime := None;
                lastPoints := lastPoints p |})
          (players g))
       (set_timeRemaining (timeLimit q)
          (set_answerCount 0
             (set_state question
                (set_currentQuestion (currentQuestion g + 1) g))))).

(** The questions in force after a reload attempt: the new ones, or
    the previous ones when the file could not be read. *)
Definition reloaded (csv : option (list csv_row)) (w : world)
  : list quiz_question :=
  match csv with Some rows => loadQuestions rows | None => loaded w end.

(** The game a reset leaves: only the host socket is kept. *)
Definition fresh_game (code : string) (qs : list quiz_question)
    (g : game_state) : game_state :=
  {| pin := Some code; state := lobby; players := []; questions := qs;
     currentQuestion := -1; timer := None; timeRemaining := 0;
     hostWs := hostWs g; answerCount := 0 |}.

(** The world a reset leaves. *)
Definition fresh_world (csv : option (list csv_row)) (rnd : Z) (w : world)
  : world :=
  with_game (fresh_game (JS.string_of_Z (draw_pin rnd)) (reloaded csv w))
    (set_loaded (reloaded csv w) (set_intervals (cleared w) w)).

(** The record a [join] creates. *)
Definition new_player (trimmedName : string) (c : conn) : player :=
  {| name := trimmedName; ws := c; score := 0; answer := None;
     answerTime := None; lastPoints := 0 |}.

(** The game after the [join] of [trimmedName] on socket [c] under the
    id [id]. *)
Definition joined (id : nat) (trimmedName : string) (c : conn)
    (g : game_state) : game_state :=
  set_players (PMap.set id (new_player trimmedName c) (players g)) g.

(** The player [p] with the answer [n] given at [remaining] seconds. *)
Definition with_answer (p : player) (n remaining : Z) : player :=
  {| name := name p; ws := ws p; score := score p; answer := Some n;
     answerTime := Some remaining; lastPoints := lastPoints p |}.

(** The conditions under which an [answer] message is taken: the phase,
    a joined sender without an answer, and an index that parses into the
    options of the current question. *)
Definition answer_acceptable (playerId : option nat) (v : JS.jsval)
    (g : game_state) : Prop :=
  state g = question /\
  exists id p n q,
    playerId = Some id /\
    PMap.get id (players g) = Some p /\
    answer p = None /\
    JS.parseInt v = Some n /\
    current_question g = Some q /\
    1 <= n <= Z.of_nat (List.length (options q)).

(** *** Rounding, ranges and digits *)

(** The integer nearest to the rational [n / d], a tie going up:
    the floor of [n / d + 1/2]. *)
Definition round_div (n d : Z) : Z := (2 * n + d) / (2 * d).

(** The integers from [lo], [n] of them. *)
Definition Z_range (lo n : Z) : list Z :=
  map (fun i => lo + Z.of_nat i) (seq 0 (Z.to_nat n)).

(** The binary64 time bonus agrees with exact rounding on every answer
    time [0..t] of the time limit [t]. *)
Definition bonus_exact_at (t : Z) : bool :=
  forallb (fun a => timeBonus (Some a) t =? round_div (1000 * a) t)
    (Z_range 0 (t + 1)).

Definition is_digit (c : ascii) : bool :=
  match JS.digit_of c with Some _ => true | None => false end.

(** A string of exactly four decimal digits. *)
Definition four_digits (s : string) : bool :=
  (String.length s =? 4)%nat && forallb is_digit (list_ascii_of_string s).

(** *** The ranking *)

(** The entry [a] is not below the entry [b]. *)
Definition ranks_above (a b : string * Z) : Prop := snd a >= snd b.

(** The name and score of each player, in join order. *)
Definition standings (g : game_state) : list (string * Z) :=
  map (fun p => (name p, score p)) (PMap.values (players g)).

Definition has_score (s : Z) (e : string * Z) : bool := snd e =? s.

(** *** The state machine and its invariants *)

(** The phase changes a reaction can make: the edges of the session
    state machine, each with the event that takes it. *)
Inductive transition : phase -> event -> phase -> Prop :=
  | stay (p : phase) (e : event) : transition p e p
  | on_connect (p : phase) c csv rnd :
      transition p (HostConnect c csv rnd) lobby
  | on_reset (p : phase) c csv rnd :
      transition p (HostMessage c Reset csv rnd) lobby
  | on_start c csv rnd :
      transition lobby (HostMessage c Start csv rnd) question
  | on_start_empty c csv rnd :
      transition lobby (HostMessage c Start csv rnd) leaderboard
  | on_next c csv rnd :
      transition reveal (HostMessage c Next csv rnd) question
  | on_next_end c csv rnd :
      transition reveal (HostMessage c Next csv rnd) leaderboard
  | on_all_answered c playerId v :
      transition question (PlayerMessage c playerId (Answer v)) reveal
  | on_time_up h :
      transition question (Tick h) reveal.

(** The events that reset the session. *)
Definition resets (e : event) : Prop :=
  match e with
  | HostConnect _ _ _ | HostMessage _ Reset _ _ => True
  | _ => False
  end.

(** A reaction that resets draws its random number as [Math.random]
    does. *)
Definition draws_in_range (e : event) : Prop :=
  match e with
  | HostConnect _ _ rnd | HostMessage _ _ _ rnd => 0 <= rnd < 2 ^ 53
  | _ => True
  end.

(** The state right after a reset: a four-digit join code of a number
    in [1000, 9999], no player, the cursor before the first question,
    phase [lobby], no answer counted, no timer and no interval left. *)
Definition fresh_lobby (w : world) : Prop :=
  (exists n,
     1000 <= n <= 9999 /\
     pin (game w) = Some (JS.string_of_Z n) /\
     four_digits (JS.string_of_Z n) = true /\
     JS.parseInt_string (JS.string_of_Z n) = Some n) /\
  players (game w) = [] /\
  currentQuestion (game w) = -1 /\
  state (game w) = lobby /\
  answerCount (game w) = 0 /\
  timer (game w) = None /\
  intervals w = [].

(** Every interval still scheduled is the timer of the game, and there
    is a timer only in phase [question]. *)
Definition timer_inv (w : world) : Prop :=
  intervals w = match timer (game w) with Some h => [h] | None => [] end /\
  (state (game w) <> question -> timer (game w) = None).

(** The cursor is at least [-1], and it points into the question bank
    while a question is asked or revealed. *)
Definition cursor_inv (w : world) : Prop :=
  -1 <= currentQuestion (game w) /\
  (state (game w) = question \/ state (game w) = reveal ->
   0 <= currentQuestion (game w)
     < Z.of_nat (List.length (questions (game w)))).

Definition inv (w : world) : Prop := timer_inv w /\ cursor_inv w.

(** While a question is asked: the question exists, the countdown has
    not passed its time limit and has not reached 0 when the limit is
    positive, and every recorded answer is an option of the question,
    given at a countdown value between the present one and the limit. *)
Definition answers_inv (w : world) : Prop :=
  state (game w) = question ->
  exists q,
    current_question (game w) = Some q /\
    timeRemaining (game w) <= timeLimit q /\
    (1 <= timeLimit q -> 1 <= timeRemaining (game w)) /\
    forall id p a,
      In (id, p) (players (game w)) -> answer p = Some a ->
      1 <= a <= Z.of_nat (List.length (options q)) /\
      exists r,
        answerTime p = Some r /\
        timeRemaining (game w) <= r <= timeLimit q.

(** *** Runs and sample sessions *)

(** A run of the reactor over a list of events, all sockets open. *)
Fixpoint run (es : list event) (w : world) : world :=
  match es with
  | [] => w
  | e :: es' =>
      match react (fun _ => 1) e w with
      | Done _ w' => run es' w'
      | Thrown w' => w'
      end
  end.

(** No reaction of the run throws. *)
Fixpoint runs (es : list event) (w : world) : bool :=
  match es with
  | [] => true
  | e :: es' =>
      match react (fun _ => 1) e w with
      | Done _ w' => runs es' w'
      | Thrown _ => false
      end
  end.

(** A session used in the examples: one question of four options
    and 20 seconds; host on socket 10; Ann and Bob on sockets 11, 12. *)
Definition demo_rows : list csv_row :=
  [ {| row_question := "2 + 2"; row_type := "mc";
       option1 := "3"; option2 := "4"; option3 := "5"; option4 := "6";
       row_correct := "2"; time_limit := "20" |} ].

Definition demo_lobby : world :=
  run [ HostConnect 10%nat (Some demo_rows) 0;
        PlayerMessage 11%nat None (Join (JS.JStr "1000") (JS.JStr "Ann"));
        PlayerMessage 12%nat None (Join (JS.JStr "1000") (JS.JStr "Bob")) ]
    (initial_world []).

Definition demo_question : world :=
  run [ HostMessage 10%nat Start None 0 ] demo_lobby.

(** The demo session when Ann has answered at once and Bob has not. *)
Definition demo_answered : world :=
  run [ PlayerMessage 11%nat (Some 1%nat) (Answer (JS.JNum 2)) ] demo_question.

Definition demo_reveal : world :=
  run [ PlayerMessage 11%nat (Some 1%nat) (Answer (JS.JNum 2));
        PlayerMessage 12%nat (Some 2%nat) (Answer (JS.JNum 3)) ] demo_question.

(** The demo session when both players are right, Ann at once and Bob
    three seconds later. *)
Definition demo_both_right : world :=
  run [ Tick 0%nat; Tick 0%nat; Tick 0%nat;
        PlayerMessage 12%nat (Some 2%nat) (Answer (JS.JStr "2")) ]
    demo_answered.

(** A session with a time limit of 400 seconds: Ann answers the
    right option when 201 seconds remain, Bob has not answered. *)
Definition slow_rows : list csv_row :=
  [ {| row_question := "2 + 2"; row_type := "mc";
       option1 := "3"; option2 := "4"; option3 := "5"; option4 := "6";
       row_correct := "2"; time_limit := "400" |} ].

Definition slow_answered : world :=
  run ([ HostConnect 10%nat (Some slow_rows) 0;
         PlayerMessage 11%nat None (Join (JS.JStr "1000") (JS.JStr "Ann"));
         PlayerMessage 12%nat None (Join (JS.JStr "1000") (JS.JStr "Bob"));
         HostMessage 10%nat Start None 0 ]
       ++ repeat (Tick 0%nat) 199
       ++ [ PlayerMessage 11%nat (Some 1%nat) (Answer (JS.JNum 2)) ])
    (initial_world []).

(** Players A, B, C joined in this order, with scores 300, 500, 500. *)
Definition demo_scores : game_state :=
  let mk n s :=
    {| name := n; ws := 0%nat; score := s; answer := None;
       answerTime := None; lastPoints := 0 |} in
  set_players [(1%nat, mk "A" 300); (2%nat, mk "B" 500); (3%nat, mk "C" 500)]
    (initial_game []).

(** ** The question file

    [parseCSVLine] and [parseCSV] of [server.js], on the text that
    [fs.readFileSync] returns. *)

Definition dquote : ascii := ascii_of_nat 34.

Definition newline : ascii := ascii_of_nat 10.

Definition carriage_return : ascii := ascii_of_nat 13.

(** The loop of [parseCSVLine] over the rest of the line, with its
    three variables. *)
Fixpoint parseCSVLine_loop (line : string) (result : list string)
    (current : string) (inQuotes : bool) : list string :=
  match line with
  | EmptyString => result ++ [current]
  | String ch line' =>
      if Ascii.eqb ch dquote then
        parseCSVLine_loop line' result current (negb inQuotes)
      else if Ascii.eqb ch "," && negb inQuotes then
        parseCSVLine_loop line' (result ++ [current]) "" inQuotes
      else
        parseCSVLine_loop line' result (current ++ String ch "") inQuotes
  end.

Definition parseCSVLine (line : string) : list string :=
  parseCSVLine_loop line [] "" false.

(** [s.split('\n')] *)
Fixpoint split_loop (s : string) (current : string) : list string :=
  match s with
  | EmptyString => [current]
  | String ch s' =>
      if Ascii.eqb ch newline then current :: split_loop s' ""
      else split_loop s' (current ++ String ch "")
  end.

Definition split_lines (s : string) : list string := split_loop s "".

(** The object a row becomes, made by [{}]: its own properties, in the
    order they were first assigned.  What it has besides is inherited
    from [Object.prototype]. *)
Definition js_object : Type := list (string * string).

(** The names that [Object.prototype] defines. *)
Definition prototype_names : list string :=
  ["constructor"; "__defineGetter__"; "__defineSetter__"; "hasOwnProperty";
   "__lookupGetter__"; "__lookupSetter__"; "isPrototypeOf";
   "propertyIsEnumerable"; "toString"; "valueOf"; "__proto__";
   "toLocaleString"].

(** The own property [k] of [obj]; [None] when there is none. *)
Fixpoint obj_get (k : string) (obj : js_object) : option string :=
  match obj with
  | [] => None
  | (k', v) :: obj' => if String.eqb k k' then Some v else obj_get k obj'
  end.

(** What [obj[k]] reads: the own property, or else what
    [Object.prototype] has under this name (a function, or the
    prototype itself), or else [undefined]. *)
Inductive js_read : Type :=
  | own (v : string)
  | inherited
  | undefined.

Definition obj_read (k : string) (obj : js_object) : js_read :=
  match obj_get k obj with
  | Some v => own v
  | None =>
      if existsb (String.eqb k) prototype_names then inherited else undefined
  end.

Fixpoint obj_put (k v : string) (obj : js_object) : js_object :=
  match obj with
  | [] => [(k, v)]
  | (k', v') :: obj' =>
      if String.eqb k k' then (k', v) :: obj' else (k', v') :: obj_put k v obj'
  end.

(** [obj[k] = v] for a string [v]: the own property is written or
    created; under the name [__proto__] the setter of
    [Object.prototype] runs, which does nothing with a string. *)
Definition obj_set (k v : string) (obj : js_object) : js_object :=
  if String.eqb k "__proto__" then obj else obj_put k v obj.

(** [headers.forEach((h, i) => obj[h.trim()] = (vals[i] || '').trim())]
    from index [i] on. *)
Fixpoint fill_object (headers : list string) (i : nat) (vals : list string)
    (obj : js_object) : js_object :=
  match headers with
  | [] => obj
  | h :: headers' =>
      fill_object headers' (S i) vals
        (obj_set (JS.trim h) (JS.trim (nth i vals "")) obj)
  end.

(** The callback of [lines.slice(1).map] in [parseCSV]. *)
Definition row_object (headers : list string) (line : string) : js_object :=
  fill_object headers 0 (parseCSVLine line) [].

Definition parseCSV (raw : string) : list js_object :=
  let lines := split_lines (JS.trim raw) in
  let headers := parseCSVLine (hd "" lines) in
  map (row_object headers) (tl lines).

(** The columns [loadQuestions] reads. *)
Definition columns : list string :=
  ["question"; "type"; "option1"; "option2"; "option3"; "option4";
   "correct"; "time_limit"].

(** The row object with the eight columns that [loadQuestions] reads;
    [None] when one of them is [undefined]. *)
Definition csv_row_of (obj : js_object) : option csv_row :=
  match obj_read "question" obj, obj_read "type" obj,
        obj_read "option1" obj, obj_read "option2" obj,
        obj_read "option3" obj, obj_read "option4" obj,
        obj_read "correct" obj, obj_read "time_limit" obj with
  | own q, own t, own o1, own o2, own o3, own o4, own c, own l =>
      Some {| row_question := q; row_type := t; option1 := o1; option2 := o2;
              option3 := o3; option4 := o4; row_correct := c;
              time_limit := l |}
  | _, _, _, _, _, _, _, _ => None
  end.

(** A field written between quotes. *)
Definition quoted (field : string) : string :=
  String dquote (field ++ String dquote "").

(** The string has no quote character. *)
Fixpoint quote_free (s : string) : bool :=
  match s with
  | EmptyString => true
  | String ch s' => negb (Ascii.eqb ch dquote) && quote_free s'
  end.

(** The string has no comma. *)
Fixpoint comma_free (s : string) : bool :=
  match s with
  | EmptyString => true
  | String ch s' => negb (Ascii.eqb ch ",") && comma_free s'
  end.

(** The sample file of the README, with Windows line ends. *)
Definition sample_csv : string :=
  "question,type,option1,option2,option3,option4,correct,time_limit"
  ++ String carriage_return (String newline "")
  ++ quoted "Largest of 1,000 and 999?" ++ ",mc,999," ++ quoted "1,000"
  ++ ",,,2,15"
  ++ String carriage_return (String newline "")
  ++ "Sky is blue,tf,True,False,,,1,"
  ++ String carriage_return (String newline "").

(** *** The players of a session *)

Definition answered (p : player) : bool :=
  match answer p with Some _ => true | None => false end.

(** The ids under which players are registered, in join order. *)
Definition ids (m : player_map) : list nat := map fst m.

(** The names of the players as the duplicate check compares them. *)
Definition lower_names (m : player_map) : list string :=
  map (fun kp => JS.toLowerCase (name (snd kp))) m.

(** The number of players with a recorded answer. *)
Definition answers_given (m : player_map) : Z :=
  Z.of_nat (List.length (filter (fun kp => answered (snd kp)) m)).

(** What the server keeps true of its players: ids are distinct and
    below [nextPlayerId]; names are distinct up to case, not empty and
    of at most 20 code units; [answerCount] is the number of recorded answers; nobody
    has an answer in the lobby; and there is a player whenever the game
    is running or over. *)
Definition session_inv (w : world) : Prop :=
  NoDup (ids (players (game w))) /\
  Forall (fun k => (k < nextPlayerId w)%nat) (ids (players (game w))) /\
  NoDup (lower_names (players (game w))) /\
  Forall
    (fun kp =>
       name (snd kp) <> "" /\ (JS.length (name (snd kp)) <= 20)%nat)
    (players (game w)) /\
  answerCount (game w) = answers_given (players (game w)) /\
  (state (game w) = lobby ->
   Forall (fun kp => answer (snd kp) = None) (players (game w))) /\
  (state (game w) = question \/ state (game w) = reveal \/
   state (game w) = leaderboard -> players (game w) <> []).

(** *** What a reaction leaves behind it *)

(** From [w] to [w'] the outbox got longer at its end, and only by
    messages for sockets that are open; the counters from which player
    ids and interval handles are taken did not go down. *)
Definition grows (rs : conn -> Z) (w w' : world) : Prop :=
  (exists l,
     outbox w' = (outbox w ++ l)%list /\
     Forall (fun cm => rs (fst cm) = 1) l) /\
  (nextPlayerId w <= nextPlayerId w')%nat /\
  (nextInterval w <= nextInterval w')%nat.

(** A computation that, whenever it returns, has grown the world. *)
Definition respects {A : Type} (rs : conn -> Z) (m : M A) : Prop :=
  forall w a w', m w = Done a w' -> grows rs w w'.

(** The countdown of question [q] under the interval [h] stands at [r]
    seconds. *)
Definition counting (h : nat) (q : quiz_question) (r : Z) (w : world)
  : Prop :=
  state (game w) = question /\
  timer (game w) = Some h /\
  In h (intervals w) /\
  current_question (game w) = Some q /\
  timeRemaining (game w) = r.

(** *** The distribution of the answers *)

(** The number of players whose answer is the option [k]. *)
Definition votes (k : Z) (ps : list player) : Z :=
  Z.of_nat
    (List.length
       (filter (fun p => match answer p with Some a => a =? k | None => false end)
          ps)).

(** The sum of the slots of a distribution. *)
Definition total (d : list (option Z)) : Z :=
  fold_right (fun x acc => match x with Some z => z + acc | None => acc end) 0 d.

(** Every recorded answer of [ps] is one of the options 1 to [n]. *)
Definition answers_within (n : nat) (ps : list player) : Prop :=
  Forall
    (fun p => forall a, answer p = Some a -> 1 <= a <= Z.of_nat n) ps.

(** In the lobby the cursor stands before the first question. *)
Definition lobby_inv (w : world) : Prop :=
  state (game w) = lobby -> currentQuestion (game w) = -1.

(** The [isLast] flags of the [results] and [result] messages in [l]. *)
Definition last_flags (l : list (conn * server_msg)) : list bool :=
  flat_map
    (fun cm =>
       match snd cm with
       | msg_results _ _ _ _ isLast => [isLast]
       | msg_result _ _ _ _ isLast => [isLast]
       | _ => []
       end) l.

(** * Properties *)

Lemma Z_range_In (lo n x : Z) :
  lo <= x < lo + n -> In x (Z_range lo n).
Proof.
  intros H. unfold Z_range. apply in_map_iff.
  exists (Z.to_nat (x - lo)). split; [lia|].
  apply in_seq. lia.
Qed.

(** ** Strings *)

Lemma byte_char (b : Z) : 0 <= b < 256 -> JS.byte (JS.char b) = b.
Proof.
  intros H. unfold JS.byte, JS.char.
  rewrite nat_ascii_embedding by lia. lia.
Qed.

Lemma byte_bounds (c : ascii) : 0 <= JS.byte c < 256.
Proof.
  unfold JS.byte. pose proof (nat_ascii_bounded c). lia.
Qed.

Lemma length_high_surrogate (s : string) :
  JS.length (JS.high_surrogate s) = 1%nat.
Proof.
  unfold JS.high_surrogate.
  set (x := (_ - 65536) / 1024 mod 1024).
  assert (Hx : 0 <= x < 1024) by (apply Z.mod_pos_bound; lia).
  unfold JS.encode.
  replace (55296 + x <? 128) with false by lia.
  replace (55296 + x <? 2048) with false by lia.
  replace (55296 + x <? 65536) with true by lia.
  cbn [JS.length]. unfold JS.units, JS.is_cont.
  replace ((55296 + x) / 4096) with 13 by (Z.div_mod_to_equations; lia).
  rewrite !byte_char by (Z.div_mod_to_equations; lia).
  replace (128 <=? 224 + 13) with true by reflexivity.
  replace (224 + 13 <=? 191) with false by reflexivity.
  replace (240 <=? 224 + 13) with false by reflexivity.
  replace (128 <=? 128 + (55296 + x) / 64 mod 64) with true
    by (Z.div_mod_to_equations; lia).
  replace (128 + (55296 + x) / 64 mod 64 <=? 191) with true
    by (Z.div_mod_to_equations; lia).
  replace (128 <=? 128 + (55296 + x) mod 64) with true
    by (Z.div_mod_to_equations; lia).
  replace (128 + (55296 + x) mod 64 <=? 191) with true
    by (Z.div_mod_to_equations; lia).
  reflexivity.
Qed.

Lemma units_le_2 (c : ascii) : (JS.units c <= 2)%nat.
Proof.
  unfold JS.units. destruct (JS.is_cont c); [lia|].
  destruct (240 <=? JS.byte c); lia.
Qed.

(** [slice(0, n)] has [n] code units, or all of them when there are
    fewer. *)
Lemma length_slice0 (n : nat) (s : string) :
  JS.length (JS.slice0 n s) = Nat.min n (JS.length s).
Proof.
  revert n. induction s as [|c s IH]; intros n; cbn [JS.slice0 JS.length].
  - lia.
  - pose proof (units_le_2 c) as H2.
    destruct (JS.is_cont c) eqn:Hc.
    + cbn [JS.length]. rewrite IH. unfold JS.units. rewrite Hc. lia.
    + destruct (JS.units c <=? n)%nat eqn:Hfit.
      * apply Nat.leb_le in Hfit. cbn [JS.length]. rewrite IH. lia.
      * apply Nat.leb_gt in Hfit.
        destruct (n =? 1)%nat eqn:H1.
        -- apply Nat.eqb_eq in H1. rewrite length_high_surrogate. lia.
        -- apply Nat.eqb_neq in H1. cbn [JS.length]. lia.
Qed.

(** A string of at most [n] code units is its own [slice(0, n)]. *)
Lemma slice0_short (n : nat) (s : string) :
  (JS.length s <= n)%nat -> JS.slice0 n s = s.
Proof.
  revert n. induction s as [|c s IH]; intros n H; cbn [JS.slice0 JS.length] in *.
  - reflexivity.
  - destruct (JS.is_cont c) eqn:Hc.
    + f_equal. apply IH. unfold JS.units in H. rewrite Hc in H. lia.
    + replace (JS.units c <=? n)%nat with true
        by (symmetry; apply Nat.leb_le; lia).
      f_equal. apply IH. lia.
Qed.


Lemma is_cont_cr : JS.is_cont carriage_return = false.
Proof. reflexivity. Qed.

(** A carriage return after a string does not change the character at
    the front of the string. *)
Lemma decode_cr (c : ascii) (s : string) :
  JS.decode (String c s ++ String carriage_return "")
  = JS.decode (String c s).
Proof.
  cbn [append JS.decode].
  destruct (JS.byte c <? 128); [reflexivity|].
  destruct s as [|c1 s]; cbn [append]; [now rewrite is_cont_cr|].
  destruct (negb (JS.is_cont c1)); [reflexivity|].
  destruct ((192 <=? JS.byte c) && (JS.byte c <? 224)); [reflexivity|].
  destruct s as [|c2 s]; cbn [append]; [now rewrite is_cont_cr|].
  destruct (negb (JS.is_cont c2)); [reflexivity|].
  destruct ((224 <=? JS.byte c) && (JS.byte c <? 240)); [reflexivity|].
  destruct s as [|c3 s]; cbn [append]; [now rewrite is_cont_cr|].
  reflexivity.
Qed.

Lemma drop_white_cr (s : string) :
  forall skip,
    JS.drop_white skip (s ++ String carriage_return "")
    = match JS.drop_white skip s with
      | EmptyString => EmptyString
      | t => t ++ String carriage_return ""
      end.
Proof.
  induction s as [|c s IH]; intros skip.
  - destruct skip; reflexivity.
  - change ((String c s ++ String carriage_return "")%string)
      with (String c (s ++ String carriage_return "")).
    cbn [JS.drop_white]. destruct skip as [|k]; [|apply IH].
    change (String c (s ++ String carriage_return ""))
      with ((String c s ++ String carriage_return "")%string).
    unfold JS.white_bytes. rewrite decode_cr.
    destruct (JS.decode (String c s)) as [cp n].
    destruct (if JS.is_white cp then n else 0%nat); [reflexivity|apply IH].
Qed.

Lemma blank_cr (s : string) :
  JS.blank (s ++ String carriage_return "") = JS.blank s.
Proof.
  unfold JS.blank, JS.trim_start. rewrite drop_white_cr.
  now destruct (JS.drop_white 0 s).
Qed.

Lemma trim_end_cr (s : string) :
  JS.trim_end (s ++ String carriage_return "") = JS.trim_end s.
Proof.
  induction s as [|ch s IH]; [reflexivity|].
  change ((String ch s ++ String carriage_return "")%string)
    with (String ch (s ++ String carriage_return "")).
  cbn [JS.trim_end].
  change (String ch (s ++ String carriage_return ""))
    with ((String ch s ++ String carriage_return "")%string).
  rewrite blank_cr, IH. reflexivity.
Qed.

Lemma trim_cr (s : string) :
  JS.trim (s ++ String carriage_return "") = JS.trim s.
Proof.
  unfold JS.trim, JS.trim_start. rewrite drop_white_cr.
  destruct (JS.drop_white 0 s) as [|c t]; [reflexivity|].
  apply trim_end_cr.
Qed.

Lemma encode_nonempty (cp : Z) : JS.encode cp <> "".
Proof.
  unfold JS.encode.
  destruct (cp <? 128); [discriminate|].
  destruct (cp <? 2048); [discriminate|].
  destruct (cp <? 65536); discriminate.
Qed.

(** Only the empty string is empty in lower case. *)
Lemma toLowerCase_empty (s : string) : JS.toLowerCase s = "" -> s = "".
Proof.
  destruct s as [|c s]; [reflexivity|].
  unfold JS.toLowerCase. cbn [JS.lower].
  destruct (JS.decode (String c s)) as [cp n].
  assert (Happ : forall a b : string, a <> "" -> (a ++ b)%string <> "").
  { intros [|x a] b Ha; [contradiction | discriminate]. }
  destruct (cp =? 931).
  - intros E. exfalso. revert E. apply Happ.
    destruct (_ && _); apply encode_nonempty.
  - destruct (cp =? 304); [discriminate|].
    destruct (JS.lower_of cp).
    + intros E. exfalso. revert E. apply Happ, encode_nonempty.
    + discriminate.
Qed.

(** ** Sending *)

Lemma emit_nil (w : world) : emit [] w = w.
Proof. destruct w. unfold emit, set_outbox. simpl. now rewrite app_nil_r. Qed.

Lemma emit_emit (l1 l2 : list (conn * server_msg)) (w : world) :
  emit l2 (emit l1 w) = emit (l1 ++ l2) w.
Proof. unfold emit, set_outbox. simpl. now rewrite app_assoc. Qed.

Lemma game_emit (l : list (conn * server_msg)) (w : world) :
  game (emit l w) = game w.
Proof. reflexivity. Qed.

Lemma emit_with_game (l : list (conn * server_msg))
    (f : game_state -> game_state) (w : world) :
  with_game f (emit l w) = emit l (with_game f w).
Proof. reflexivity. Qed.

Section Sending.

Variable rs : conn -> Z.

Lemma send_eq (c : conn) (m : server_msg) (w : world) :
  send rs c m w = Done tt (emit (delivered rs c m) w).
Proof.
  unfold send, delivered. destruct (rs c =? 1).
  - reflexivity.
  - now rewrite emit_nil.
Qed.

Lemma forEach_send_eq (f : player -> server_msg) (ps : list player) :
  forall w,
    forEach (fun p => send rs (ws p) (f p)) ps w
    = Done tt (emit (delivered_all rs f ps) w).
Proof.
  induction ps as [|p ps IH]; intros w; simpl.
  - unfold ret. now rewrite emit_nil.
  - unfold bind. rewrite send_eq, IH, emit_emit. reflexivity.
Qed.

Lemma sendToHost_eq (m : server_msg) (w : world) :
  sendToHost rs m w = Done tt (emit (delivered_host rs (game w) m) w).
Proof.
  unfold sendToHost, delivered_host, bind, get_game.
  destruct (hostWs (game w)).
  - apply send_eq.
  - unfold ret. now rewrite emit_nil.
Qed.

Lemma broadcast_eq (m : server_msg) (w : world) :
  broadcast rs m w
  = Done tt
      (emit (delivered_all rs (fun _ => m) (PMap.values (players (game w)))
             ++ delivered_host rs (game w) m) w).
Proof.
  unfold broadcast, bind, get_game.
  rewrite (forEach_send_eq (fun _ => m)), sendToHost_eq, emit_emit.
  reflexivity.
Qed.

End Sending.

Lemma phase_eqb_eq (a b : phase) : phase_eqb a b = true <-> a = b.
Proof. destruct a, b; simpl; split; congruence. Qed.

Lemma phase_eqb_neq (a b : phase) : phase_eqb a b = false <-> a <> b.
Proof. destruct a, b; simpl; split; congruence. Qed.

(** ** The reveal *)

Lemma revealAnswer_other_phase (rs : conn -> Z) (w : world) :
  state (game w) <> question -> revealAnswer rs w = Done tt w.
Proof.
  intros H. apply phase_eqb_neq in H.
  unfold revealAnswer, bind, get_game. now rewrite H.
Qed.

(** What [revealAnswer] does in phase [question]. *)
Lemma revealAnswer_eq (rs : conn -> Z) (w : world) (q : quiz_question) :
  state (game w) = question ->
  current_question (game w) = Some q ->
  revealAnswer rs w
  = Done tt
      (emit (reveal_messages rs q (game w))
         (with_game (scored q) (set_intervals (cleared w) w))).
Proof.
  intros Hst Hq.
  unfold revealAnswer, bind, get_game. rewrite Hst. simpl.
  unfold cleared, reveal_messages.
  destruct (timer (game w)) as [h|] eqn:Ht; simpl;
    unfold update_game, bind, clearInterval; simpl; rewrite Hq; simpl;
    rewrite sendToHost_eq; simpl;
    rewrite forEach_send_eq, emit_emit; simpl.
  - reflexivity.
  - unfold scored, with_game, set_players, set_state, set_timer, set_intervals,
      delivered_host; simpl.
    rewrite Ht. destruct w; reflexivity.
Qed.

(** ** The player map *)

Lemma get_set_same (k : nat) (p p0 : player) (m : player_map) :
  PMap.get k m = Some p0 -> PMap.get k (PMap.set k p m) = Some p.
Proof.
  induction m as [|[k' p'] m IH]; simpl; [discriminate|].
  destruct (Nat.eqb k k') eqn:E; simpl; rewrite E; auto.
Qed.

Lemma get_set_other (k k' : nat) (p : player) (m : player_map) :
  k <> k' -> PMap.get k (PMap.set k' p m) = PMap.get k m.
Proof.
  intros Hne. induction m as [|[k0 p0] m IH]; simpl.
  - apply Nat.eqb_neq in Hne. now rewrite Hne.
  - destruct (Nat.eqb k' k0) eqn:E; simpl.
    + apply Nat.eqb_eq in E. subst k0.
      apply Nat.eqb_neq in Hne. now rewrite Hne.
    + now rewrite IH.
Qed.

Lemma get_update_all (f : player -> player) (k : nat) (m : player_map) :
  PMap.get k (PMap.update_all f m) = option_map f (PMap.get k m).
Proof.
  induction m as [|[k' p'] m IH]; simpl; [reflexivity|].
  destruct (Nat.eqb k k'); auto.
Qed.

Lemma size_set_present (k : nat) (p p0 : player) (m : player_map) :
  PMap.get k m = Some p0 -> PMap.size (PMap.set k p m) = PMap.size m.
Proof.
  unfold PMap.size. intros H. f_equal.
  induction m as [|[k' p'] m IH]; simpl in *; [discriminate|].
  destruct (Nat.eqb k k'); simpl; auto.
Qed.

Lemma answer_score_player (q : quiz_question) (p : player) :
  answer (score_player q p) = answer p.
Proof.
  unfold score_player. destruct (answer p) as [a|] eqn:E; simpl; auto.
  destruct (answer_is a (correct q)); simpl; auto.
Qed.

Lemma answerTime_score_player (q : quiz_question) (p : player) :
  answerTime (score_player q p) = answerTime p.
Proof.
  unfold score_player. destruct (answer p) as [a|]; simpl; auto.
  destruct (answer_is a (correct q)); simpl; auto.
Qed.

(** ** Disconnection of a player *)

(** C8: the ['close'] listener of a player connection deletes the
    player exactly when the phase is [lobby]; in every other phase it
    leaves the world as it found it (the player record with its score and
    answer, and everything else), and sends nothing. *)
Theorem player_close_only_in_lobby (rs : conn -> Z) (playerId : option nat)
    (w : world) :
  (state (game w) <> lobby -> player_close rs playerId w = Done tt w) /\
  (forall id, playerId = Some id -> state (game w) = lobby ->
     exists w',
       player_close rs playerId w = Done tt w' /\
       players (game w') = PMap.delete id (players (game w)) /\
       state (game w') = lobby).
Proof.
  split.
  - intros H. apply phase_eqb_neq in H.
    unfold player_close, bind, get_game. rewrite H.
    now destruct playerId.
  - intros id -> H.
    unfold player_close, bind, get_game. rewrite H. simpl.
    unfold update_game.
    destruct (PMap.get id (players (game w))) as [p|].
    + rewrite sendToHost_eq. eexists; split; [reflexivity|].
      simpl. now rewrite H.
    + eexists; split; [reflexivity|]. simpl. now rewrite H.
Qed.

Lemma player_close_witness :
  player_close (fun _ => 1) (Some 1%nat) demo_question = Done tt demo_question /\
  PMap.get 1 (players (game demo_question)) <> None.
Proof.
  split.
  - apply (proj1 (player_close_only_in_lobby (fun _ => 1) (Some 1%nat)
                    demo_question)).
    vm_compute. discriminate.
  - vm_compute. discriminate.
Defined.

(** ** Acceptance of an answer *)

(** What the ['message'] listener does with an acceptable answer: the
    answer and the countdown value are recorded, the count goes up by
    one, and the only further change to the players is the scoring of a
    reveal, which keeps answers and answer times. *)
Lemma answer_accepted (rs : conn -> Z) (c : conn) (v : JS.jsval) (w : world)
    (id : nat) (p : player) (n : Z) (q : quiz_question) :
  state (game w) = question ->
  PMap.get id (players (game w)) = Some p ->
  answer p = None ->
  JS.parseInt v = Some n ->
  current_question (game w) = Some q ->
  1 <= n <= Z.of_nat (List.length (options q)) ->
  exists w' f,
    player_message rs c (Some id) (Answer v) w = Done (Some id) w' /\
    answerCount (game w') = answerCount (game w) + 1 /\
    (forall x, answer (f x) = answer x /\ answerTime (f x) = answerTime x) /\
    (forall k,
       PMap.get k (players (game w'))
       = option_map f
           (PMap.get k
              (PMap.set id (with_answer p n (timeRemaining (game w)))
                 (players (game w))))).
Proof.
  intros Hst Hget Hans Hparse Hq Hn.
  unfold player_message, bind, get_game.
  rewrite Hst, Hget, Hans, Hparse, Hq. simpl.
  replace (n <? 1) with false by lia.
  replace (n >? Z.of_nat (List.length (options q))) with false by lia.
  unfold update_game. rewrite send_eq, sendToHost_eq. simpl.
  fold (with_answer p n (timeRemaining (game w))).
  set (p1 := with_answer p n (timeRemaining (game w))).
  destruct (answerCount (game w) + 1 >=? PMap.size (PMap.set id p1 (players (game w)))).
  - erewrite revealAnswer_eq; [| simpl; exact Hst | simpl; exact Hq].
    do 2 eexists. split; [reflexivity|]. simpl.
    split; [reflexivity|]. split.
    + intros x. split;
        [apply (answer_score_player q) | apply (answerTime_score_player q)].
    + intros k. apply get_update_all.
  - eexists. exists (fun x => x).
    split; [reflexivity|]. simpl.
    split; [reflexivity|]. split; [now split|].
    intros k. now destruct (PMap.get k _).
Qed.

Lemma answer_rejected (rs : conn -> Z) (c : conn) (playerId : option nat)
    (v : JS.jsval) (w : world) :
  ~ answer_acceptable playerId v (game w) ->
  final (player_message rs c playerId (Answer v) w) = w.
Proof.
  intros Hno.
  unfold player_message, bind, get_game.
  destruct playerId as [id|]; [|reflexivity].
  destruct (phase_eqb (state (game w)) question) eqn:Hst; [|reflexivity].
  apply phase_eqb_eq in Hst. simpl.
  destruct (PMap.get id (players (game w))) as [p|] eqn:Hget; [|reflexivity].
  destruct (answer p) as [a|] eqn:Hans; [reflexivity|].
  destruct (JS.parseInt v) as [n|] eqn:Hparse; [|reflexivity].
  destruct (n <? 1) eqn:Hlo; [reflexivity|].
  destruct (current_question (game w)) as [q|] eqn:Hq; [|reflexivity].
  destruct (n >? Z.of_nat (List.length (options q))) eqn:Hhi; [reflexivity|].
  exfalso. apply Hno. split; [exact Hst|].
  exists id, p, n, q. repeat split; auto; lia.
Qed.

(** C3: an [answer] message changes the world only when the phase is
    [question], the sender is a joined player without an answer, and the
    index parses to an integer within [1, len(options)] of the current
    question: otherwise the world is left as it was (for an index that
    is a string, or a number among the safe integers, where [parseInt]
    is what JavaScript computes); when it is taken, the answer and the
    countdown value are recorded and the answer count goes up by one;
    and an answer that a player already has is still that player's
    answer after any [answer] message. *)
Theorem answer_message_guarded (rs : conn -> Z) (c : conn)
    (playerId : option nat) (v : JS.jsval) (w : world) :
  (JS.plain v ->
   ~ answer_acceptable playerId v (game w) ->
   final (player_message rs c playerId (Answer v) w) = w) /\
  (forall id p n q,
     state (game w) = question ->
     playerId = Some id ->
     PMap.get id (players (game w)) = Some p ->
     answer p = None ->
     JS.parseInt v = Some n ->
     current_question (game w) = Some q ->
     1 <= n <= Z.of_nat (List.length (options q)) ->
     exists w' p',
       player_message rs c playerId (Answer v) w = Done playerId w' /\
       PMap.get id (players (game w')) = Some p' /\
       answer p' = Some n /\
       answerTime p' = Some (timeRemaining (game w)) /\
       answerCount (game w') = answerCount (game w) + 1) /\
  (forall id p a,
     PMap.get id (players (game w)) = Some p ->
     answer p = Some a ->
     exists p',
       PMap.get id
         (players (game (final (player_message rs c playerId (Answer v) w))))
       = Some p' /\
       answer p' = Some a).
Proof.
  split; [intros _; apply answer_rejected|]. split.
  - intros id p n q Hst -> Hget Hans Hparse Hq Hn.
    destruct (answer_accepted rs c v w id p n q Hst Hget Hans Hparse Hq Hn)
      as (w' & f & Hrun & Hcount & Hf & Hplayers).
    exists w', (f (with_answer p n (timeRemaining (game w)))).
    split; [exact Hrun|]. split.
    + rewrite Hplayers, (get_set_same id _ p); auto.
    + destruct (Hf (with_answer p n (timeRemaining (game w)))) as [-> ->].
      auto.
  - intros id p a Hget Hans.
    assert (Hdec : answer_acceptable playerId v (game w) \/
                   final (player_message rs c playerId (Answer v) w) = w).
    { unfold player_message, bind, get_game.
      destruct playerId as [id0|]; [|now right].
      destruct (phase_eqb (state (game w)) question) eqn:Hst; [|now right].
      apply phase_eqb_eq in Hst. simpl.
      destruct (PMap.get id0 (players (game w))) as [p0|] eqn:Hget0;
        [|now right].
      destruct (answer p0) as [a0|] eqn:Hans0; [now right|].
      destruct (JS.parseInt v) as [n|] eqn:Hparse; [|now right].
      destruct (n <? 1) eqn:Hlo; [now right|].
      destruct (current_question (game w)) as [q|] eqn:Hq; [|now right].
      destruct (n >? Z.of_nat (List.length (options q))) eqn:Hhi;
        [now right|].
      left. split; [exact Hst|].
      exists id0, p0, n, q. repeat split; auto; lia. }
    destruct Hdec as [(Hst & id0 & p0 & n & q & -> & Hget0 & Hans0 & Hparse & Hq & Hn) | ->].
    + destruct (answer_accepted rs c v w id0 p0 n q Hst Hget0 Hans0 Hparse Hq Hn)
        as (w' & f & Hrun & _ & Hf & Hplayers).
      rewrite Hrun. simpl. exists (f p). split.
      * rewrite Hplayers, get_set_other, Hget; [reflexivity|].
        intros ->. congruence.
      * destruct (Hf p) as [-> _]. exact Hans.
    + exists p. auto.
Qed.

Lemma answer_message_witness :
  final (player_message (fun _ => 1) 11%nat (Some 1%nat) (Answer (JS.JNum 9))
           demo_question) = demo_question /\
  (exists w' p',
     player_message (fun _ => 1) 11%nat (Some 1%nat) (Answer (JS.JNum 2))
       demo_question = Done (Some 1%nat) w' /\
     PMap.get 1 (players (game w')) = Some p' /\
     answer p' = Some 2 /\
     answerTime p' = Some (timeRemaining (game demo_question)) /\
     answerCount (game w') = answerCount (game demo_question) + 1).
Proof.
  split.
  - apply (proj1 (answer_message_guarded (fun _ => 1) 11%nat (Some 1%nat)
                    (JS.JNum 9) demo_question)); [reflexivity|].
    intros (_ & id & p & n & q & _ & _ & _ & Hparse & Hq & Hn).
    vm_compute in Hparse. vm_compute in Hq.
    injection Hparse as <-. injection Hq as <-. vm_compute in Hn.
    destruct Hn as [_ Hn]. now apply Hn.
  - eapply (proj1 (proj2 (answer_message_guarded (fun _ => 1) 11%nat
                            (Some 1%nat) (JS.JNum 2) demo_question)));
      try (vm_compute; reflexivity).
    vm_compute. split; discriminate.
Defined.

(** ** Validation failures *)





(** ** The leaderboard *)

Section Sorting.

Lemma sort_insert_perm (x : string * Z) (l : list (string * Z)) :
  Permutation (sort_insert by_score x l) (x :: l).
Proof.
  induction l as [|y l IH]; simpl; [constructor; constructor|].
  destruct (by_score x y <=? 0); [reflexivity|].
  rewrite IH. apply perm_swap.
Qed.

Lemma js_sort_perm (l : list (string * Z)) :
  Permutation (js_sort by_score l) l.
Proof.
  induction l as [|x l IH]; simpl; [constructor|].
  rewrite sort_insert_perm. now constructor.
Qed.

Lemma sort_insert_hd (a x : string * Z) (l : list (string * Z)) :
  HdRel ranks_above a l -> ranks_above a x ->
  HdRel ranks_above a (sort_insert by_score x l).
Proof.
  intros Hl Hx. destruct l as [|y l]; simpl; [now constructor|].
  destruct (by_score x y <=? 0); constructor; auto.
  now inversion Hl.
Qed.

Lemma sort_insert_sorted (x : string * Z) (l : list (string * Z)) :
  Sorted ranks_above l -> Sorted ranks_above (sort_insert by_score x l).
Proof.
  induction 1 as [|y l Hs IH Hhd]; simpl.
  - repeat constructor.
  - destruct (by_score x y <=? 0) eqn:E.
    + constructor; [now constructor|]. constructor.
      unfold ranks_above, by_score in *. lia.
    + constructor; [exact IH|]. apply sort_insert_hd; [exact Hhd|].
      unfold ranks_above, by_score in *. lia.
Qed.

Lemma js_sort_sorted (l : list (string * Z)) :
  Sorted ranks_above (js_sort by_score l).
Proof.
  induction l as [|x l IH]; simpl; [constructor|].
  now apply sort_insert_sorted.
Qed.

(** An inserted element only passes elements of a higher score, so
    within each score the order is kept. *)
Lemma sort_insert_filter (s : Z) (x : string * Z) (l : list (string * Z)) :
  filter (has_score s) (sort_insert by_score x l)
  = filter (has_score s) (x :: l).
Proof.
  induction l as [|y l IH]; [reflexivity|].
  cbn [sort_insert]. destruct (by_score x y <=? 0) eqn:E; [reflexivity|].
  cbn [filter] in *. rewrite IH.
  unfold has_score, by_score in *.
  destruct (snd y =? s) eqn:Ey, (snd x =? s) eqn:Ex; try reflexivity.
  lia.
Qed.

Lemma js_sort_stable (s : Z) (l : list (string * Z)) :
  filter (has_score s) (js_sort by_score l) = filter (has_score s) l.
Proof.
  induction l as [|x l IH]; [reflexivity|].
  cbn [js_sort fold_right]. rewrite sort_insert_filter.
  cbn [filter]. unfold js_sort in IH. now rewrite IH.
Qed.

End Sorting.

(** C5: the leaderboard holds every player once, in descending order
    of score, and the players of one score stand in join order; with
    A 300, B 500, C 500 joined in this order it is B, C, A. *)
Theorem getLeaderboard_sorted_stable (g : game_state) :
  Permutation (getLeaderboard g) (standings g) /\
  StronglySorted ranks_above (getLeaderboard g) /\
  (forall s,
     filter (has_score s) (getLeaderboard g)
     = filter (has_score s) (standings g)) /\
  getLeaderboard demo_scores = [("B", 500); ("C", 500); ("A", 300)].
Proof.
  repeat split.
  - apply js_sort_perm.
  - apply Sorted_StronglySorted; [|apply js_sort_sorted].
    intros a b c. unfold ranks_above. lia.
  - intros s. apply js_sort_stable.
Qed.

(** ** The question cycle *)

Lemma startQuestion_past_end (rs : conn -> Z) (w : world) :
  currentQuestion (game w) + 1 >= Z.of_nat (List.length (questions (game w))) ->
  startQuestion rs w
  = Done tt
      (emit
         (broadcast_to rs (game w) (msg_leaderboard (getLeaderboard (game w))))
         (with_game ended w)).
Proof.
  intros H. unfold startQuestion, bind, update_game, get_game. simpl.
  replace (currentQuestion (game w) + 1
           >=? Z.of_nat (List.length (questions (game w)))) with true by lia.
  unfold endGame, bind, update_game, get_game. simpl.
  rewrite broadcast_eq. reflexivity.
Qed.

Lemma values_update_all (f : player -> player) (m : player_map) :
  PMap.values (PMap.update_all f m) = map f (PMap.values m).
Proof.
  unfold PMap.values, PMap.update_all. rewrite !map_map. reflexivity.
Qed.

Lemma delivered_all_same_sockets (rs : conn -> Z) (m : server_msg)
    (f : player -> player) (pm : player_map) :
  (forall p, ws (f p) = ws p) ->
  delivered_all rs (fun _ => m) (PMap.values (PMap.update_all f pm))
  = delivered_all rs (fun _ => m) (PMap.values pm).
Proof.
  intros Hf. rewrite values_update_all. unfold delivered_all.
  induction (PMap.values pm) as [|p l IH]; simpl; [reflexivity|].
  now rewrite Hf, IH.
Qed.

Lemma startQuestion_next (rs : conn -> Z) (w : world) (q : quiz_question) :
  currentQuestion (game w) + 1 < Z.of_nat (List.length (questions (game w))) ->
  current_question (set_currentQuestion (currentQuestion (game w) + 1) (game w))
  = Some q ->
  startQuestion rs w
  = Done tt
      (emit
         (broadcast_to rs (game w)
            (msg_question (currentQuestion (game w) + 1)
               (Z.of_nat (List.length (questions (game w))))
               (q_question q) (q_type q) (options q) (timeLimit q)))
         (with_game (asking q (nextInterval w))
            (set_nextInterval (S (nextInterval w))
               (set_intervals (intervals w ++ [nextInterval w]) w)))).
Proof.
  intros H Hq. unfold startQuestion, bind, update_game, get_game. simpl.
  replace (currentQuestion (game w) + 1
           >=? Z.of_nat (List.length (questions (game w)))) with false by lia.
  simpl. rewrite Hq. simpl. rewrite broadcast_eq. simpl.
  rewrite delivered_all_same_sockets by reflexivity. reflexivity.
Qed.

(** ** Reset *)

Lemma resetGame_eq (csv : option (list csv_row)) (rnd : Z) (w : world) :
  resetGame csv rnd w = Done tt (fresh_world csv rnd w).
Proof.
  unfold resetGame, bind, get_game, update_game, fresh_world, cleared, reloaded.
  destruct (timer (game w)); destruct csv; reflexivity.
Qed.

(** ** Rounding to a double *)

(** What [round53] does to an integer of more than 53 bits: with
    [k] the number of bits to drop and [d = 2^k], the result is a
    multiple [q' * d] where [q'] is the quotient [n / d] or the next
    integer, between [2^52] and [2^53]. *)
Lemma round53_long (n : Z) :
  0 < Z.log2 n - 52 ->
  let d := 2 ^ (Z.log2 n - 52) in
  0 < d /\ 2 ^ 52 * d <= n < 2 ^ 53 * d /\
  exists q',
    JS.round53 n = q' * d /\ n / d <= q' <= n / d + 1 /\
    2 ^ 52 <= q' <= 2 ^ 53 /\
    (q' = n / d + 1 -> d <= 2 * (n mod d)) /\
    (q' = n / d -> 2 * (n mod d) <= d) /\
    (2 * (n mod d) = d -> Z.even q' = true).
Proof.
  intros Hk d.
  assert (Hn : 0 < n).
  { destruct (Z.lt_ge_cases 0 n) as [H|H]; [exact H|].
    rewrite Z.log2_nonpos in Hk by exact H. lia. }
  assert (Hd : 0 < d) by (apply Z.pow_pos_nonneg; lia).
  destruct (Z.log2_spec n Hn) as [Hlo Hhi].
  assert (E1 : 2 ^ Z.log2 n = 2 ^ 52 * d).
  { unfold d. rewrite <- Z.pow_add_r by lia. f_equal. lia. }
  assert (E2 : 2 ^ Z.succ (Z.log2 n) = 2 ^ 53 * d).
  { unfold d. rewrite <- Z.pow_add_r by lia. f_equal. lia. }
  rewrite E1 in Hlo. rewrite E2 in Hhi.
  split; [exact Hd|]. split; [lia|].
  pose proof (Z.div_mod n d ltac:(lia)) as Hdm.
  pose proof (Z.mod_pos_bound n d Hd) as Hr.
  assert (Hq : 2 ^ 52 <= n / d <= 2 ^ 53 - 1).
  { split.
    - apply Z.div_le_lower_bound; lia.
    - apply Z.lt_le_pred. apply Z.div_lt_upper_bound; lia. }
  unfold JS.round53. fold d.
  replace (Z.log2 n - 52 <=? 0) with false by lia.
  cbv zeta.
  destruct (2 * (n mod d) <? d) eqn:C1.
  - exists (n / d). repeat split; try lia.
  - destruct (d <? 2 * (n mod d)) eqn:C2.
    + exists (n / d + 1). repeat split; try lia.
    + destruct (Z.even (n / d)) eqn:C3.
      * exists (n / d). repeat split; try lia. intros _. exact C3.
      * exists (n / d + 1). repeat split; try lia. intros _.
        rewrite Z.even_add, C3. reflexivity.
Qed.

Lemma round53_short (n : Z) : Z.log2 n - 52 <= 0 -> JS.round53 n = n.
Proof.
  intros H. unfold JS.round53. now replace (Z.log2 n - 52 <=? 0) with true by lia.
Qed.

(** An integer of 53 significant bits is a double. *)
Lemma round53_exact (q k : Z) :
  0 <= k -> 0 <= q < 2 ^ 53 -> JS.round53 (q * 2 ^ k) = q * 2 ^ k.
Proof.
  intros Hk Hq.
  destruct (Z.le_gt_cases (Z.log2 (q * 2 ^ k) - 52) 0) as [H|H];
    [now apply round53_short|].
  destruct (round53_long (q * 2 ^ k) H)
    as (Hd & Hn & q' & -> & Hq1 & Hq2 & Hup & Hdown & _).
  set (j := Z.log2 (q * 2 ^ k) - 52) in *.
  assert (Hj : j <= k).
  { destruct (Z.le_gt_cases j k) as [L|L]; [exact L|exfalso].
    assert (E : 2 ^ j = 2 ^ k * 2 ^ (j - k)).
    { rewrite <- Z.pow_add_r by lia. f_equal. lia. }
    assert (P1 : 0 < 2 ^ k) by (apply Z.pow_pos_nonneg; lia).
    assert (P2 : 2 ^ 1 <= 2 ^ (j - k)) by (apply Z.pow_le_mono_r; lia).
    change (2 ^ 1) with 2 in P2.
    rewrite E in Hn. destruct Hn as [Hn _].
    assert (2 ^ 53 * 2 ^ k <= 2 ^ 52 * (2 ^ k * 2 ^ (j - k))) by nia.
    nia. }
  assert (E : 2 ^ k = 2 ^ (k - j) * 2 ^ j).
  { rewrite <- Z.pow_add_r by lia. f_equal. lia. }
  assert (Hm : (q * 2 ^ k) mod 2 ^ j = 0).
  { rewrite E, Z.mul_assoc. apply Z.mod_mul. lia. }
  assert (Hdiv : q * 2 ^ k / 2 ^ j = q * 2 ^ (k - j)).
  { rewrite E, Z.mul_assoc. apply Z.div_mul. lia. }
  rewrite Hm in Hup. rewrite Hdiv in *.
  assert (q' = q * 2 ^ (k - j)) by lia. subst q'.
  rewrite E. ring.
Qed.

(** Rounding keeps the order. *)
Lemma round53_mono (a b : Z) : 0 <= a <= b -> JS.round53 a <= JS.round53 b.
Proof.
  intros [Ha Hab].
  pose proof (Z.log2_le_mono a b Hab) as Hlog.
  destruct (Z.le_gt_cases (Z.log2 b - 52) 0) as [Hb|Hb].
  - rewrite !round53_short by lia. exact Hab.
  - destruct (round53_long b Hb)
      as (Hdb & Hnb & qb & -> & Hqb1 & Hqb2 & Hupb & Hdownb & Hevb).
    destruct (Z.le_gt_cases (Z.log2 a - 52) 0) as [Hka|Hka].
    + rewrite round53_short by exact Hka.
      assert (a < 2 ^ 53).
      { destruct (Z.eq_dec a 0) as [->|Hnz]; [reflexivity|].
        destruct (Z.log2_spec a ltac:(lia)) as [_ Hhi].
        eapply Z.lt_le_trans; [exact Hhi|].
        apply Z.pow_le_mono_r; lia. }
      assert (2 ^ 1 <= 2 ^ (Z.log2 b - 52)) by (apply Z.pow_le_mono_r; lia).
      change (2 ^ 1) with 2 in *. nia.
    + destruct (round53_long a Hka)
        as (Hda & Hna & qa & -> & Hqa1 & Hqa2 & Hupa & Hdowna & Heva).
      set (ka := Z.log2 a - 52) in *. set (kb := Z.log2 b - 52) in *.
      destruct (Z.eq_dec ka kb) as [E|E].
      * rewrite E in *. set (d := 2 ^ kb) in *.
        apply Z.mul_le_mono_nonneg_r; [lia|].
        pose proof (Z.div_le_mono a b d Hdb Hab) as Hq.
        destruct (Z.eq_dec (a / d) (b / d)) as [Eq|Nq]; [|lia].
        pose proof (Z.div_mod a d ltac:(lia)) as Hda'.
        pose proof (Z.div_mod b d ltac:(lia)) as Hdb'.
        assert (Hr : a mod d <= b mod d) by (rewrite Eq in Hda'; nia).
        destruct (Z.eq_dec qa (a / d)) as [Ea|Na]; [lia|].
        assert (Ea : qa = a / d + 1) by lia.
        specialize (Hupa Ea).
        destruct (Z.eq_dec qb (b / d + 1)) as [Eb|Nb]; [lia|].
        assert (Eb : qb = b / d) by lia.
        specialize (Hdownb Eb).
        assert (Ra : 2 * (a mod d) = d) by lia.
        assert (Rb : 2 * (b mod d) = d) by lia.
        specialize (Heva Ra). specialize (Hevb Rb).
        rewrite Ea, Z.even_add in Heva. rewrite Eb, <- Eq in Hevb.
        rewrite Hevb in Heva. discriminate.
      * assert (L : ka + 1 <= kb) by (unfold ka, kb in *; lia).
        assert (P : 2 ^ (ka + 1) <= 2 ^ kb) by (apply Z.pow_le_mono_r; lia).
        rewrite Z.pow_add_r in P by lia. change (2 ^ 1) with 2 in P.
        nia.
Qed.

Lemma round53_zero : JS.round53 0 = 0.
Proof. reflexivity. Qed.

(** The draw is one of the codes 1000 to 9999, and it grows with the
    random number. *)
Lemma draw_pin_range (rnd : Z) :
  0 <= rnd < 2 ^ 53 -> 1000 <= draw_pin rnd <= 9999.
Proof.
  intros H. unfold draw_pin.
  assert (P0 : 0 <= JS.round53 (rnd * 9000)).
  { rewrite <- round53_zero. apply round53_mono. lia. }
  assert (P1 : JS.round53 (rnd * 9000) <= JS.round53 ((2 ^ 53 - 1) * 9000))
    by (apply round53_mono; lia).
  assert (S0 : JS.round53 (1000 * 2 ^ 53)
               <= JS.round53 (1000 * 2 ^ 53 + JS.round53 (rnd * 9000)))
    by (apply round53_mono; lia).
  assert (S1 : JS.round53 (1000 * 2 ^ 53 + JS.round53 (rnd * 9000))
               <= JS.round53
                    (1000 * 2 ^ 53 + JS.round53 ((2 ^ 53 - 1) * 9000))).
  { apply round53_mono. lia. }
  split.
  - apply Z.div_le_lower_bound; [lia|].
    etransitivity; [|exact S0]. vm_compute. discriminate.
  - apply Z.lt_succ_r. apply Z.div_lt_upper_bound; [lia|].
    eapply Z.le_lt_trans; [exact S1|]. vm_compute. reflexivity.
Qed.

Lemma draw_pin_mono (r1 r2 : Z) :
  0 <= r1 <= r2 -> draw_pin r1 <= draw_pin r2.
Proof.
  intros H. unfold draw_pin. apply Z.div_le_mono; [lia|].
  apply round53_mono. split.
  - assert (0 <= JS.round53 (r1 * 9000))
      by (rewrite <- round53_zero; apply round53_mono; lia).
    lia.
  - apply Z.add_le_mono_l. apply round53_mono. lia.
Qed.

Lemma is_digit_digit_char (d : Z) :
  0 <= d <= 9 ->
  is_digit (JS.digit_char d) = true /\
  JS.digit_of (JS.digit_char d) = Some d /\
  (forall s,
     JS.trim_start (String (JS.digit_char d) s) = String (JS.digit_char d) s).
Proof.
  intros H.
  assert (Hd : d = 0 \/ d = 1 \/ d = 2 \/ d = 3 \/ d = 4 \/ d = 5 \/ d = 6 \/
               d = 7 \/ d = 8 \/ d = 9) by lia.
  repeat (destruct Hd as [-> | Hd]; [repeat split; reflexivity|]).
  subst. repeat split; reflexivity.
Qed.

(** The decimal string of a number of four digits. *)
Ltac div_lia := Z.div_mod_to_equations; lia.

Lemma string_of_Z_four (n : Z) :
  1000 <= n <= 9999 ->
  JS.string_of_Z n
  = String (JS.digit_char (n / 1000))
      (String (JS.digit_char (n / 100 mod 10))
         (String (JS.digit_char (n / 10 mod 10))
            (String (JS.digit_char (n mod 10)) ""))).
Proof.
  intros H. unfold JS.string_of_Z.
  replace (n <? 0) with false by lia.
  assert (Hlog : 9 <= Z.log2 n).
  { change 9 with (Z.log2 1000). apply Z.log2_le_mono. lia. }
  destruct (Z.to_nat (Z.log2 n)) as [|[|[|f]]] eqn:Hf; try lia.
  cbn [JS.decimal].
  replace (n / 10 =? 0) with false by div_lia.
  replace (n / 10 / 10 =? 0) with false by div_lia.
  replace (n / 10 / 10 / 10 =? 0) with false by div_lia.
  replace (n / 10 / 10 / 10 / 10 =? 0) with true by div_lia.
  replace (n / 10 / 10 / 10 mod 10) with (n / 1000) by div_lia.
  replace (n / 10 / 10 mod 10) with (n / 100 mod 10) by div_lia.
  reflexivity.
Qed.

Lemma four_digits_string_of_Z (n : Z) :
  1000 <= n <= 9999 ->
  four_digits (JS.string_of_Z n) = true /\
  JS.parseInt_string (JS.string_of_Z n) = Some n.
Proof.
  intros H. rewrite (string_of_Z_four n H).
  destruct (is_digit_digit_char (n / 1000) ltac:(div_lia)) as (Ha1 & Ha2 & Ha3).
  destruct (is_digit_digit_char (n / 100 mod 10) ltac:(div_lia)) as (Hb1 & Hb2 & _).
  destruct (is_digit_digit_char (n / 10 mod 10) ltac:(div_lia)) as (Hc1 & Hc2 & _).
  destruct (is_digit_digit_char (n mod 10) ltac:(div_lia)) as (Hd1 & Hd2 & _).
  split.
  - unfold four_digits. cbn [String.length list_ascii_of_string forallb].
    now rewrite Ha1, Hb1, Hc1, Hd1.
  - unfold JS.parseInt_string. rewrite Ha3.
    assert (Hsign : forall s,
              match String (JS.digit_char (n / 1000)) s with
              | String "-" s' => option_map Z.opp (JS.digits None s')
              | String "+" s' => JS.digits None s'
              | s' => JS.digits None s'
              end = JS.digits None (String (JS.digit_char (n / 1000)) s)).
    { intros s.
      assert (Hd : n / 1000 = 1 \/ n / 1000 = 2 \/ n / 1000 = 3 \/
                   n / 1000 = 4 \/ n / 1000 = 5 \/ n / 1000 = 6 \/
                   n / 1000 = 7 \/ n / 1000 = 8 \/ n / 1000 = 9) by div_lia.
      repeat (destruct Hd as [-> | Hd]; [reflexivity|]).
      now rewrite Hd. }
    rewrite Hsign. cbn [JS.digits]. rewrite Ha2, Hb2, Hc2, Hd2.
    f_equal. div_lia.
Qed.

Lemma cleared_of_timer_inv (w : world) : timer_inv w -> cleared w = [].
Proof.
  intros [Hi _]. unfold cleared. rewrite Hi.
  destruct (timer (game w)); simpl; [|reflexivity].
  now rewrite Nat.eqb_refl.
Qed.

(** ** Invariants of the reactor *)

Lemma current_question_Some (g : game_state) :
  0 <= currentQuestion g < Z.of_nat (List.length (questions g)) ->
  exists q, current_question g = Some q.
Proof.
  intros H. unfold current_question.
  replace (currentQuestion g <? 0) with false by lia.
  destruct (nth_error (questions g) (Z.to_nat (currentQuestion g))) eqn:E.
  - eauto.
  - apply nth_error_None in E. lia.
Qed.

Lemma current_question_bounds (g : game_state) (q : quiz_question) :
  current_question g = Some q ->
  0 <= currentQuestion g < Z.of_nat (List.length (questions g)).
Proof.
  unfold current_question.
  destruct (currentQuestion g <? 0) eqn:E; [discriminate|].
  intros Hq.
  assert (Hn : nth_error (questions g) (Z.to_nat (currentQuestion g)) <> None)
    by congruence.
  apply nth_error_Some in Hn. lia.
Qed.

Lemma revealAnswer_throws (rs : conn -> Z) (w : world) :
  state (game w) = question -> current_question (game w) = None ->
  exists w', revealAnswer rs w = Thrown w'.
Proof.
  intros Hst Hq. unfold revealAnswer, bind, get_game. rewrite Hst. simpl.
  destruct (timer (game w)); simpl;
    unfold update_game, bind, clearInterval; simpl; rewrite Hq; eauto.
Qed.

Lemma startQuestion_throws (rs : conn -> Z) (w : world) :
  currentQuestion (game w) + 1 < Z.of_nat (List.length (questions (game w))) ->
  current_question (set_currentQuestion (currentQuestion (game w) + 1) (game w))
  = None ->
  exists w', startQuestion rs w = Thrown w'.
Proof.
  intros H Hq. unfold startQuestion, bind, update_game, get_game. simpl.
  replace (currentQuestion (game w) + 1
           >=? Z.of_nat (List.length (questions (game w)))) with false by lia.
  simpl. rewrite Hq. eauto.
Qed.

Lemma inv_emit (l : list (conn * server_msg)) (w : world) :
  inv (emit l w) <-> inv w.
Proof. reflexivity. Qed.

Lemma inv_fresh_world (csv : option (list csv_row)) (rnd : Z) (w : world) :
  inv w -> inv (fresh_world csv rnd w).
Proof.
  intros [Ht _]. unfold inv, timer_inv, cursor_inv. simpl.
  rewrite (cleared_of_timer_inv w Ht).
  split; [split; auto|]. split; [lia|]. intros [H|H]; discriminate.
Qed.

Lemma inv_revealAnswer (rs : conn -> Z) (w w' : world) :
  inv w -> revealAnswer rs w = Done tt w' -> inv w'.
Proof.
  intros Hinv Hrun.
  destruct (phase_eqb (state (game w)) question) eqn:Hst.
  - apply phase_eqb_eq in Hst.
    destruct (current_question (game w)) as [q|] eqn:Hq.
    + rewrite (revealAnswer_eq rs w q Hst Hq) in Hrun.
      injection Hrun as <-. apply inv_emit.
      destruct Hinv as [Ht [Hc1 Hc2]].
      unfold inv, timer_inv, cursor_inv. simpl.
      rewrite (cleared_of_timer_inv w Ht). auto.
    + destruct (revealAnswer_throws rs w Hst Hq) as [w0 Hw0]. congruence.
  - apply phase_eqb_neq in Hst.
    rewrite revealAnswer_other_phase in Hrun by exact Hst.
    now injection Hrun as <-.
Qed.

#[local] Arguments send : simpl never.
#[local] Arguments sendToHost : simpl never.
#[local] Arguments broadcast : simpl never.
#[local] Arguments forEach : simpl never.
#[local] Arguments resetGame : simpl never.
#[local] Arguments revealAnswer : simpl never.
#[local] Arguments startQuestion : simpl never.
#[local] Arguments emit : simpl never.

Lemma inv_startQuestion (rs : conn -> Z) (w w' : world) :
  inv w -> state (game w) <> question ->
  startQuestion rs w = Done tt w' -> inv w'.
Proof.
  intros [[Hi Ht] [Hc _]] Hst Hrun.
  specialize (Ht Hst). rewrite Ht in Hi.
  destruct (currentQuestion (game w) + 1
            >=? Z.of_nat (List.length (questions (game w)))) eqn:Hend.
  - rewrite startQuestion_past_end in Hrun by lia.
    injection Hrun as <-. apply inv_emit.
    unfold inv, timer_inv, cursor_inv. simpl. rewrite Ht.
    split; [split; auto|]. split; [lia|]. intros [H|H]; discriminate.
  - destruct (current_question
                (set_currentQuestion (currentQuestion (game w) + 1) (game w)))
      as [q|] eqn:Hq.
    + rewrite (startQuestion_next rs w q) in Hrun by (auto; lia).
      injection Hrun as <-. apply inv_emit.
      apply current_question_bounds in Hq. simpl in Hq.
      unfold inv, timer_inv, cursor_inv. simpl. rewrite Hi.
      split; [split; [reflexivity | congruence]|]. split; [lia|]. auto.
    + destruct (startQuestion_throws rs w) as [w0 Hw0]; [lia | exact Hq |].
      congruence.
Qed.

Lemma inv_handleHost (rs : conn -> Z) (c : conn)
    (csv : option (list csv_row)) (rnd : Z) (w w' : world) :
  inv w -> handleHost rs c csv rnd w = Done tt w' -> inv w'.
Proof.
  intros Hinv Hrun. unfold handleHost, bind, get_game, update_game in Hrun.
  rewrite forEach_send_eq, resetGame_eq, send_eq in Hrun.
  injection Hrun as <-. apply inv_emit. apply inv_fresh_world. exact Hinv.
Qed.

Lemma inv_host_message (rs : conn -> Z) (c : conn) (msg : client_msg)
    (csv : option (list csv_row)) (rnd : Z) (w w' : world) :
  inv w -> host_message rs c msg csv rnd w = Done tt w' -> inv w'.
Proof.
  intros Hinv Hrun. unfold host_message, bind, get_game in Hrun.
  destruct msg; try (injection Hrun as <-; exact Hinv).
  - destruct (phase_eqb (state (game w)) lobby) eqn:Hst;
      [|injection Hrun as <-; exact Hinv].
    apply phase_eqb_eq in Hst.
    destruct (PMap.size (players (game w)) =? 0).
    + rewrite send_eq in Hrun. injection Hrun as <-. now apply inv_emit.
    + apply (inv_startQuestion rs w w' Hinv); [congruence | exact Hrun].
  - destruct (phase_eqb (state (game w)) reveal) eqn:Hst;
      [|injection Hrun as <-; exact Hinv].
    apply phase_eqb_eq in Hst.
    apply (inv_startQuestion rs w w' Hinv); [congruence | exact Hrun].
  - rewrite resetGame_eq, send_eq in Hrun. injection Hrun as <-.
    apply inv_emit. now apply inv_fresh_world.
Qed.

Lemma inv_host_close (rs : conn -> Z) (c : conn) (w w' : world) :
  inv w -> host_close rs c w = Done tt w' -> inv w'.
Proof.
  intros Hinv Hrun. unfold host_close, bind, get_game, update_game in Hrun.
  destruct (hostWs (game w)) as [h|]; [|injection Hrun as <-; exact Hinv].
  destruct (Nat.eqb h c); [|injection Hrun as <-; exact Hinv].
  rewrite forEach_send_eq in Hrun. injection Hrun as <-.
  apply inv_emit. exact Hinv.
Qed.

Lemma inv_player_close (rs : conn -> Z) (playerId : option nat)
    (w w' : world) :
  inv w -> player_close rs playerId w = Done tt w' -> inv w'.
Proof.
  intros Hinv Hrun. unfold player_close, bind, get_game, update_game in Hrun.
  destruct playerId as [id|]; [|injection Hrun as <-; exact Hinv].
  destruct (phase_eqb (state (game w)) lobby);
    [|injection Hrun as <-; exact Hinv].
  destruct (PMap.get id (players (game w))).
  - rewrite sendToHost_eq in Hrun. injection Hrun as <-.
    apply inv_emit. exact Hinv.
  - injection Hrun as <-. exact Hinv.
Qed.

Lemma inv_csv_changed (csv : option (list csv_row)) (w w' : world) :
  inv w -> csv_changed csv w = Done tt w' -> inv w'.
Proof.
  intros Hinv Hrun. unfold csv_changed, bind, get_game in Hrun.
  destruct csv as [rows|]; [|injection Hrun as <-; exact Hinv].
  simpl in Hrun.
  destruct (phase_eqb (state (game w)) idle || phase_eqb (state (game w)) lobby)
    eqn:Hst; injection Hrun as <-; [|exact Hinv].
  destruct Hinv as [Ht [Hc1 Hc2]].
  split; [exact Ht|]. split; [exact Hc1|]. simpl. intros H.
  apply orb_true_iff in Hst.
  destruct Hst as [Hst|Hst]; apply phase_eqb_eq in Hst;
    destruct H as [H|H]; congruence.
Qed.

Lemma inv_tick (rs : conn -> Z) (w w' : world) :
  inv w -> tick rs w = Done tt w' -> inv w'.
Proof.
  intros Hinv Hrun. unfold tick, bind, update_game, get_game in Hrun.
  rewrite broadcast_eq in Hrun. simpl in Hrun.
  destruct (timeRemaining (game w) - 1 <=? 0).
  - destruct Hinv as [[Hi Ht] Hc].
    destruct (timer (game w)) as [h|] eqn:Htimer;
      unfold clearInterval, ret in Hrun; simpl in Hrun;
      apply inv_revealAnswer in Hrun; auto;
      (split; [|exact Hc]); split; simpl; auto.
    rewrite Hi. simpl. now rewrite Nat.eqb_refl.
  - injection Hrun as <-. apply inv_emit. exact Hinv.
Qed.

Lemma inv_player_message (rs : conn -> Z) (c : conn)
    (playerId r : option nat) (msg : client_msg) (w w' : world) :
  inv w -> player_message rs c playerId msg w = Done r w' -> inv w'.
Proof.
  intros Hinv Hrun. unfold player_message, bind, get_game in Hrun.
  destruct msg as [pin0 name0|answer0| | | |ty];
    try (injection Hrun as _ <-; exact Hinv).
  - (* join *)
    destruct (negb (JS.truthy pin0) || negb (JS.truthy name0)).
    { rewrite send_eq in Hrun. injection Hrun as _ <-. now apply inv_emit. }
    destruct (pin_differs pin0 (pin (game w))).
    { rewrite send_eq in Hrun. injection Hrun as _ <-. now apply inv_emit. }
    destruct (negb (phase_eqb (state (game w)) lobby)).
    { rewrite send_eq in Hrun. injection Hrun as _ <-. now apply inv_emit. }
    destruct name0 as [| | | |s]; try discriminate.
    destruct (String.eqb (JS.slice0 20 (JS.trim s)) "").
    { rewrite send_eq in Hrun. injection Hrun as _ <-. now apply inv_emit. }
    destruct (name_taken (JS.slice0 20 (JS.trim s)) (players (game w))).
    { rewrite send_eq in Hrun. injection Hrun as _ <-. now apply inv_emit. }
    unfold update_game in Hrun. rewrite send_eq, sendToHost_eq in Hrun.
    injection Hrun as _ <-. apply inv_emit. apply inv_emit. exact Hinv.
  - (* answer *)
    destruct playerId as [id|]; [|injection Hrun as _ <-; exact Hinv].
    destruct (negb (phase_eqb (state (game w)) question));
      [injection Hrun as _ <-; exact Hinv|].
    destruct (PMap.get id (players (game w))) as [p|];
      [|injection Hrun as _ <-; exact Hinv].
    destruct (answer p); [injection Hrun as _ <-; exact Hinv|].
    destruct (JS.parseInt answer0) as [n|];
      [|injection Hrun as _ <-; exact Hinv].
    destruct (n <? 1); [injection Hrun as _ <-; exact Hinv|].
    destruct (current_question (game w)) as [q|]; [|discriminate].
    destruct (n >? Z.of_nat (List.length (options q)));
      [injection Hrun as _ <-; exact Hinv|].
    unfold update_game in Hrun. rewrite send_eq, sendToHost_eq in Hrun.
    simpl in Hrun.
    match type of Hrun with
    | context [if ?b then _ else _] => destruct b
    end.
    + destruct (revealAnswer rs _) as [[] w1|w1] eqn:Hrev in Hrun;
        [|discriminate].
      injection Hrun as _ <-.
      apply inv_revealAnswer in Hrev; [exact Hrev|].
      apply inv_emit. apply inv_emit. exact Hinv.
    + injection Hrun as _ <-. apply inv_emit. apply inv_emit. exact Hinv.
Qed.

Lemma inv_react (rs : conn -> Z) (e : event) (w w' : world) :
  inv w -> react rs e w = Done tt w' -> inv w'.
Proof.
  intros Hinv Hrun. destruct e; simpl in Hrun.
  - eapply inv_handleHost; eauto.
  - eapply inv_host_message; eauto.
  - eapply inv_host_close; eauto.
  - unfold forget, bind in Hrun.
    destruct (player_message rs c playerId msg w) as [r w1|w1] eqn:Hpm;
      [|discriminate].
    injection Hrun as <-. eapply inv_player_message; eauto.
  - eapply inv_player_close; eauto.
  - destruct (existsb (Nat.eqb h) (intervals w)).
    + eapply inv_tick; eauto.
    + now injection Hrun as <-.
  - eapply inv_csv_changed; eauto.
Qed.

Lemma inv_initial (qs : list quiz_question) : inv (initial_world qs).
Proof.
  split; split; simpl; auto; try lia; try discriminate.
  intros [H|H]; discriminate.
Qed.

(** Every world the server reaches satisfies the invariants. *)
Lemma reachable_inv (qs : list quiz_question) (w : world) :
  reachable qs w -> inv w.
Proof.
  induction 1 as [|rs e w w' _ IH Hstep].
  - apply inv_initial.
  - eapply inv_react; eauto.
Qed.

(** ** The phase transitions *)

Lemma state_revealAnswer (rs : conn -> Z) (w w' : world) :
  revealAnswer rs w = Done tt w' ->
  (state (game w) = question /\ state (game w') = reveal) \/
  (state (game w) <> question /\ w' = w).
Proof.
  intros Hrun.
  destruct (phase_eqb (state (game w)) question) eqn:Hst.
  - apply phase_eqb_eq in Hst.
    destruct (current_question (game w)) as [q|] eqn:Hq.
    + rewrite (revealAnswer_eq rs w q Hst Hq) in Hrun.
      injection Hrun as <-. left. auto.
    + destruct (revealAnswer_throws rs w Hst Hq) as [w0 Hw0]. congruence.
  - apply phase_eqb_neq in Hst.
    rewrite revealAnswer_other_phase in Hrun by exact Hst.
    injection Hrun as <-. now right.
Qed.

Lemma state_startQuestion (rs : conn -> Z) (w w' : world) :
  startQuestion rs w = Done tt w' ->
  state (game w') = question \/ state (game w') = leaderboard.
Proof.
  intros Hrun.
  destruct (currentQuestion (game w) + 1
            >=? Z.of_nat (List.length (questions (game w)))) eqn:Hend.
  - rewrite startQuestion_past_end in Hrun by lia.
    injection Hrun as <-. now right.
  - destruct (current_question
                (set_currentQuestion (currentQuestion (game w) + 1) (game w)))
      as [q|] eqn:Hq.
    + rewrite (startQuestion_next rs w q) in Hrun by (auto; lia).
      injection Hrun as <-. now left.
    + destruct (startQuestion_throws rs w) as [w0 Hw0]; [lia | exact Hq |].
      congruence.
Qed.

Ltac same_phase H :=
  injection H as <-; apply stay.

Ltac same_phase_ret H :=
  injection H as _ <-; apply stay.

(** Every reaction moves the phase along an edge of the state machine. *)
Lemma react_transition (rs : conn -> Z) (e : event) (w w' : world) :
  react rs e w = Done tt w' ->
  transition (state (game w)) e (state (game w')).
Proof.
  intros Hrun. destruct e as [c csv rnd|c msg csv rnd|c|c pid msg|c pid|h|csv];
    simpl in Hrun.
  - unfold handleHost, bind, get_game, update_game in Hrun.
    rewrite forEach_send_eq, resetGame_eq, send_eq in Hrun.
    injection Hrun as <-. apply on_connect.
  - unfold host_message, bind, get_game in Hrun.
    destruct msg as [vpin vname|v| | | |ty]; try same_phase Hrun.
    + destruct (phase_eqb (state (game w)) lobby) eqn:Hst;
        [|same_phase Hrun].
      apply phase_eqb_eq in Hst.
      destruct (PMap.size (players (game w)) =? 0).
      * rewrite send_eq in Hrun. same_phase Hrun.
      * rewrite Hst.
        destruct (state_startQuestion rs w w' Hrun) as [-> | ->];
          constructor.
    + destruct (phase_eqb (state (game w)) reveal) eqn:Hst;
        [|same_phase Hrun].
      apply phase_eqb_eq in Hst. rewrite Hst.
      destruct (state_startQuestion rs w w' Hrun) as [-> | ->]; constructor.
    + rewrite resetGame_eq, send_eq in Hrun. injection Hrun as <-.
      apply on_reset.
  - unfold host_close, bind, get_game, update_game in Hrun.
    destruct (hostWs (game w)) as [h|]; [|same_phase Hrun].
    destruct (Nat.eqb h c); [|same_phase Hrun].
    rewrite forEach_send_eq in Hrun. same_phase Hrun.
  - unfold forget, bind in Hrun.
    destruct (player_message rs c pid msg w) as [r w1|w1] eqn:Hpm;
      [|discriminate].
    injection Hrun as <-. rename Hpm into Hrun.
    unfold player_message, bind, get_game in Hrun.
    destruct msg as [vpin vname|v| | | |ty]; try same_phase_ret Hrun.
    + destruct (negb (JS.truthy vpin) || negb (JS.truthy vname)).
      { rewrite send_eq in Hrun. same_phase_ret Hrun. }
      destruct (pin_differs vpin (pin (game w))).
      { rewrite send_eq in Hrun. same_phase_ret Hrun. }
      destruct (negb (phase_eqb (state (game w)) lobby)).
      { rewrite send_eq in Hrun. same_phase_ret Hrun. }
      destruct vname as [| | | |s]; try discriminate.
      destruct (String.eqb (JS.slice0 20 (JS.trim s)) "").
      { rewrite send_eq in Hrun. same_phase_ret Hrun. }
      destruct (name_taken (JS.slice0 20 (JS.trim s)) (players (game w))).
      { rewrite send_eq in Hrun. same_phase_ret Hrun. }
      unfold update_game in Hrun. rewrite send_eq, sendToHost_eq in Hrun.
      same_phase_ret Hrun.
    + destruct pid as [id|]; [|same_phase_ret Hrun].
      destruct (phase_eqb (state (game w)) question) eqn:Hst;
        [|same_phase_ret Hrun].
      apply phase_eqb_eq in Hst. cbn [negb] in Hrun.
      destruct (PMap.get id (players (game w))) as [p|];
        [|same_phase_ret Hrun].
      destruct (answer p); [same_phase_ret Hrun|].
      destruct (JS.parseInt v) as [n|]; [|same_phase_ret Hrun].
      destruct (n <? 1); [same_phase_ret Hrun|].
      destruct (current_question (game w)) as [q|]; [|discriminate].
      destruct (n >? Z.of_nat (List.length (options q)));
        [same_phase_ret Hrun|].
      unfold update_game in Hrun. rewrite send_eq, sendToHost_eq in Hrun.
      simpl in Hrun.
      match type of Hrun with
      | context [if ?b then _ else _] => destruct b
      end; [|same_phase_ret Hrun].
      destruct (revealAnswer rs _) as [[] w2|w2] eqn:Hrev in Hrun;
        [|discriminate].
      injection Hrun as _ <-.
      apply state_revealAnswer in Hrev.
      destruct Hrev as [[_ Hrev] | [_ ->]].
      * rewrite Hrev, Hst. apply on_all_answered.
      * apply stay.
  - unfold player_close, bind, get_game, update_game in Hrun.
    destruct pid as [id|]; [|same_phase Hrun].
    destruct (phase_eqb (state (game w)) lobby); [|same_phase Hrun].
    destruct (PMap.get id (players (game w))).
    + rewrite sendToHost_eq in Hrun. same_phase Hrun.
    + same_phase Hrun.
  - destruct (existsb (Nat.eqb h) (intervals w)); [|same_phase Hrun].
    unfold tick, bind, update_game, get_game in Hrun.
    rewrite broadcast_eq in Hrun. simpl in Hrun.
    destruct (timeRemaining (game w) - 1 <=? 0); [|same_phase Hrun].
    destruct (timer (game w)) as [h0|];
      unfold clearInterval, ret in Hrun; simpl in Hrun;
      apply state_revealAnswer in Hrun;
      (destruct Hrun as [[Hq Hrev] | [_ ->]]; [|apply stay]);
      simpl in Hq; rewrite Hrev, Hq; apply on_time_up.
  - unfold csv_changed, bind, get_game in Hrun.
    destruct csv as [rows|]; [|same_phase Hrun].
    simpl in Hrun.
    destruct (phase_eqb (state (game w)) idle
              || phase_eqb (state (game w)) lobby); same_phase Hrun.
Qed.

Lemma reachable_run (qs : list quiz_question) (es : list event) :
  forall w, reachable qs w -> runs es w = true -> reachable qs (run es w).
Proof.
  induction es as [|e es IH]; intros w Hw Hok; simpl in *; [exact Hw|].
  destruct (react (fun _ => 1) e w) as [[] w1|w1] eqn:Hstep; [|discriminate].
  apply IH; [|exact Hok]. eapply reach_step; eauto.
Qed.

Lemma reachable_demo_lobby : reachable [] demo_lobby.
Proof. apply reachable_run; [constructor | vm_compute; reflexivity]. Qed.

Lemma reachable_demo_question : reachable [] demo_question.
Proof.
  apply reachable_run; [apply reachable_demo_lobby | vm_compute; reflexivity].
Qed.

Lemma reachable_demo_reveal : reachable [] demo_reveal.
Proof.
  apply reachable_run; [apply reachable_demo_question | vm_compute; reflexivity].
Qed.

(** C6: a [next] in phase [reveal] that moves the cursor past the end
    of the bank ends in phase [leaderboard], having broadcast the final
    standings and started no countdown; and from [leaderboard] a
    reaction leaves the phase where it is unless it resets the session
    to [lobby]: the phase is not [question] or [reveal] again. *)
Theorem next_past_end_goes_to_leaderboard (rs : conn -> Z) (c : conn)
    (csv : option (list csv_row)) (rnd : Z) (w : world) :
  state (game w) = reveal ->
  currentQuestion (game w) + 1 >= Z.of_nat (List.length (questions (game w))) ->
  exists w',
    host_message rs c Next csv rnd w = Done tt w' /\
    state (game w') = leaderboard /\
    outbox w'
    = (outbox w
       ++ broadcast_to rs (game w)
            (msg_leaderboard (getLeaderboard (game w))))%list /\
    players (game w') = players (game w) /\
    timer (game w') = timer (game w) /\
    intervals w' = intervals w /\
    (forall rs' e w'',
       react rs' e w' = Done tt w'' ->
       state (game w'') = leaderboard \/
       (state (game w'') = lobby /\ resets e)).
Proof.
  intros Hst Hend.
  unfold host_message, bind, get_game. rewrite Hst. simpl.
  rewrite startQuestion_past_end by exact Hend.
  eexists. split; [reflexivity|]. simpl.
  repeat (split; [reflexivity|]).
  intros rs' e w'' Hstep. apply react_transition in Hstep.
  simpl in Hstep. inversion Hstep; subst; simpl; auto.
Qed.

Lemma next_past_end_witness :
  exists w',
    host_message (fun _ => 1) 10%nat Next None 0 demo_reveal = Done tt w' /\
    state (game w') = leaderboard.
Proof.
  destruct (next_past_end_goes_to_leaderboard (fun _ => 1) 10%nat None 0
              demo_reveal) as (w' & Hrun & Hst & _).
  - vm_compute. reflexivity.
  - vm_compute. discriminate.
  - exists w'. split; assumption.
Defined.

Lemma fresh_lobby_fresh_world (csv : option (list csv_row)) (rnd : Z)
    (w : world) :
  timer_inv w -> 0 <= rnd < 2 ^ 53 -> fresh_lobby (fresh_world csv rnd w).
Proof.
  intros Ht Hr. unfold fresh_lobby. simpl.
  rewrite (cleared_of_timer_inv w Ht).
  split; [|tauto].
  exists (draw_pin rnd).
  pose proof (draw_pin_range rnd Hr) as Hp.
  destruct (four_digits_string_of_Z _ Hp). auto.
Qed.

Lemma fresh_lobby_emit (l : list (conn * server_msg)) (w : world) :
  fresh_lobby w -> fresh_lobby (emit l w).
Proof. exact (fun H => H). Qed.

(** C7: in every world the server reaches, a reset (through
    [resetGame], a [reset] message of the host, or a new host
    connection) returns and leaves a join code of four digits that
    reads as a number in [1000, 9999], no player, the cursor at -1, the
    phase [lobby], the answer count 0, and no timer and no interval
    scheduled; and a reaction that takes the phase into [lobby] is such
    a reset. *)
Theorem reset_gives_fresh_lobby (qs : list quiz_question) (w : world)
    (csv : option (list csv_row)) (rnd : Z) :
  reachable qs w -> 0 <= rnd < 2 ^ 53 ->
  (exists w', resetGame csv rnd w = Done tt w' /\ fresh_lobby w') /\
  (forall rs c,
     exists w',
       host_message rs c Reset csv rnd w = Done tt w' /\ fresh_lobby w') /\
  (forall rs c,
     exists w', handleHost rs c csv rnd w = Done tt w' /\ fresh_lobby w') /\
  (forall rs e w',
     draws_in_range e ->
     react rs e w = Done tt w' ->
     state (game w) <> lobby -> state (game w') = lobby ->
     resets e /\ fresh_lobby w').
Proof.
  intros Hreach Hr. apply reachable_inv in Hreach. destruct Hreach as [Ht _].
  split; [|split; [|split]].
  - rewrite resetGame_eq. eexists. split; [reflexivity|].
    now apply fresh_lobby_fresh_world.
  - intros rs c. unfold host_message, bind, get_game.
    rewrite resetGame_eq, send_eq. eexists. split; [reflexivity|].
    apply fresh_lobby_emit, fresh_lobby_fresh_world; assumption.
  - intros rs c. unfold handleHost, bind, get_game, update_game.
    rewrite forEach_send_eq, resetGame_eq, send_eq.
    eexists. split; [reflexivity|].
    apply fresh_lobby_emit, fresh_lobby_fresh_world; [exact Ht | exact Hr].
  - intros rs e w' He Hstep Hfrom Hto.
    pose proof (react_transition rs e w w' Hstep) as Htr.
    rewrite Hto in Htr.
    inversion Htr as [p e0 Hp| p c0 csv0 rnd0 | p c0 csv0 rnd0 | | | | | |];
      subst; try congruence; simpl in He, Hstep; (split; [exact I|]).
    + unfold handleHost, bind, get_game, update_game in Hstep.
      rewrite forEach_send_eq, resetGame_eq, send_eq in Hstep.
      injection Hstep as <-.
      apply fresh_lobby_emit, fresh_lobby_fresh_world; [exact Ht | exact He].
    + unfold host_message, bind, get_game in Hstep.
      rewrite resetGame_eq, send_eq in Hstep. injection Hstep as <-.
      apply fresh_lobby_emit, fresh_lobby_fresh_world; assumption.
Qed.

Lemma reset_gives_fresh_lobby_witness :
  exists w',
    host_message (fun _ => 1) 10%nat Reset None 4503599627370496
      demo_question = Done tt w' /\
    fresh_lobby w'.
Proof.
  destruct (reset_gives_fresh_lobby [] demo_question None 4503599627370496)
    as (_ & H & _).
  - apply reachable_run;
      [apply reachable_run; [constructor|] |]; vm_compute; reflexivity.
  - split; [discriminate | reflexivity].
  - exact (H (fun _ => 1) 10%nat).
Defined.

(** ** Joining *)

Lemma get_set (k : nat) (p : player) (m : player_map) :
  PMap.get k (PMap.set k p m) = Some p.
Proof.
  induction m as [|[k' p'] m IH]; simpl.
  - now rewrite Nat.eqb_refl.
  - destruct (Nat.eqb k k') eqn:E; simpl; rewrite E; auto.
Qed.

(** What the ['message'] listener does with a [join] that passes every
    check. *)
Lemma join_accepted (rs : conn -> Z) (c : conn) (playerId : option nat)
    (vpin : JS.jsval) (s : string) (w : world) :
  JS.truthy vpin = true ->
  s <> "" ->
  pin_differs vpin (pin (game w)) = false ->
  state (game w) = lobby ->
  JS.slice0 20 (JS.trim s) <> "" ->
  name_taken (JS.slice0 20 (JS.trim s)) (players (game w)) = false ->
  let trimmedName := JS.slice0 20 (JS.trim s) in
  let g' := joined (nextPlayerId w) trimmedName c (game w) in
  player_message rs c playerId (Join vpin (JS.JStr s)) w
  = Done (Some (nextPlayerId w))
      (emit
         (delivered rs c (msg_joined trimmedName)
          ++ delivered_host rs g'
               (msg_player_joined trimmedName (PMap.size (players g'))
                  (map name (PMap.values (players g')))))
         (with_game (joined (nextPlayerId w) trimmedName c)
            (set_nextPlayerId (S (nextPlayerId w)) w))).
Proof.
  intros Hpin Hs Hmatch Hst Hne Hfree. cbv zeta.
  unfold player_message, bind, get_game.
  apply String.eqb_neq in Hs, Hne.
  cbn [JS.truthy]. rewrite Hpin, Hs, Hmatch, Hst.
  cbn [negb orb phase_eqb]. cbv zeta. rewrite Hne, Hfree.
  unfold update_game. rewrite send_eq, sendToHost_eq.
  unfold ret. rewrite emit_emit. reflexivity.
Qed.

(** C9: a [join] with the right PIN in the lobby whose trimmed name is
    longer than 20 characters (code units, as [length] counts them) is
    not refused: when the first 20 are not taken (case-insensitively)
    the player is created under exactly these 20, with score 0 and no
    answer, and the reply is [joined], not [error]. *)
Theorem join_truncates_long_name (rs : conn -> Z) (c : conn)
    (playerId : option nat) (vpin : JS.jsval) (s : string) (w : world) :
  JS.truthy vpin = true ->
  pin_differs vpin (pin (game w)) = false ->
  state (game w) = lobby ->
  (JS.length (JS.trim s) > 20)%nat ->
  name_taken (JS.slice0 20 (JS.trim s)) (players (game w)) = false ->
  let trimmedName := JS.slice0 20 (JS.trim s) in
  exists w',
    player_message rs c playerId (Join vpin (JS.JStr s)) w
    = Done (Some (nextPlayerId w)) w' /\
    JS.length trimmedName = 20%nat /\
    players (game w')
    = PMap.set (nextPlayerId w) (new_player trimmedName c) (players (game w)) /\
    PMap.get (nextPlayerId w) (players (game w'))
    = Some (new_player trimmedName c) /\
    outbox w'
    = (outbox w
       ++ delivered rs c (msg_joined trimmedName)
       ++ delivered_host rs (game w')
            (msg_player_joined trimmedName (PMap.size (players (game w')))
               (map name (PMap.values (players (game w'))))))%list.
Proof.
  intros Hpin Hmatch Hst Hlong Hfree trimmedName.
  assert (Hlen : JS.length trimmedName = 20%nat).
  { unfold trimmedName. rewrite length_slice0. lia. }
  assert (Hs : s <> "").
  { intros ->. simpl in Hlong. lia. }
  assert (Hne : trimmedName <> "").
  { intros E. rewrite E in Hlen. discriminate. }
  rewrite (join_accepted rs c playerId vpin s w Hpin Hs Hmatch Hst Hne Hfree).
  eexists. split; [reflexivity|]. split; [exact Hlen|].
  split; [reflexivity|]. split; [apply get_set | reflexivity].
Qed.

Lemma join_truncates_long_name_witness :
  exists w',
    player_message (fun _ => 1) 13%nat None
      (Join (JS.JStr "1000") (JS.JStr "  Bartholomew the Magnificent "))
      demo_lobby
    = Done (Some 3%nat) w' /\
    PMap.get 3 (players (game w'))
    = Some (new_player "Bartholomew the Magn" 13%nat).
Proof.
  destruct (join_truncates_long_name (fun _ => 1) 13%nat None
              (JS.JStr "1000") "  Bartholomew the Magnificent " demo_lobby)
    as (w' & Hrun & _ & _ & Hget & _).
  - reflexivity.
  - vm_compute. reflexivity.
  - vm_compute. reflexivity.
  - vm_compute. repeat constructor.
  - vm_compute. reflexivity.
  - exists w'. split; [exact Hrun | exact Hget].
Defined.

(** ** A new host connection *)




(** ** Answers and the countdown *)

Lemma In_set (k k0 : nat) (p p0 : player) (m : player_map) :
  In (k, p) (PMap.set k0 p0 m) -> (k, p) = (k0, p0) \/ In (k, p) m.
Proof.
  induction m as [|[k' p'] m IH]; simpl.
  - intros [H|[]]. left. congruence.
  - destruct (Nat.eqb k0 k') eqn:E; simpl.
    + apply Nat.eqb_eq in E. subst k'. intros [H|H]; [left | right; right]; auto.
    + intros [H|H]; [right; left; exact H|].
      destruct (IH H); [left | right; right]; auto.
Qed.

Lemma answers_inv_revealAnswer (rs : conn -> Z) (w w' : world) :
  answers_inv w -> revealAnswer rs w = Done tt w' -> answers_inv w'.
Proof.
  intros Hinv Hrun.
  destruct (state_revealAnswer rs w w' Hrun) as [[_ Hst] | [_ ->]];
    [|exact Hinv].
  intros H. congruence.
Qed.

Lemma answers_inv_startQuestion (rs : conn -> Z) (w w' : world) :
  startQuestion rs w = Done tt w' -> answers_inv w'.
Proof.
  intros Hrun.
  destruct (currentQuestion (game w) + 1
            >=? Z.of_nat (List.length (questions (game w)))) eqn:Hend.
  - rewrite startQuestion_past_end in Hrun by lia.
    injection Hrun as <-. intros H. discriminate H.
  - destruct (current_question
                (set_currentQuestion (currentQuestion (game w) + 1) (game w)))
      as [q|] eqn:Hq.
    + rewrite (startQuestion_next rs w q) in Hrun by (auto; lia).
      injection Hrun as <-. intros _. exists q. simpl.
      split; [exact Hq|]. split; [lia|]. split; [auto|].
      intros id p a Hin Hans. unfold PMap.update_all in Hin.
      apply in_map_iff in Hin. destruct Hin as ([k p0] & Heq & _).
      injection Heq as _ <-. discriminate Hans.
    + destruct (startQuestion_throws rs w) as [w0 Hw0]; [lia | exact Hq |].
      congruence.
Qed.

Ltac keep_world H := injection H as <-; assumption.
Ltac keep_world_ret H := injection H as _ <-; assumption.

Lemma answers_inv_react (rs : conn -> Z) (e : event) (w w' : world) :
  answers_inv w -> react rs e w = Done tt w' -> answers_inv w'.
Proof.
  intros Hinv Hrun.
  destruct e as [c csv rnd|c msg csv rnd|c|c pid msg|c pid|h|csv];
    simpl in Hrun.
  - unfold handleHost, bind, get_game, update_game in Hrun.
    rewrite forEach_send_eq, resetGame_eq, send_eq in Hrun.
    injection Hrun as <-. intros H. discriminate H.
  - unfold host_message, bind, get_game in Hrun.
    destruct msg as [vpin vname|v| | | |ty]; try keep_world Hrun.
    + destruct (phase_eqb (state (game w)) lobby); [|keep_world Hrun].
      destruct (PMap.size (players (game w)) =? 0).
      * rewrite send_eq in Hrun. keep_world Hrun.
      * eapply answers_inv_startQuestion; eauto.
    + destruct (phase_eqb (state (game w)) reveal); [|keep_world Hrun].
      eapply answers_inv_startQuestion; eauto.
    + rewrite resetGame_eq, send_eq in Hrun. injection Hrun as <-.
      intros H. discriminate H.
  - unfold host_close, bind, get_game, update_game in Hrun.
    destruct (hostWs (game w)) as [h|]; [|keep_world Hrun].
    destruct (Nat.eqb h c); [|keep_world Hrun].
    rewrite forEach_send_eq in Hrun. keep_world Hrun.
  - unfold forget, bind in Hrun.
    destruct (player_message rs c pid msg w) as [r w1|w1] eqn:Hpm;
      [|discriminate].
    injection Hrun as <-. rename Hpm into Hrun.
    unfold player_message, bind, get_game in Hrun.
    destruct msg as [vpin vname|v| | | |ty]; try keep_world_ret Hrun.
    + destruct (negb (JS.truthy vpin) || negb (JS.truthy vname)).
      { rewrite send_eq in Hrun. keep_world_ret Hrun. }
      destruct (pin_differs vpin (pin (game w))).
      { rewrite send_eq in Hrun. keep_world_ret Hrun. }
      destruct (phase_eqb (state (game w)) lobby) eqn:Hst; cbn [negb] in Hrun.
      2:{ rewrite send_eq in Hrun. keep_world_ret Hrun. }
      apply phase_eqb_eq in Hst.
      destruct vname as [| | | |s]; try discriminate.
      destruct (String.eqb (JS.slice0 20 (JS.trim s)) "").
      { rewrite send_eq in Hrun. keep_world_ret Hrun. }
      destruct (name_taken (JS.slice0 20 (JS.trim s)) (players (game w))).
      { rewrite send_eq in Hrun. keep_world_ret Hrun. }
      unfold update_game in Hrun. rewrite send_eq, sendToHost_eq in Hrun.
      injection Hrun as _ <-. intros H. simpl in H. congruence.
    + destruct pid as [id|]; [|keep_world_ret Hrun].
      destruct (phase_eqb (state (game w)) question) eqn:Hst;
        [|keep_world_ret Hrun].
      apply phase_eqb_eq in Hst. cbn [negb] in Hrun.
      destruct (PMap.get id (players (game w))) as [p|];
        [|keep_world_ret Hrun].
      destruct (answer p); [keep_world_ret Hrun|].
      destruct (JS.parseInt v) as [n|]; [|keep_world_ret Hrun].
      destruct (n <? 1) eqn:Hlo; [keep_world_ret Hrun|].
      destruct (current_question (game w)) as [q|] eqn:Hq; [|discriminate].
      destruct (n >? Z.of_nat (List.length (options q))) eqn:Hhi;
        [keep_world_ret Hrun|].
      unfold update_game in Hrun. rewrite send_eq, sendToHost_eq in Hrun.
      simpl in Hrun.
      assert (Hrec : answers_inv
                (with_game
                   (fun g => set_answerCount (answerCount g + 1) g)
                   (with_game
                      (fun g =>
                         set_players
                           (PMap.set id
                              (with_answer p n (timeRemaining g))
                              (players g)) g) w))).
      { intros _. destruct (Hinv Hst) as (q' & Hq' & Hle & Hpos & Hall).
        rewrite Hq in Hq'. injection Hq' as <-.
        exists q. simpl. split; [exact Hq|]. split; [exact Hle|].
        split; [exact Hpos|].
        intros k p1 a Hin Hans. apply In_set in Hin.
        destruct Hin as [Heq|Hin]; [|eauto].
        injection Heq as _ ->. simpl in Hans. injection Hans as <-.
        split; [lia|]. exists (timeRemaining (game w)). simpl. split; [auto|lia]. }
      match type of Hrun with
      | context [if ?b then _ else _] => destruct b
      end.
      * destruct (revealAnswer rs _) as [[] w2|w2] eqn:Hrev in Hrun;
          [|discriminate].
        injection Hrun as _ <-.
        eapply answers_inv_revealAnswer; [|exact Hrev]. exact Hrec.
      * injection Hrun as _ <-. exact Hrec.
  - unfold player_close, bind, get_game, update_game in Hrun.
    destruct pid as [id|]; [|keep_world Hrun].
    destruct (phase_eqb (state (game w)) lobby) eqn:Hst; [|keep_world Hrun].
    apply phase_eqb_eq in Hst.
    destruct (PMap.get id (players (game w))).
    + rewrite sendToHost_eq in Hrun. injection Hrun as <-.
      intros H. simpl in H. congruence.
    + injection Hrun as <-. intros H. simpl in H. congruence.
  - destruct (existsb (Nat.eqb h) (intervals w)); [|keep_world Hrun].
    unfold tick, bind, update_game, get_game in Hrun.
    rewrite broadcast_eq in Hrun. simpl in Hrun.
    destruct (timeRemaining (game w) - 1 <=? 0) eqn:Hzero.
    + destruct (timer (game w)) as [h0|];
        unfold clearInterval, ret in Hrun; simpl in Hrun;
        apply state_revealAnswer in Hrun;
        destruct Hrun as [[_ Hrev] | [Hrev ->]]; intros H; simpl in *;
        congruence.
    + injection Hrun as <-. intros H. simpl in H.
      destruct (Hinv H) as (q & Hq & Hle & Hpos & Hall).
      exists q. simpl. split; [exact Hq|]. split; [lia|]. split; [lia|].
      intros k p a Hin Hans.
      destruct (Hall k p a Hin Hans) as [Ha (r & Hr & Hb)].
      split; [exact Ha|]. exists r. split; [exact Hr | lia].
  - unfold csv_changed, bind, get_game in Hrun.
    destruct csv as [rows|]; [|keep_world Hrun].
    simpl in Hrun.
    destruct (phase_eqb (state (game w)) idle
              || phase_eqb (state (game w)) lobby) eqn:Hst.
    + injection Hrun as <-. intros H. simpl in H.
      apply orb_true_iff in Hst.
      destruct Hst as [Hst|Hst]; apply phase_eqb_eq in Hst; congruence.
    + injection Hrun as <-. exact Hinv.
Qed.

(** In every world the server reaches, the recorded answers are
    options of the question, given within its time limit. *)
Lemma reachable_answers_inv (qs : list quiz_question) (w : world) :
  reachable qs w -> answers_inv w.
Proof.
  induction 1 as [|rs e w w' _ IH Hstep].
  - intros H. discriminate H.
  - eapply answers_inv_react; eauto.
Qed.

(** ** Scoring *)

(** [round_div n d] is the integer nearest to [n / d], a tie going up. *)
Lemma round_div_nearest (n d : Z) :
  0 < d ->
  2 * d * round_div n d - d <= 2 * n < 2 * d * round_div n d + d.
Proof.
  intros Hd. unfold round_div.
  pose proof (Z.div_mod (2 * n + d) (2 * d) ltac:(lia)) as Hdm.
  pose proof (Z.mod_pos_bound (2 * n + d) (2 * d) ltac:(lia)) as Hb.
  lia.
Qed.

Lemma bonus_exact_below_400 :
  forallb bonus_exact_at (Z_range 1 399) = true.
Proof. vm_compute. reflexivity. Qed.

(** For a time limit of at most 399 seconds the binary64 evaluation of
    the bonus is the exact rounding of [1000 * a / t]. *)
Lemma timeBonus_exact (a t : Z) :
  1 <= t <= 399 -> 0 <= a <= t ->
  timeBonus (Some a) t = round_div (1000 * a) t.
Proof.
  intros Ht Ha.
  pose proof bonus_exact_below_400 as H.
  rewrite forallb_forall in H.
  specialize (H t (Z_range_In 1 399 t ltac:(lia))).
  unfold bonus_exact_at in H. rewrite forallb_forall in H.
  specialize (H a (Z_range_In 0 (t + 1) a ltac:(lia))).
  now apply Z.eqb_eq.
Qed.

Lemma round_div_full (t : Z) : 0 < t -> round_div (1000 * t) t = 1000.
Proof.
  intros Ht. unfold round_div.
  replace (2 * (1000 * t) + t) with (1000 * (2 * t) + t) by lia.
  rewrite Z.div_add_l by lia. rewrite Z.div_small by lia. lia.
Qed.

Lemma round_div_zero (t : Z) : 0 < t -> round_div (1000 * 0) t = 0.
Proof.
  intros Ht. unfold round_div. apply Z.div_small. lia.
Qed.

(** The claim of C1 fails at a time limit of 400 seconds.  Ann has the
    right answer, given when 201 of the 400 seconds remained; the
    nearest integer to [1000 * 201 / 400 = 502.5], a tie going up, is
    503, but the doubles [(201 / 400) * 1000] give 502.49999999999994
    and the reveal awards 1502 points. *)
Lemma reveal_award_at_400_seconds :
  exists q p p',
    state (game slow_answered) = question /\
    current_question (game slow_answered) = Some q /\
    timeLimit q = 400 /\ correct q = Some 2 /\
    PMap.get 1 (players (game slow_answered)) = Some p /\
    answer p = Some 2 /\ answerTime p = Some 201 /\
    PMap.get 1
      (players (game (final (revealAnswer (fun _ => 1) slow_answered))))
    = Some p' /\
    lastPoints p' = 1502 /\
    lastPoints p' <> 1000 + round_div (1000 * 201) 400.
Proof.
  do 3 eexists.
  repeat (split; [vm_compute; reflexivity|]).
  vm_compute. discriminate.
Qed.

Lemma score_player_points (q : quiz_question) (p : player) :
  score (score_player q p) = score p + lastPoints (score_player q p) /\
  lastPoints (score_player q p)
  = match answer p with
    | Some a =>
        if answer_is a (correct q)
        then 1000 + timeBonus (answerTime p) (timeLimit q)
        else 0
    | None => 0
    end.
Proof.
  unfold score_player. destruct (answer p) as [a|]; simpl; [|lia].
  destruct (answer_is a (correct q)); simpl; lia.
Qed.

Lemma answer_is_true (a : Z) (c : option Z) :
  answer_is a c = true <-> c = Some a.
Proof.
  unfold answer_is. destruct c as [c|]; [|split; discriminate].
  rewrite Z.eqb_eq. split; congruence.
Qed.

Lemma get_In (k : nat) (p : player) (m : player_map) :
  PMap.get k m = Some p -> In (k, p) m.
Proof.
  induction m as [|[k' p'] m IH]; simpl; [discriminate|].
  destruct (Nat.eqb k k') eqn:E.
  - apply Nat.eqb_eq in E. subst k'. intros H. injection H as ->. now left.
  - intros H. right. auto.
Qed.

(** ** The double of a safe integer *)

Lemma digits2_pos_bounds (p : positive) :
  2 ^ (Z.pos (digits2_pos p) - 1) <= Z.pos p < 2 ^ Z.pos (digits2_pos p).
Proof.
  induction p as [p IH|p IH|]; cbn [digits2_pos].
  - rewrite Pos2Z.inj_succ.
    replace (Z.succ (Z.pos (digits2_pos p)) - 1) with (Z.pos (digits2_pos p)) by lia.
    rewrite Z.pow_succ_r by lia.
    replace (Z.pos (digits2_pos p)) with (Z.pos (digits2_pos p) - 1 + 1) at 1 by lia.
    rewrite Z.pow_add_r by lia. change (2 ^ 1) with 2. lia.
  - rewrite Pos2Z.inj_succ.
    replace (Z.succ (Z.pos (digits2_pos p)) - 1) with (Z.pos (digits2_pos p)) by lia.
    rewrite Z.pow_succ_r by lia.
    replace (Z.pos (digits2_pos p)) with (Z.pos (digits2_pos p) - 1 + 1) at 1 by lia.
    rewrite Z.pow_add_r by lia. change (2 ^ 1) with 2. lia.
  - simpl. lia.
Qed.

Lemma digits2_pos_shift (p d : positive) :
  digits2_pos (Pos.iter xO p d) = (digits2_pos p + d)%positive.
Proof.
  induction d as [|d IH] using Pos.peano_ind.
  - simpl. lia.
  - rewrite Pos.iter_succ. cbn [digits2_pos]. rewrite IH. lia.
Qed.

(** The double of a safe integer other than 0 is a finite number with
    the sign of the integer. *)
Lemma float_of_Z_finite (t : Z) :
  t <> 0 -> Z.abs t < 2 ^ 53 ->
  exists m e, Prim2SF (JS.float_of_Z t) = S754_finite (t <? 0) m e.
Proof.
  intros Hnz Ht.
  assert (Hpos : forall p,
            Z.pos p < 2 ^ 53 ->
            exists m e,
              Prim2SF (PrimFloat.of_uint63 (Uint63.of_Z (Z.pos p)))
              = S754_finite false m e).
  { intros p Hp.
    rewrite of_uint63_spec, Uint63.of_Z_spec.
    rewrite Z.mod_small
      by (split; [lia|]; eapply Z.lt_trans; [apply Hp | reflexivity]).
    unfold binary_normalize, binary_round.
    pose proof (digits2_pos_bounds p) as Hd.
    assert (Hd53 : Z.pos (digits2_pos p) <= 53).
    { destruct (Z.le_gt_cases (Z.pos (digits2_pos p)) 53) as [L|L];
        [exact L|].
      assert (2 ^ 53 <= 2 ^ (Z.pos (digits2_pos p) - 1))
        by (apply Z.pow_le_mono_r; lia).
      lia. }
    set (d := digits2_pos p) in *.
    assert (Hal : exists mz,
              shl_align p 0 (fexp prec emax (Z.pos d + 0))
              = (mz, Z.pos d - 53) /\
              Z.pos (digits2_pos mz) = 53).
    { unfold shl_align, fexp, SpecFloat.emin, prec, emax.
      replace (Z.max (Z.pos d + 0 - 53) (3 - 1024 - 53)) with (Z.pos d - 53)
        by lia.
      rewrite Z.sub_0_r.
      destruct (Z.pos d - 53) as [|q|q] eqn:E; try lia.
      - exists p. split; [reflexivity|]. fold d. lia.
      - exists (Pos.iter xO p q). split; [reflexivity|].
        rewrite digits2_pos_shift. fold d. lia. }
    destruct Hal as (mz & -> & Hmz).
    unfold binary_round_aux, shr_fexp, Zdigits2, fexp, SpecFloat.emin, prec,
      emax.
    rewrite Hmz.
    replace (Z.max (53 + (Z.pos d - 53) - 53) (3 - 1024 - 53)
             - (Z.pos d - 53)) with 0 by lia.
    cbn [shr shr_record_of_loc shr_m loc_of_shr_record round_nearest_even
         Zdigits2].
    rewrite Hmz.
    replace (Z.max (53 + (Z.pos d - 53) - 53) (3 - 1024 - 53)
             - (Z.pos d - 53)) with 0 by lia.
    cbn [shr shr_record_of_loc shr_m].
    replace (Z.pos d - 53 <=? 1024 - 53) with true by lia.
    eauto. }
  unfold JS.float_of_Z. destruct t as [|p|p]; [contradiction| |].
  - apply Hpos. exact Ht.
  - change (Z.neg p <? 0) with true. cbv iota.
    rewrite FloatAxioms.opp_spec. change (- Z.neg p) with (Z.pos p).
    destruct (Hpos p Ht) as (m & e & ->). simpl. eauto.
Qed.

(** A finite number divided by itself is 1. *)
Lemma SFdiv_self (s : bool) (m : positive) (e : Z) :
  SF64div (S754_finite s m e) (S754_finite s m e)
  = S754_finite false 4503599627370496 (-52).
Proof.
  unfold SF64div, SFdiv, SFdiv_core_binary.
  replace (Zdigits2 (Z.pos m) + e - (Zdigits2 (Z.pos m) + e)) with 0 by lia.
  rewrite Z.sub_diag.
  change (Z.min (fexp prec emax 0) 0) with (-53).
  change (0 - -53) with 53.
  cbv iota.
  assert (H : Z.div_eucl (Z.shiftl (Z.pos m) 53) (Z.pos m) = (2 ^ 53, 0)).
  { rewrite Z.shiftl_mul_pow2 by lia.
    pose proof (Z.div_eucl_eq (Z.pos m * 2 ^ 53) (Z.pos m) ltac:(lia)) as Heq.
    pose proof (Z.mod_pos_bound (Z.pos m * 2 ^ 53) (Z.pos m) ltac:(lia)) as Hb.
    unfold Z.modulo in Hb.
    destruct (Z.div_eucl (Z.pos m * 2 ^ 53) (Z.pos m)) as [q r].
    assert (q = 2 ^ 53) by nia. subst q. f_equal. lia. }
  rewrite H.
  assert (L : new_location (Z.pos m) 0 = loc_Exact).
  { unfold new_location. destruct (Z.even (Z.pos m)); reflexivity. }
  rewrite L. destruct s; vm_compute; reflexivity.
Qed.

(** With a time limit that is a safe integer, an answer given at once
    earns the bonus 1000 and an answer with no time left the bonus 0. *)
Lemma timeBonus_ends (t : Z) :
  t <> 0 -> Z.abs t < 2 ^ 53 ->
  timeBonus (Some t) t = 1000 /\ timeBonus (Some 0) t = 0.
Proof.
  intros Hnz Ht. destruct (float_of_Z_finite t Hnz Ht) as (m & e & Hx).
  unfold timeBonus, JS.Math_round. split.
  - rewrite FloatAxioms.mul_spec, FloatAxioms.div_spec, Hx, SFdiv_self.
    vm_compute. reflexivity.
  - rewrite FloatAxioms.mul_spec, FloatAxioms.div_spec, Hx.
    destruct (t <? 0); vm_compute; reflexivity.
Qed.

(** C1, amended: at the reveal of a question every player gets the
    points added to the score; the points are 0 for a player without an
    answer or with an answer that is not the correct index; for the
    correct index, an answer time [r] and a time limit among the safe
    integers, they are 1000 plus [Math.round((r / limit) * 1000)] as
    binary64 evaluates it: 2000 when [r] is the limit and 1000 when [r]
    is 0, whatever the limit (not 0); and with a limit from 1 to 399
    seconds and [r] from 0 to the limit this is 1000 plus the integer
    nearest to [1000 * r / limit] (a tie going up).  In a world the
    server reaches, the answer time of a recorded answer is the
    countdown value at which it was given, from 1 to the limit. *)
Theorem reveal_awards (rs : conn -> Z) (w : world) (q : quiz_question) :
  state (game w) = question ->
  current_question (game w) = Some q ->
  exists w',
    revealAnswer rs w = Done tt w' /\
    forall id p,
      PMap.get id (players (game w)) = Some p ->
      exists p',
        PMap.get id (players (game w')) = Some p' /\
        score p' = score p + lastPoints p' /\
        (answer p = None -> lastPoints p' = 0) /\
        (forall a,
           answer p = Some a -> correct q <> Some a -> lastPoints p' = 0) /\
        (forall a r,
           answer p = Some a -> correct q = Some a ->
           answerTime p = Some r ->
           Z.abs r < 2 ^ 53 -> Z.abs (timeLimit q) < 2 ^ 53 ->
           lastPoints p'
           = 1000
             + JS.Math_round
                 (PrimFloat.mul
                    (PrimFloat.div (JS.float_of_Z r)
                       (JS.float_of_Z (timeLimit q)))
                    (JS.float_of_Z 1000)) /\
           (timeLimit q <> 0 ->
            (r = timeLimit q -> lastPoints p' = 2000) /\
            (r = 0 -> lastPoints p' = 1000)) /\
           (1 <= timeLimit q <= 399 -> 0 <= r <= timeLimit q ->
            lastPoints p' = 1000 + round_div (1000 * r) (timeLimit q))) /\
        (forall qs a,
           reachable qs w -> answer p = Some a -> 1 <= timeLimit q ->
           exists r, answerTime p = Some r /\ 1 <= r <= timeLimit q).
Proof.
  intros Hst Hq. rewrite (revealAnswer_eq rs w q Hst Hq).
  eexists. split; [reflexivity|].
  intros id p Hget. exists (score_player q p). simpl.
  rewrite get_update_all, Hget.
  destruct (score_player_points q p) as [Hscore Hpoints].
  split; [reflexivity|]. split; [exact Hscore|].
  rewrite Hpoints. split; [|split; [|split]].
  - now intros ->.
  - intros a -> Hwrong.
    destruct (answer_is a (correct q)) eqn:E; [|reflexivity].
    apply answer_is_true in E. contradiction.
  - intros a r -> Hright -> Hr Ht.
    apply answer_is_true in Hright. rewrite Hright.
    split; [reflexivity|]. split.
    + intros Hnz.
      destruct (timeBonus_ends (timeLimit q) Hnz Ht) as [Hfull Hzero].
      split; intros ->; [rewrite Hfull | rewrite Hzero]; reflexivity.
    + intros Hlim Hin. rewrite timeBonus_exact by assumption. reflexivity.
  - intros qs a Hreach Hans Ht.
    destruct (reachable_answers_inv qs w Hreach Hst)
      as (q' & Hq' & Hle & Hpos & Hall).
    rewrite Hq in Hq'. injection Hq' as <-.
    destruct (Hall id p a (get_In id p _ Hget) Hans) as [_ (r & Hr & Hb)].
    exists r. split; [exact Hr|]. specialize (Hpos Ht). lia.
Qed.

Lemma reveal_awards_witness :
  exists w' p',
    revealAnswer (fun _ => 1) demo_answered = Done tt w' /\
    PMap.get 1 (players (game w')) = Some p' /\
    lastPoints p' = 2000.
Proof.
  destruct (reveal_awards (fun _ => 1) demo_answered
              (load_row (hd (Build_csv_row "" "" "" "" "" "" "" "") demo_rows)))
    as (w' & Hrun & Hall).
  - vm_compute. reflexivity.
  - vm_compute. reflexivity.
  - destruct (Hall 1%nat
                (with_answer (new_player "Ann" 11%nat) 2 20))
      as (p' & Hget & _ & _ & _ & Hright & _).
    + vm_compute. reflexivity.
    + exists w', p'. split; [exact Hrun|]. split; [exact Hget|].
      destruct (Hright 2 20) as (_ & Hends & _);
        [reflexivity | reflexivity | reflexivity | reflexivity | reflexivity|].
      destruct Hends as [Hfull _]; [vm_compute; discriminate|].
      apply Hfull. reflexivity.
Defined.

(** ** Reveal happens once *)

Lemma revealAnswer_twice (rs : conn -> Z) (w w' : world) :
  revealAnswer rs w = Done tt w' -> revealAnswer rs w' = Done tt w'.
Proof.
  intros Hrun. apply revealAnswer_other_phase.
  destruct (phase_eqb (state (game w)) question) eqn:Hst.
  - apply phase_eqb_eq in Hst.
    destruct (current_question (game w)) as [q|] eqn:Hq.
    + rewrite (revealAnswer_eq rs w q Hst Hq) in Hrun.
      injection Hrun as <-. simpl. discriminate.
    + destruct (revealAnswer_throws rs w Hst Hq) as [w0 Hw0]. congruence.
  - apply phase_eqb_neq in Hst.
    rewrite revealAnswer_other_phase in Hrun by exact Hst.
    now injection Hrun as <-.
Qed.

(** C2: once the phase is not [question], an invocation of
    [revealAnswer] returns at its first line and leaves the world (game,
    intervals, outbox) as it found it, so nothing is scored or sent
    again; an [answer] message, which is where the all-answered check
    sits, is dropped before that check; and in a world the server
    reaches no countdown interval is left to tick. *)
Theorem revealAnswer_noop_outside_question (rs : conn -> Z) (w : world) :
  state (game w) <> question ->
  revealAnswer rs w = Done tt w /\
  (forall c playerId v,
     player_message rs c playerId (Answer v) w = Done playerId w) /\
  (forall qs h, reachable qs w -> react rs (Tick h) w = Done tt w).
Proof.
  intros Hst. split; [now apply revealAnswer_other_phase|]. split.
  - intros c playerId v. apply phase_eqb_neq in Hst.
    unfold player_message, bind, get_game. rewrite Hst.
    now destruct playerId.
  - intros qs h Hreach. apply reachable_inv in Hreach.
    destruct Hreach as [[Hi Ht] _]. specialize (Ht Hst).
    simpl. rewrite Hi, Ht. reflexivity.
Qed.

Lemma revealAnswer_noop_witness :
  revealAnswer (fun _ => 1) demo_reveal = Done tt demo_reveal /\
  react (fun _ => 1) (Tick 0%nat) demo_reveal = Done tt demo_reveal.
Proof.
  destruct (revealAnswer_noop_outside_question (fun _ => 1) demo_reveal)
    as (Hrev & _ & Htick).
  - vm_compute. discriminate.
  - split; [exact Hrev|]. apply (Htick []).
    apply reachable_run;
      [apply reachable_run; [apply reachable_run; [constructor|] |] |];
      vm_compute; reflexivity.
Defined.

(** ** The model on small inputs *)

Example parseInt_examples :
  JS.parseInt (JS.JStr "2") = Some 2 /\
  JS.parseInt (JS.JStr "  3abc") = Some 3 /\
  JS.parseInt (JS.JStr "-4") = Some (-4) /\
  JS.parseInt (JS.JNum 12) = Some 12 /\
  JS.parseInt (JS.JStr "x1") = None /\
  JS.parseInt JS.JUndefined = None /\
  JS.parseInt (JS.JStr "") = None.
Proof. repeat split; reflexivity. Qed.

Example string_examples :
  JS.trim "  Ann  " = "Ann" /\ JS.trim "   " = "" /\ JS.trim "a b " = "a b" /\
  JS.toLowerCase "AnN 9" = "ann 9" /\
  JS.string_of_Z 0 = "0" /\ JS.string_of_Z 1234 = "1234" /\
  JS.string_of_Z (-50) = "-50".
Proof. repeat split; reflexivity. Qed.

Example Math_round_examples :
  JS.Math_round 62.5%float = 63 /\ JS.Math_round 2.25%float = 2 /\
  JS.Math_round (-2.5)%float = -2 /\ JS.Math_round 1000%float = 1000 /\
  JS.Math_round 0%float = 0 /\ JS.Math_floor 9999.75%float = 9999 /\
  timeBonus (Some 20) 20 = 1000 /\ timeBonus (Some 0) 20 = 0 /\
  timeBonus (Some 1) 16 = 63 /\ timeBonus (Some 201) 400 = 502.
Proof. repeat split; vm_compute; reflexivity. Qed.

(** At the smallest and the largest value of [Math.random()] the
    binary64 evaluation of the join code gives the ends of the range,
    and it agrees with the exact one on a grid of 1024 draws. *)
Example draw_pin_binary64_ends :
  draw_pin_binary64 0 = 1000 /\
  draw_pin_binary64 (2 ^ 53 - 1) = 9999 /\
  forallb (fun k => draw_pin_binary64 (k * 2 ^ 43) =? draw_pin (k * 2 ^ 43))
    (Z_range 0 1024) = true.
Proof. repeat split; vm_compute; reflexivity. Qed.

(** [loadQuestions] never yields a zero time limit. *)
Lemma loadQuestions_timeLimit (rows : list csv_row) (q : quiz_question) :
  In q (loadQuestions rows) -> timeLimit q <> 0.
Proof.
  unfold loadQuestions. rewrite in_map_iff. intros (r & <- & _).
  unfold load_row. simpl.
  destruct (JS.parseInt_string (time_limit r)) as [n|]; [|discriminate].
  destruct (n =? 0) eqn:E; [discriminate|]. now apply Z.eqb_neq.
Qed.

(** The session of the specification: two players, both right, Ann
    faster; the distribution counts both answers and Ann leads. *)
Example two_players_one_question :
  state (game demo_both_right) = reveal /\
  getLeaderboard (game demo_both_right) = [("Ann", 2000); ("Bob", 1850)] /\
  distributions_sent demo_both_right = [[Some 0; Some 2; Some 0; Some 0]].
Proof. repeat split; vm_compute; reflexivity. Qed.

(** * Further properties of the server *)

(** ** The question file *)

Lemma append_assoc (a b c : string) : (a ++ b) ++ c = a ++ (b ++ c).
Proof. induction a as [|ch a IH]; simpl; [reflexivity | now rewrite IH]. Qed.

Lemma append_nil_r (a : string) : a ++ "" = a.
Proof. induction a as [|ch a IH]; simpl; [reflexivity | now rewrite IH]. Qed.

Lemma concat_snoc (sep : string) (l : list string) (a b : string) :
  String.concat sep (l ++ [a; b])
  = String.concat sep (l ++ [a]) ++ sep ++ b.
Proof.
  induction l as [|x l IH]; [reflexivity|].
  destruct l as [|y l].
  - cbn [app String.concat]. now rewrite !append_assoc.
  - cbn [app String.concat] in *. rewrite IH. now rewrite !append_assoc.
Qed.

Lemma concat_snoc_append (sep : string) (l : list string) (a b : string) :
  String.concat sep (l ++ [a ++ b]) = String.concat sep (l ++ [a]) ++ b.
Proof.
  induction l as [|x l IH]; [reflexivity|].
  destruct l as [|y l].
  - cbn [app String.concat]. now rewrite !append_assoc.
  - cbn [app String.concat] in *. rewrite IH. now rewrite !append_assoc.
Qed.

(** Outside quotes, on a text without quotes, the loop cuts at the
    commas and nowhere else: gluing the fields with commas gives the
    text back. *)
Lemma parseCSVLine_loop_plain (line : string) :
  quote_free line = true ->
  forall result current,
    String.concat "," (parseCSVLine_loop line result current false)
    = String.concat "," (result ++ [current]) ++ line.
Proof.
  induction line as [|ch line IH]; intros Hq result current.
  - cbn [parseCSVLine_loop]. now rewrite append_nil_r.
  - cbn [quote_free] in Hq. apply andb_true_iff in Hq. destruct Hq as [Hch Hq].
    apply negb_true_iff in Hch. cbn [parseCSVLine_loop]. rewrite Hch.
    destruct (Ascii.eqb ch ",") eqn:Hc; cbn [andb negb].
    + apply Ascii.eqb_eq in Hc. subst ch. rewrite (IH Hq).
      rewrite <- app_assoc. cbn [app]. rewrite concat_snoc.
      now rewrite !append_assoc.
    + rewrite (IH Hq). rewrite concat_snoc_append. now rewrite append_assoc.
Qed.

(** No field that the loop closes holds a quote character. *)
Lemma parseCSVLine_loop_quote_free (line : string) :
  forall result current inQuotes,
    Forall (fun f => quote_free f = true) result ->
    quote_free current = true ->
    Forall (fun f => quote_free f = true)
      (parseCSVLine_loop line result current inQuotes).
Proof.
  induction line as [|ch line IH]; intros result current inQuotes Hr Hc.
  - cbn [parseCSVLine_loop]. apply Forall_app. split; [exact Hr|].
    now constructor.
  - cbn [parseCSVLine_loop].
    destruct (Ascii.eqb ch dquote) eqn:Hch; [now apply IH|].
    destruct (Ascii.eqb ch "," && negb inQuotes).
    + apply IH; [|reflexivity]. apply Forall_app. split; [exact Hr|].
      now constructor.
    + apply IH; [exact Hr|].
      clear - Hc Hch. induction current as [|c current IHc]; simpl in *.
      * now rewrite Hch.
      * apply andb_true_iff in Hc. destruct Hc as [H1 H2].
        rewrite H1. simpl. now apply IHc.
Qed.

Lemma parseCSVLine_loop_length (line : string) :
  forall result current inQuotes,
    (List.length result < List.length (parseCSVLine_loop line result current inQuotes))%nat.
Proof.
  induction line as [|ch line IH]; intros result current inQuotes.
  - cbn [parseCSVLine_loop]. rewrite length_app. simpl. lia.
  - cbn [parseCSVLine_loop].
    destruct (Ascii.eqb ch dquote); [apply IH|].
    destruct (Ascii.eqb ch "," && negb inQuotes); [|apply IH].
    eapply Nat.le_lt_trans; [|apply IH]. rewrite length_app. simpl. lia.
Qed.

(** Inside quotes a text without quotes is taken over as it is, commas
    included. *)
Lemma parseCSVLine_loop_inside (field rest : string) :
  quote_free field = true ->
  forall result current,
    parseCSVLine_loop (field ++ rest) result current true
    = parseCSVLine_loop rest result (current ++ field) true.
Proof.
  induction field as [|ch field IH]; intros Hq result current.
  - simpl. now rewrite append_nil_r.
  - cbn [quote_free] in Hq. apply andb_true_iff in Hq. destruct Hq as [Hch Hq].
    apply negb_true_iff in Hch.
    cbn [append parseCSVLine_loop]. rewrite Hch.
    rewrite andb_false_r. rewrite (IH Hq). now rewrite append_assoc.
Qed.

Lemma parseCSVLine_loop_quoted (field rest : string) :
  quote_free field = true ->
  forall result current,
    parseCSVLine_loop (quoted field ++ rest) result current false
    = parseCSVLine_loop rest result (current ++ field) false.
Proof.
  intros Hq result current. unfold quoted.
  cbn [append parseCSVLine_loop]. rewrite Ascii.eqb_refl. cbn [negb].
  rewrite append_assoc, (parseCSVLine_loop_inside field _ Hq).
  cbn [append parseCSVLine_loop]. rewrite Ascii.eqb_refl. reflexivity.
Qed.

Lemma parseCSVLine_loop_quoted_fields (fields : list string) :
  Forall (fun f => quote_free f = true) fields ->
  fields <> [] ->
  forall result,
    parseCSVLine_loop (String.concat "," (map quoted fields)) result "" false
    = (result ++ fields)%list.
Proof.
  induction fields as [|f fields IH]; intros Hq Hne result; [congruence|].
  inversion Hq as [|? ? Hf Hfs]; subst.
  destruct fields as [|g fields].
  - cbn [map String.concat].
    rewrite <- (append_nil_r (quoted f)).
    rewrite (parseCSVLine_loop_quoted f "" Hf). reflexivity.
  - cbn [map String.concat] in *.
    rewrite (parseCSVLine_loop_quoted f _ Hf).
    cbn [append parseCSVLine_loop]. 
    replace (Ascii.eqb "," dquote) with false by reflexivity.
    rewrite Ascii.eqb_refl. cbn [andb negb].
    rewrite IH by (auto; discriminate).
    rewrite <- app_assoc. reflexivity.
Qed.

(** A carriage return at the end of a line ends up at the end of the
    last field. *)
Lemma parseCSVLine_loop_cr (line : string) :
  forall result current inQuotes,
    parseCSVLine_loop (line ++ String carriage_return "") result current
      inQuotes
    = (removelast (parseCSVLine_loop line result current inQuotes)
       ++ [(last (parseCSVLine_loop line result current inQuotes) ""
            ++ String carriage_return "")%string])%list.
Proof.
  induction line as [|ch line IH]; intros result current inQuotes.
  - cbn [append parseCSVLine_loop].
    replace (Ascii.eqb carriage_return dquote) with false by reflexivity.
    replace (Ascii.eqb carriage_return ",") with false by reflexivity.
    cbn [andb]. now rewrite removelast_last, last_last.
  - cbn [append parseCSVLine_loop].
    destruct (Ascii.eqb ch dquote); [apply IH|].
    destruct (Ascii.eqb ch "," && negb inQuotes); apply IH.
Qed.

Lemma parseCSVLine_cr_nth (line : string) (i : nat) :
  JS.trim (nth i (parseCSVLine (line ++ String carriage_return "")) "")
  = JS.trim (nth i (parseCSVLine line) "").
Proof.
  unfold parseCSVLine. rewrite parseCSVLine_loop_cr.
  set (F := parseCSVLine_loop line [] "" false).
  assert (HF : F <> []).
  { intros E. pose proof (parseCSVLine_loop_length line [] "" false) as H.
    fold F in H. rewrite E in H. simpl in H. lia. }
  rewrite (app_removelast_last "" HF) at 3.
  destruct (Nat.lt_ge_cases i (List.length (removelast F))) as [Hlt|Hge].
  - now rewrite !app_nth1.
  - rewrite !app_nth2 by lia.
    destruct (i - List.length (removelast F))%nat as [|[|k]]; simpl.
    + apply trim_cr.
    + reflexivity.
    + reflexivity.
Qed.

Lemma fill_object_ext (headers : list string) (v1 v2 : list string) :
  (forall i, JS.trim (nth i v1 "") = JS.trim (nth i v2 "")) ->
  forall i obj, fill_object headers i v1 obj = fill_object headers i v2 obj.
Proof.
  intros H. induction headers as [|h headers IH]; intros i obj; simpl.
  - reflexivity.
  - now rewrite H, IH.
Qed.

Lemma fill_object_headers (h1 h2 : list string) :
  map JS.trim h1 = map JS.trim h2 ->
  forall i vals obj, fill_object h1 i vals obj = fill_object h2 i vals obj.
Proof.
  revert h2. induction h1 as [|a h1 IH]; intros [|b h2] H i vals obj;
    try discriminate; [reflexivity|].
  simpl in *. injection H as Hab Ht. rewrite Hab. now apply IH.
Qed.

Lemma map_trim_nth (l1 l2 : list string) :
  List.length l1 = List.length l2 ->
  (forall i, JS.trim (nth i l1 "") = JS.trim (nth i l2 "")) ->
  map JS.trim l1 = map JS.trim l2.
Proof.
  revert l2. induction l1 as [|a l1 IH]; intros [|b l2] Hlen H;
    try discriminate; [reflexivity|].
  simpl. f_equal; [exact (H 0%nat)|].
  apply IH; [simpl in Hlen; lia|]. intros i. exact (H (S i)).
Qed.

Lemma parseCSVLine_cr_length (line : string) :
  List.length (parseCSVLine (line ++ String carriage_return ""))
  = List.length (parseCSVLine line).
Proof.
  unfold parseCSVLine. rewrite parseCSVLine_loop_cr.
  set (F := parseCSVLine_loop line [] "" false).
  assert (HF : F <> []).
  { intros E. pose proof (parseCSVLine_loop_length line [] "" false) as H.
    fold F in H. rewrite E in H. simpl in H. lia. }
  rewrite (app_removelast_last "" HF) at 3.
  now rewrite !length_app.
Qed.

(** ** Objects *)

Lemma obj_get_set (k v : string) (obj : js_object) :
  k <> "__proto__" -> obj_get k (obj_set k v obj) = Some v.
Proof.
  intros Hk. unfold obj_set. apply String.eqb_neq in Hk. rewrite Hk.
  induction obj as [|[k' v'] obj IH]; simpl.
  - now rewrite String.eqb_refl.
  - destruct (String.eqb k k') eqn:E; simpl; rewrite E; auto.
Qed.

Lemma obj_get_set_other (k k' v : string) (obj : js_object) :
  k <> k' -> obj_get k (obj_set k' v obj) = obj_get k obj.
Proof.
  intros Hne. unfold obj_set.
  destruct (String.eqb k' "__proto__"); [reflexivity|].
  induction obj as [|[k0 v0] obj IH]; simpl.
  - apply String.eqb_neq in Hne. now rewrite Hne.
  - destruct (String.eqb k' k0) eqn:E; simpl.
    + apply String.eqb_eq in E. subst k0.
      apply String.eqb_neq in Hne. now rewrite Hne.
    + now rewrite IH.
Qed.





Lemma fill_object_present (k : string) (headers : list string) :
  k <> "__proto__" ->
  forall i vals obj,
    In k (map JS.trim headers) \/ obj_get k obj <> None ->
    obj_get k (fill_object headers i vals obj) <> None.
Proof.
  intros Hp.
  induction headers as [|h headers IH]; intros i vals obj H; simpl in *.
  - destruct H as [[]|H]; exact H.
  - apply IH. destruct H as [[H|H]|H].
    + right. subst k. rewrite obj_get_set by exact Hp. discriminate.
    + now left.
    + right. destruct (String.eqb k (JS.trim h)) eqn:E.
      * apply String.eqb_eq in E. subst k.
        rewrite obj_get_set by exact Hp. discriminate.
      * apply String.eqb_neq in E. now rewrite obj_get_set_other.
Qed.

(** On a text without quotes the fields that the loop closes outside
    quotes hold no comma. *)
Lemma parseCSVLine_loop_comma_free (line : string) :
  quote_free line = true ->
  forall result current,
    Forall (fun f => comma_free f = true) result ->
    comma_free current = true ->
    Forall (fun f => comma_free f = true)
      (parseCSVLine_loop line result current false).
Proof.
  induction line as [|ch line IH]; intros Hq result current Hr Hc.
  - cbn [parseCSVLine_loop]. apply Forall_app. split; [exact Hr|].
    now constructor.
  - cbn [quote_free] in Hq. apply andb_true_iff in Hq. destruct Hq as [Hch Hq].
    apply negb_true_iff in Hch. cbn [parseCSVLine_loop]. rewrite Hch.
    destruct (Ascii.eqb ch ",") eqn:Hcomma; cbn [andb negb].
    + apply (IH Hq); [|reflexivity]. apply Forall_app. split; [exact Hr|].
      now constructor.
    + apply (IH Hq); [exact Hr|].
      clear - Hc Hcomma. induction current as [|c current IHc]; simpl in *.
      * now rewrite Hcomma.
      * apply andb_true_iff in Hc. destruct Hc as [H1 H2].
        rewrite H1. simpl. now apply IHc.
Qed.

(** X1: on a line without quote characters [parseCSVLine] cuts at the
    commas and only there: no field it returns holds a comma, and the
    fields glued with commas are the line. *)
Theorem parseCSVLine_plain_join (line : string) :
  quote_free line = true ->
  Forall (fun f => comma_free f = true) (parseCSVLine line) /\
  String.concat "," (parseCSVLine line) = line.
Proof.
  intros Hq. unfold parseCSVLine. split.
  - apply parseCSVLine_loop_comma_free; [exact Hq | constructor | reflexivity].
  - now rewrite (parseCSVLine_loop_plain line Hq [] "").
Qed.

Lemma parseCSVLine_plain_join_witness :
  Forall (fun f => comma_free f = true)
    (parseCSVLine "Sky is blue,tf,True,False,,,1,") /\
  String.concat "," (parseCSVLine "Sky is blue,tf,True,False,,,1,")
  = "Sky is blue,tf,True,False,,,1,".
Proof. apply parseCSVLine_plain_join. reflexivity. Defined.

(** X2: fields without quote characters, each written between quotes
    and separated by commas, are read back as they were, commas inside
    them included. *)
Theorem parseCSVLine_quoted_fields (fields : list string) :
  Forall (fun f => quote_free f = true) fields ->
  fields <> [] ->
  parseCSVLine (String.concat "," (map quoted fields)) = fields.
Proof.
  intros Hq Hne. unfold parseCSVLine.
  now rewrite (parseCSVLine_loop_quoted_fields fields Hq Hne []).
Qed.

Lemma parseCSVLine_quoted_fields_witness :
  parseCSVLine
    (String.concat "," (map quoted ["Largest of 1,000 and 999?"; ""; "1,000"]))
  = ["Largest of 1,000 and 999?"; ""; "1,000"].
Proof.
  apply parseCSVLine_quoted_fields.
  - repeat constructor.
  - discriminate.
Defined.

(** X3: [parseCSVLine] returns at least one field, and no field it
    returns holds a quote character: a quote only switches [inQuotes],
    so a doubled quote inside a quoted field is lost and the two halves
    are glued. *)
Theorem parseCSVLine_drops_quotes (line : string) :
  parseCSVLine line <> [] /\
  Forall (fun f => quote_free f = true) (parseCSVLine line) /\
  (forall a b,
     quote_free a = true -> quote_free b = true ->
     parseCSVLine (quoted a ++ quoted b) = [a ++ b]).
Proof.
  split; [|split].
  - intros E. pose proof (parseCSVLine_loop_length line [] "" false) as H.
    unfold parseCSVLine in E. rewrite E in H. simpl in H. lia.
  - apply parseCSVLine_loop_quote_free; [constructor | reflexivity].
  - intros a b Ha Hb. unfold parseCSVLine.
    rewrite (parseCSVLine_loop_quoted a _ Ha).
    rewrite <- (append_nil_r (quoted b)).
    rewrite (parseCSVLine_loop_quoted b "" Hb). reflexivity.
Qed.



(** X5: a carriage return at the end of the header line and of a data
    line (a file with Windows line ends) changes nothing in the object
    of the row. *)
Theorem row_object_carriage_return (header line : string) :
  row_object (parseCSVLine (header ++ String carriage_return ""))
    (line ++ String carriage_return "")
  = row_object (parseCSVLine header) line.
Proof.
  unfold row_object.
  rewrite (fill_object_headers
             (parseCSVLine (header ++ String carriage_return ""))
             (parseCSVLine header)).
  - apply fill_object_ext. intros i. apply parseCSVLine_cr_nth.
  - apply map_trim_nth.
    + apply parseCSVLine_cr_length.
    + intros i. apply parseCSVLine_cr_nth.
Qed.

Lemma obj_read_own (k : string) (obj : js_object) :
  obj_get k obj <> None -> exists v, obj_read k obj = own v.
Proof.
  unfold obj_read. destruct (obj_get k obj) as [v|]; [eauto | contradiction].
Qed.

Lemma csv_row_of_present (obj : js_object) :
  (forall k, In k columns -> obj_get k obj <> None) ->
  csv_row_of obj <> None.
Proof.
  intros H. unfold csv_row_of.
  destruct (obj_read_own "question" obj) as [v1 ->];
    [apply H; simpl; tauto|].
  destruct (obj_read_own "type" obj) as [v2 ->]; [apply H; simpl; tauto|].
  destruct (obj_read_own "option1" obj) as [v3 ->]; [apply H; simpl; tauto|].
  destruct (obj_read_own "option2" obj) as [v4 ->]; [apply H; simpl; tauto|].
  destruct (obj_read_own "option3" obj) as [v5 ->]; [apply H; simpl; tauto|].
  destruct (obj_read_own "option4" obj) as [v6 ->]; [apply H; simpl; tauto|].
  destruct (obj_read_own "correct" obj) as [v7 ->]; [apply H; simpl; tauto|].
  destruct (obj_read_own "time_limit" obj) as [v8 ->];
    [apply H; simpl; tauto|].
  discriminate.
Qed.

(** X6: when the first line of the file names the eight columns, in
    any order and with any spaces around the names, every further line
    gives an object in which all eight are defined, however many cells
    the line has. *)
Theorem parseCSV_rows_have_columns (raw : string) :
  incl columns
    (map JS.trim (parseCSVLine (hd "" (split_lines (JS.trim raw))))) ->
  List.length (parseCSV raw)
  = (List.length (split_lines (JS.trim raw)) - 1)%nat /\
  Forall (fun obj => csv_row_of obj <> None) (parseCSV raw).
Proof.
  intros Hcols. unfold parseCSV. split.
  - rewrite length_map. destruct (split_lines (JS.trim raw)); simpl; lia.
  - apply Forall_forall. intros obj Hobj. apply in_map_iff in Hobj.
    destruct Hobj as (line & <- & _).
    apply csv_row_of_present. intros k Hk.
    apply fill_object_present; [|left; now apply Hcols].
    intros ->. vm_compute in Hk.
    repeat (destruct Hk as [Hk|Hk]; [discriminate Hk|]). exact Hk.
Qed.

Lemma parseCSV_rows_have_columns_witness :
  List.length (parseCSV sample_csv) = 2%nat /\
  Forall (fun obj => csv_row_of obj <> None) (parseCSV sample_csv).
Proof.
  apply (parseCSV_rows_have_columns sample_csv).
  intros k Hk. vm_compute in Hk. vm_compute.
  repeat (destruct Hk as [<- | Hk]; [tauto|]). destruct Hk.
Defined.

(** X7: a question that [loadQuestions] builds has at most four
    options, none of them empty, in the order of their columns; its
    time limit is never 0: it is 20 when the cell does not start with a
    number or gives 0, and otherwise the number read, a negative one
    included (a number among the safe integers, which [parseInt]
    returns as it is written). *)
Theorem load_row_shape (r : csv_row) :
  (List.length (options (load_row r)) <= 4)%nat /\
  Forall (fun o => o <> "") (options (load_row r)) /\
  timeLimit (load_row r) <> 0 /\
  (JS.parseInt_string (time_limit r) = None \/
   JS.parseInt_string (time_limit r) = Some 0 ->
   timeLimit (load_row r) = 20) /\
  (forall n,
     JS.parseInt_string (time_limit r) = Some n -> n <> 0 ->
     Z.abs n < 2 ^ 53 ->
     timeLimit (load_row r) = n).
Proof.
  unfold load_row. cbn [options timeLimit]. split; [|split; [|split; [|split]]].
  - cbn [filter].
    destruct (negb (String.eqb (option1 r) "")),
             (negb (String.eqb (option2 r) "")),
             (negb (String.eqb (option3 r) "")),
             (negb (String.eqb (option4 r) "")); simpl; lia.
  - apply Forall_forall. intros o Ho. apply filter_In in Ho.
    destruct Ho as [_ Ho]. apply negb_true_iff in Ho.
    now apply String.eqb_neq.
  - destruct (JS.parseInt_string (time_limit r)) as [n|]; [|discriminate].
    destruct (n =? 0) eqn:E; [discriminate | now apply Z.eqb_neq].
  - intros [-> | ->]; reflexivity.
  - intros n -> Hn _. apply Z.eqb_neq in Hn. now rewrite Hn.
Qed.

(** The sample file, read and loaded. *)
Example sample_csv_questions :
  map (option_map load_row) (map csv_row_of (parseCSV sample_csv))
  = [ Some {| q_question := "Largest of 1,000 and 999?"; q_type := "mc";
              options := ["999"; "1,000"]; correct := Some 2;
              timeLimit := 15 |};
      Some {| q_question := "Sky is blue"; q_type := "tf";
              options := ["True"; "False"]; correct := Some 1;
              timeLimit := 20 |} ].
Proof. vm_compute. reflexivity. Qed.

(** ** The players of a session *)

Lemma set_fresh (k : nat) (p : player) (m : player_map) :
  ~ In k (ids m) -> PMap.set k p m = (m ++ [(k, p)])%list.
Proof.
  induction m as [|[k' p'] m IH]; intros Hk; simpl in *; [reflexivity|].
  destruct (Nat.eqb k k') eqn:E.
  - apply Nat.eqb_eq in E. subst. tauto.
  - rewrite IH by tauto. reflexivity.
Qed.

Lemma ids_set_present (k : nat) (p p0 : player) (m : player_map) :
  PMap.get k m = Some p0 -> ids (PMap.set k p m) = ids m.
Proof.
  induction m as [|[k' p'] m IH]; simpl; [discriminate|].
  destruct (Nat.eqb k k') eqn:E; simpl; [reflexivity|].
  intros H. now rewrite IH.
Qed.

Lemma lower_names_set_present (k : nat) (p p0 : player) (m : player_map) :
  PMap.get k m = Some p0 -> name p = name p0 ->
  lower_names (PMap.set k p m) = lower_names m.
Proof.
  induction m as [|[k' p'] m IH]; simpl; [discriminate|].
  destruct (Nat.eqb k k') eqn:E; simpl.
  - intros H Hn. injection H as ->. now rewrite Hn.
  - intros H Hn. now rewrite IH.
Qed.

Lemma Forall_set_present (P : player -> Prop) (k : nat) (p p0 : player)
    (m : player_map) :
  PMap.get k m = Some p0 -> P p ->
  Forall (fun kp => P (snd kp)) m ->
  Forall (fun kp => P (snd kp)) (PMap.set k p m).
Proof.
  induction m as [|[k' p'] m IH]; simpl; [discriminate|].
  destruct (Nat.eqb k k') eqn:E; intros H Hp Hall;
    inversion Hall; subst; constructor; auto.
Qed.

Lemma answers_given_set (k : nat) (p p0 : player) (m : player_map) :
  PMap.get k m = Some p0 -> answered p0 = false -> answered p = true ->
  answers_given (PMap.set k p m) = answers_given m + 1.
Proof.
  unfold answers_given.
  induction m as [|[k' p'] m IH]; simpl; [discriminate|].
  destruct (Nat.eqb k k') eqn:E; simpl.
  - intros H H0 H1. injection H as ->. rewrite H0, H1. simpl. lia.
  - intros H H0 H1. specialize (IH H H0 H1).
    destruct (answered p'); simpl; lia.
Qed.

Lemma ids_update_all (f : player -> player) (m : player_map) :
  ids (PMap.update_all f m) = ids m.
Proof. unfold ids, PMap.update_all. rewrite map_map. reflexivity. Qed.

Lemma lower_names_update_all (f : player -> player) (m : player_map) :
  (forall p, name (f p) = name p) ->
  lower_names (PMap.update_all f m) = lower_names m.
Proof.
  intros Hf. unfold lower_names, PMap.update_all. rewrite map_map.
  apply map_ext. intros [k p]. simpl. now rewrite Hf.
Qed.

Lemma Forall_update_all (P : player -> Prop) (f : player -> player)
    (m : player_map) :
  (forall p, P p -> P (f p)) ->
  Forall (fun kp => P (snd kp)) m ->
  Forall (fun kp => P (snd kp)) (PMap.update_all f m).
Proof.
  intros Hf Hall. unfold PMap.update_all. apply Forall_map.
  eapply Forall_impl; [|exact Hall]. intros [k p]. simpl. apply Hf.
Qed.

Lemma answers_given_update_all (f : player -> player) (m : player_map) :
  (forall p, answered (f p) = answered p) ->
  answers_given (PMap.update_all f m) = answers_given m.
Proof.
  intros Hf. unfold answers_given. f_equal.
  induction m as [|[k p] m IH]; simpl; [reflexivity|].
  rewrite Hf. destruct (answered p); simpl; now rewrite IH.
Qed.

Lemma answers_given_none (m : player_map) :
  Forall (fun kp => answer (snd kp) = None) m -> answers_given m = 0.
Proof.
  unfold answers_given. intros H. induction H as [|[k p] m Hp _ IH];
    [reflexivity|].
  simpl in *. unfold answered. rewrite Hp. exact IH.
Qed.

Lemma delete_sub (k : nat) (m : player_map) :
  forall kp, In kp (PMap.delete k m) -> In kp m.
Proof.
  induction m as [|[k' p'] m IH]; simpl; [tauto|].
  destruct (Nat.eqb k k'); simpl; intros kp; [tauto|].
  intros [H|H]; [left; exact H | right; now apply IH].
Qed.

Lemma NoDup_map_delete {B : Type} (f : nat * player -> B) (k : nat)
    (m : player_map) :
  NoDup (map f m) -> NoDup (map f (PMap.delete k m)).
Proof.
  induction m as [|[k' p'] m IH]; simpl; [auto|].
  intros H. inversion H as [|? ? Hnot Hnd]; subst.
  destruct (Nat.eqb k k'); simpl; [exact Hnd|].
  constructor; [|auto].
  intros Hin. apply Hnot. apply in_map_iff in Hin.
  destruct Hin as (kp & <- & Hkp). apply in_map. eapply delete_sub; eauto.
Qed.

Lemma Forall_delete (P : nat * player -> Prop) (k : nat) (m : player_map) :
  Forall P m -> Forall P (PMap.delete k m).
Proof.
  intros H. apply Forall_forall. intros kp Hkp.
  rewrite Forall_forall in H. apply H. eapply delete_sub; eauto.
Qed.

Lemma name_taken_false (trimmedName : string) (m : player_map) :
  name_taken trimmedName m = false ->
  ~ In (JS.toLowerCase trimmedName) (lower_names m).
Proof.
  unfold name_taken, lower_names, PMap.values. intros H Hin.
  apply in_map_iff in Hin. destruct Hin as ([k p] & Heq & Hkp).
  assert (Hex : existsb
            (fun p => String.eqb (JS.toLowerCase (name p))
                        (JS.toLowerCase trimmedName)) (map snd m) = true).
  { apply existsb_exists. exists p. split; [now apply (in_map snd) in Hkp|].
    simpl in Heq. rewrite Heq. apply String.eqb_refl. }
  congruence.
Qed.

Lemma session_inv_emit (l : list (conn * server_msg)) (w : world) :
  session_inv (emit l w) <-> session_inv w.
Proof. reflexivity. Qed.

Lemma session_inv_fresh_world (csv : option (list csv_row)) (rnd : Z)
    (w : world) :
  session_inv (fresh_world csv rnd w).
Proof.
  unfold session_inv. simpl.
  repeat split; try constructor.
  intros [H|[H|H]]; discriminate.
Qed.

Lemma session_inv_revealAnswer (rs : conn -> Z) (w w' : world) :
  session_inv w -> revealAnswer rs w = Done tt w' -> session_inv w'.
Proof.
  intros Hinv Hrun.
  destruct (phase_eqb (state (game w)) question) eqn:Hst.
  - apply phase_eqb_eq in Hst.
    destruct (current_question (game w)) as [q|] eqn:Hq.
    + rewrite (revealAnswer_eq rs w q Hst Hq) in Hrun.
      injection Hrun as <-. apply session_inv_emit.
      destruct Hinv as (H1 & H2 & H3 & H4 & H5 & H6 & H7).
      unfold session_inv. simpl.
      rewrite ids_update_all.
      rewrite lower_names_update_all
        by (intros p; unfold score_player; destruct (answer p);
            [destruct (answer_is _ _)|]; reflexivity).
      rewrite answers_given_update_all
        by (intros p; unfold answered; now rewrite answer_score_player).
      repeat split; auto.
      * apply (Forall_update_all
                 (fun p => name p <> "" /\ (JS.length (name p) <= 20)%nat));
          [|exact H4].
        intros p Hp. unfold score_player. destruct (answer p);
          [destruct (answer_is _ _)|]; exact Hp.
      * discriminate.
      * intros _ E. apply H7; [now left|].
        destruct (players (game w)); [reflexivity | discriminate E].
    + destruct (revealAnswer_throws rs w Hst Hq) as [w0 Hw0]. congruence.
  - apply phase_eqb_neq in Hst.
    rewrite revealAnswer_other_phase in Hrun by exact Hst.
    now injection Hrun as <-.
Qed.

Lemma session_inv_startQuestion (rs : conn -> Z) (w w' : world) :
  session_inv w -> players (game w) <> [] ->
  startQuestion rs w = Done tt w' -> session_inv w'.
Proof.
  intros (H1 & H2 & H3 & H4 & H5 & H6 & H7) Hne Hrun.
  destruct (currentQuestion (game w) + 1
            >=? Z.of_nat (List.length (questions (game w)))) eqn:Hend.
  - rewrite startQuestion_past_end in Hrun by lia.
    injection Hrun as <-. apply session_inv_emit.
    unfold session_inv. simpl. repeat split; auto. discriminate.
  - destruct (current_question
                (set_currentQuestion (currentQuestion (game w) + 1) (game w)))
      as [q|] eqn:Hq.
    + rewrite (startQuestion_next rs w q) in Hrun by (auto; lia).
      injection Hrun as <-. apply session_inv_emit.
      unfold session_inv. simpl.
      rewrite ids_update_all.
      rewrite lower_names_update_all by reflexivity.
      repeat split; auto.
      * apply (Forall_update_all
                 (fun p => name p <> "" /\ (JS.length (name p) <= 20)%nat));
          [|exact H4]. intros p Hp. exact Hp.
      * symmetry. apply answers_given_none.
        unfold PMap.update_all. apply Forall_map. apply Forall_forall.
        reflexivity.
      * discriminate.
      * intros _ E. apply Hne.
        destruct (players (game w)); [reflexivity | discriminate E].
    + destruct (startQuestion_throws rs w) as [w0 Hw0]; [lia | exact Hq |].
      congruence.
Qed.

Lemma session_inv_joined (c : conn) (s : string) (w : world) :
  session_inv w ->
  state (game w) = lobby ->
  JS.slice0 20 (JS.trim s) <> "" ->
  name_taken (JS.slice0 20 (JS.trim s)) (players (game w)) = false ->
  session_inv
    (with_game (joined (nextPlayerId w) (JS.slice0 20 (JS.trim s)) c)
       (set_nextPlayerId (S (nextPlayerId w)) w)) /\
  players
    (game
       (with_game (joined (nextPlayerId w) (JS.slice0 20 (JS.trim s)) c)
          (set_nextPlayerId (S (nextPlayerId w)) w)))
  = (players (game w)
     ++ [(nextPlayerId w, new_player (JS.slice0 20 (JS.trim s)) c)])%list.
Proof.
  intros (H1 & H2 & H3 & H4 & H5 & H6 & H7) Hst Hne Hfree.
  assert (Hfresh : ~ In (nextPlayerId w) (ids (players (game w)))).
  { intros Hin. rewrite Forall_forall in H2. specialize (H2 _ Hin). lia. }
  assert (Hset : PMap.set (nextPlayerId w)
                   (new_player (JS.slice0 20 (JS.trim s)) c)
                   (players (game w))
                 = (players (game w)
                    ++ [(nextPlayerId w,
                         new_player (JS.slice0 20 (JS.trim s)) c)])%list)
    by (now apply set_fresh).
  assert (Hlen : JS.slice0 20 (JS.trim s) <> "" /\
                 (JS.length (JS.slice0 20 (JS.trim s)) <= 20)%nat).
  { split; [exact Hne|]. rewrite length_slice0. lia. }
  split; [|exact Hset].
  unfold session_inv, with_game, joined, set_players, set_nextPlayerId.
  cbn [game players nextPlayerId state answerCount]. rewrite Hset.
  unfold ids, lower_names, answers_given. rewrite !map_app, filter_app.
  simpl. rewrite app_nil_r.
  split; [|split; [|split; [|split; [|split; [|split]]]]].
  - apply NoDup_app; [exact H1 | repeat constructor; simpl; tauto |].
    intros k Hk [<-|[]]. exact (Hfresh Hk).
  - apply Forall_app. split.
    + eapply Forall_impl; [|exact H2]. intros k Hk. simpl in Hk. lia.
    + repeat constructor.
  - apply NoDup_app; [exact H3 | repeat constructor; simpl; tauto |].
    intros k Hk [<-|[]]. exact (name_taken_false _ _ Hfree Hk).
  - apply Forall_app. split; [exact H4|]. constructor; [|constructor].
    unfold new_player. cbn [snd name]. exact Hlen.
  - exact H5.
  - intros _. apply Forall_app. split; [now apply H6|]. repeat constructor.
  - rewrite Hst. intros [H|[H|H]]; discriminate.
Qed.

Lemma session_inv_react (rs : conn -> Z) (e : event) (w w' : world) :
  session_inv w -> react rs e w = Done tt w' -> session_inv w'.
Proof.
  intros Hinv Hrun.
  destruct e as [c csv rnd|c msg csv rnd|c|c pid msg|c pid|h|csv];
    simpl in Hrun.
  - unfold handleHost, bind, get_game, update_game in Hrun.
    rewrite forEach_send_eq, resetGame_eq, send_eq in Hrun.
    injection Hrun as <-. apply session_inv_emit, session_inv_fresh_world.
  - unfold host_message, bind, get_game in Hrun.
    destruct msg as [vpin vname|v| | | |ty]; try keep_world Hrun.
    + destruct (phase_eqb (state (game w)) lobby); [|keep_world Hrun].
      destruct (PMap.size (players (game w)) =? 0) eqn:Hsize.
      * rewrite send_eq in Hrun. keep_world Hrun.
      * eapply session_inv_startQuestion; eauto.
        intros E. rewrite E in Hsize. discriminate.
    + destruct (phase_eqb (state (game w)) reveal) eqn:Hst;
        [|keep_world Hrun].
      apply phase_eqb_eq in Hst.
      eapply session_inv_startQuestion; eauto.
      destruct Hinv as (_ & _ & _ & _ & _ & _ & H7). apply H7. tauto.
    + rewrite resetGame_eq, send_eq in Hrun. injection Hrun as <-.
      apply session_inv_emit, session_inv_fresh_world.
  - unfold host_close, bind, get_game, update_game in Hrun.
    destruct (hostWs (game w)) as [h|]; [|keep_world Hrun].
    destruct (Nat.eqb h c); [|keep_world Hrun].
    rewrite forEach_send_eq in Hrun. keep_world Hrun.
  - unfold forget, bind in Hrun.
    destruct (player_message rs c pid msg w) as [r w1|w1] eqn:Hpm;
      [|discriminate].
    injection Hrun as <-. rename Hpm into Hrun.
    unfold player_message, bind, get_game in Hrun.
    destruct msg as [vpin vname|v| | | |ty]; try keep_world_ret Hrun.
    + destruct (negb (JS.truthy vpin) || negb (JS.truthy vname)).
      { rewrite send_eq in Hrun. keep_world_ret Hrun. }
      destruct (pin_differs vpin (pin (game w))).
      { rewrite send_eq in Hrun. keep_world_ret Hrun. }
      destruct (phase_eqb (state (game w)) lobby) eqn:Hst; cbn [negb] in Hrun.
      2:{ rewrite send_eq in Hrun. keep_world_ret Hrun. }
      apply phase_eqb_eq in Hst.
      destruct vname as [| | | |s]; try discriminate.
      cbv zeta in Hrun.
      destruct (String.eqb (JS.slice0 20 (JS.trim s)) "") eqn:Hempty.
      { rewrite send_eq in Hrun. keep_world_ret Hrun. }
      apply String.eqb_neq in Hempty.
      destruct (name_taken (JS.slice0 20 (JS.trim s)) (players (game w)))
        eqn:Hfree.
      { rewrite send_eq in Hrun. keep_world_ret Hrun. }
      unfold update_game in Hrun. rewrite send_eq, sendToHost_eq in Hrun.
      injection Hrun as _ <-. apply session_inv_emit, session_inv_emit.
      exact (proj1 (session_inv_joined c s w Hinv Hst Hempty Hfree)).
    + destruct pid as [id|]; [|keep_world_ret Hrun].
      destruct (phase_eqb (state (game w)) question) eqn:Hst;
        [|keep_world_ret Hrun].
      apply phase_eqb_eq in Hst. cbn [negb] in Hrun.
      destruct (PMap.get id (players (game w))) as [p|] eqn:Hget;
        [|keep_world_ret Hrun].
      destruct (answer p) eqn:Hans; [keep_world_ret Hrun|].
      destruct (JS.parseInt v) as [n|]; [|keep_world_ret Hrun].
      destruct (n <? 1) eqn:Hlo; [keep_world_ret Hrun|].
      destruct (current_question (game w)) as [q|] eqn:Hq; [|discriminate].
      destruct (n >? Z.of_nat (List.length (options q))) eqn:Hhi;
        [keep_world_ret Hrun|].
      unfold update_game in Hrun. rewrite send_eq, sendToHost_eq in Hrun.
      simpl in Hrun.
      assert (Hrec : session_inv
                (with_game
                   (fun g => set_answerCount (answerCount g + 1) g)
                   (with_game
                      (fun g =>
                         set_players
                           (PMap.set id
                              (with_answer p n (timeRemaining g))
                              (players g)) g) w))).
      { destruct Hinv as (H1 & H2 & H3 & H4 & H5 & H6 & H7).
        unfold session_inv. simpl.
        rewrite (ids_set_present id _ p _ Hget).
        rewrite (lower_names_set_present id _ p _ Hget) by reflexivity.
        rewrite (answers_given_set id _ p _ Hget)
          by (unfold answered; simpl; now rewrite ?Hans).
        repeat split; auto.
        - apply (Forall_set_present
                   (fun p => name p <> "" /\ (JS.length (name p) <= 20)%nat)
                   id _ p _ Hget); [|exact H4].
          simpl. rewrite Forall_forall in H4.
          apply (H4 (id, p)). now apply get_In.
        - lia.
        - congruence.
        - intros _ E. apply H7; [now left|].
          destruct (players (game w)) as [|[k0 p0] m]; [reflexivity|].
          simpl in E. destruct (Nat.eqb id k0); discriminate E. }
      match type of Hrun with
      | context [if ?b then _ else _] => destruct b
      end.
      * destruct (revealAnswer rs _) as [[] w2|w2] eqn:Hrev in Hrun;
          [|discriminate].
        injection Hrun as _ <-.
        eapply session_inv_revealAnswer; [|exact Hrev].
        apply session_inv_emit, session_inv_emit. exact Hrec.
      * injection Hrun as _ <-.
        apply session_inv_emit, session_inv_emit. exact Hrec.
  - unfold player_close, bind, get_game, update_game in Hrun.
    destruct pid as [id|]; [|keep_world Hrun].
    destruct (phase_eqb (state (game w)) lobby) eqn:Hst; [|keep_world Hrun].
    apply phase_eqb_eq in Hst.
    assert (Hdel : session_inv
              (with_game
                 (fun g => set_players (PMap.delete id (players g)) g) w)).
    { destruct Hinv as (H1 & H2 & H3 & H4 & H5 & H6 & H7).
      specialize (H6 Hst).
      unfold session_inv. simpl.
      split; [now apply NoDup_map_delete|].
      split; [unfold ids; apply Forall_map; apply Forall_delete;
              now apply Forall_map in H2|].
      split; [now apply NoDup_map_delete|].
      split; [now apply Forall_delete|].
      split.
      - rewrite H5, !answers_given_none; auto. now apply Forall_delete.
      - split; [intros _; now apply Forall_delete|].
        rewrite Hst. intros [H|[H|H]]; discriminate. }
    destruct (PMap.get id (players (game w))).
    + rewrite sendToHost_eq in Hrun. injection Hrun as <-.
      apply session_inv_emit. exact Hdel.
    + injection Hrun as <-. exact Hdel.
  - destruct (existsb (Nat.eqb h) (intervals w)); [|keep_world Hrun].
    unfold tick, bind, update_game, get_game in Hrun.
    rewrite broadcast_eq in Hrun. simpl in Hrun.
    destruct (timeRemaining (game w) - 1 <=? 0).
    + destruct (timer (game w)) as [h0|];
        unfold clearInterval, ret in Hrun; simpl in Hrun;
        eapply session_inv_revealAnswer; try exact Hrun; exact Hinv.
    + injection Hrun as <-. apply session_inv_emit. exact Hinv.
  - unfold csv_changed, bind, get_game in Hrun.
    destruct csv as [rows|]; [|keep_world Hrun].
    simpl in Hrun.
    destruct (phase_eqb (state (game w)) idle
              || phase_eqb (state (game w)) lobby);
      injection Hrun as <-; exact Hinv.
Qed.

(** Every world the server reaches keeps its players in order. *)
Lemma reachable_session_inv (qs : list quiz_question) (w : world) :
  reachable qs w -> session_inv w.
Proof.
  induction 1 as [|rs e w w' _ IH Hstep].
  - unfold session_inv. simpl. repeat split; try constructor.
    intros [H|[H|H]]; discriminate.
  - eapply session_inv_react; eauto.
Qed.

(** X8: in every world the server reaches the ids of the players are
    distinct and below [nextPlayerId], so a join that passes the checks
    puts the new player, under the id [nextPlayerId], behind all the
    others and leaves them as they were. *)
Theorem join_appends_player (qs : list quiz_question) (rs : conn -> Z)
    (c : conn) (playerId : option nat) (vpin : JS.jsval) (s : string)
    (w : world) :
  reachable qs w ->
  NoDup (ids (players (game w))) /\
  Forall (fun k => (k < nextPlayerId w)%nat) (ids (players (game w))) /\
  (JS.truthy vpin = true ->
   pin_differs vpin (pin (game w)) = false ->
   state (game w) = lobby ->
   JS.slice0 20 (JS.trim s) <> "" ->
   name_taken (JS.slice0 20 (JS.trim s)) (players (game w)) = false ->
   exists w',
     player_message rs c playerId (Join vpin (JS.JStr s)) w
     = Done (Some (nextPlayerId w)) w' /\
     players (game w')
     = (players (game w)
        ++ [(nextPlayerId w, new_player (JS.slice0 20 (JS.trim s)) c)])%list /\
     nextPlayerId w' = S (nextPlayerId w)).
Proof.
  intros Hreach. pose proof (reachable_session_inv qs w Hreach) as Hinv.
  split; [apply Hinv|]. split; [apply Hinv|].
  intros Hpin Hmatch Hst Hne Hfree.
  assert (Hs : s <> "").
  { intros ->. apply Hne. reflexivity. }
  rewrite (join_accepted rs c playerId vpin s w Hpin Hs Hmatch Hst Hne Hfree).
  eexists. split; [reflexivity|]. split; [|reflexivity].
  exact (proj2 (session_inv_joined c s w Hinv Hst Hne Hfree)).
Qed.

Lemma join_appends_player_witness :
  exists w',
    player_message (fun _ => 1) 13%nat None
      (Join (JS.JNum 1000) (JS.JStr " Cy ")) demo_lobby
    = Done (Some 3%nat) w' /\
    players (game w')
    = (players (game demo_lobby) ++ [(3%nat, new_player "Cy" 13%nat)])%list /\
    nextPlayerId w' = 4%nat.
Proof.
  destruct (join_appends_player [] (fun _ => 1) 13%nat None (JS.JNum 1000)
              " Cy " demo_lobby reachable_demo_lobby) as (_ & _ & H).
  apply H; try (vm_compute; reflexivity).
  vm_compute. discriminate.
Defined.

Lemma NoDup_map_eq {A B : Type} (f : A -> B) (l : list A) (a b : A) :
  NoDup (map f l) -> In a l -> In b l -> f a = f b -> a = b.
Proof.
  induction l as [|x l IH]; simpl; [tauto|].
  intros Hnd Ha Hb Hf. inversion Hnd as [|? ? Hnot Hnd']; subst.
  destruct Ha as [->|Ha], Hb as [->|Hb]; auto.
  - exfalso. apply Hnot. rewrite Hf. now apply in_map.
  - exfalso. apply Hnot. rewrite <- Hf. now apply in_map.
Qed.

(** X9: in every world the server reaches, two players never have
    names that are equal up to case, and every name is not empty and
    has at most 20 code units. *)
Theorem player_names_distinct (qs : list quiz_question) (w : world) :
  reachable qs w ->
  (forall id1 p1 id2 p2,
     In (id1, p1) (players (game w)) -> In (id2, p2) (players (game w)) ->
     JS.toLowerCase (name p1) = JS.toLowerCase (name p2) ->
     id1 = id2 /\ p1 = p2) /\
  (forall id p,
     In (id, p) (players (game w)) ->
     name p <> "" /\ (JS.length (name p) <= 20)%nat).
Proof.
  intros Hreach.
  destruct (reachable_session_inv qs w Hreach) as (_ & _ & H3 & H4 & _).
  split.
  - intros id1 p1 id2 p2 H1 H2 Heq.
    assert (E : (id1, p1) = (id2, p2)).
    { apply (NoDup_map_eq
               (fun kp => JS.toLowerCase (name (snd kp)))
               (players (game w))); auto. }
    now injection E.
  - intros id p Hin. rewrite Forall_forall in H4. exact (H4 _ Hin).
Qed.

Lemma player_names_distinct_witness :
  Forall
    (fun kp =>
       name (snd kp) <> "" /\ (JS.length (name (snd kp)) <= 20)%nat)
    (players (game demo_reveal)).
Proof.
  apply Forall_forall. intros [id p] Hin.
  exact (proj2 (player_names_distinct [] demo_reveal reachable_demo_reveal)
           id p Hin).
Defined.

(** X10: in every world the server reaches, [answerCount] is the
    number of players with a recorded answer, no player has an answer
    while the phase is [lobby], and there is at least one player while
    a question is asked or revealed and at the leaderboard. *)
Theorem answerCount_counts_answers (qs : list quiz_question) (w : world) :
  reachable qs w ->
  answerCount (game w) = answers_given (players (game w)) /\
  (state (game w) = lobby ->
   forall id p, In (id, p) (players (game w)) -> answer p = None) /\
  (state (game w) = question \/ state (game w) = reveal \/
   state (game w) = leaderboard -> 1 <= PMap.size (players (game w))).
Proof.
  intros Hreach.
  destruct (reachable_session_inv qs w Hreach)
    as (_ & _ & _ & _ & H5 & H6 & H7).
  split; [exact H5|]. split.
  - intros Hst id p Hin. specialize (H6 Hst). rewrite Forall_forall in H6.
    exact (H6 _ Hin).
  - intros Hst. specialize (H7 Hst). unfold PMap.size.
    destruct (players (game w)); [congruence | simpl; lia].
Qed.

Lemma answerCount_counts_answers_witness :
  answerCount (game demo_answered) = answers_given (players (game demo_answered))
  /\ answers_given (players (game demo_answered)) = 1.
Proof.
  split; [|reflexivity].
  apply (answerCount_counts_answers [] demo_answered).
  apply reachable_run; [apply reachable_demo_question | reflexivity].
Defined.

Lemma all_others_answered (id : nat) (p : player) (m : player_map) :
  NoDup (ids m) -> PMap.get id m = Some p -> answered p = false ->
  (answers_given m + 1 >= PMap.size m <->
   forall k p', In (k, p') m -> k <> id -> answer p' <> None).
Proof.
  unfold answers_given, PMap.size.
  induction m as [|[k0 p0] m IH]; simpl; [discriminate|].
  intros Hnd Hget Hp. inversion Hnd as [|? ? Hnot Hnd']; subst.
  assert (Hle : (List.length (filter (fun kp => answered (snd kp)) m)
                 <= List.length m)%nat) by apply filter_length_le.
  destruct (Nat.eqb id k0) eqn:E.
  - apply Nat.eqb_eq in E. subst k0. injection Hget as ->. rewrite Hp.
    split.
    + intros Hall k p' [Heq|Hin] Hk; [injection Heq as <- _; congruence|].
      assert (Hfull : List.length (filter (fun kp => answered (snd kp)) m)
                      = List.length m) by lia.
      clear - Hfull Hin.
      induction m as [|[k1 p1] m IHm]; simpl in *; [tauto|].
      pose proof (filter_length_le (fun kp => answered (snd kp)) m) as Hle.
      destruct (answered p1) eqn:E1; simpl in Hfull; [|lia].
      destruct Hin as [Heq|Hin].
      * injection Heq as _ <-. unfold answered in E1.
        destruct (answer p1); [discriminate|discriminate E1].
      * apply IHm; [exact Hin | lia].
    + intros Hall.
      assert (Hfull : List.length (filter (fun kp => answered (snd kp)) m)
                      = List.length m).
      { assert (Hm : forall k p', In (k, p') m -> answer p' <> None).
        { intros k p' Hin. apply (Hall k p'); [now right|].
          intros ->. apply Hnot. now apply (in_map fst) in Hin. }
        clear - Hm. induction m as [|[k1 p1] m IHm]; simpl; [reflexivity|].
        assert (H1 : answered p1 = true).
        { unfold answered. destruct (answer p1) eqn:E; [reflexivity|].
          exfalso. apply (Hm k1 p1); [now left | exact E]. }
        rewrite H1. simpl. f_equal. apply IHm.
        intros k p' Hin. apply (Hm k p'). now right. }
      lia.
  - specialize (IH Hnd' Hget Hp).
    split.
    + intros Hall k p' [Heq|Hin] Hk.
      * injection Heq as <- <-.
        destruct (answered p0) eqn:E0.
        -- unfold answered in E0. destruct (answer p0); discriminate.
        -- simpl in Hall.
           assert (Hget' : In (id, p) m) by now apply get_In.
           assert (Hlt : (List.length (filter (fun kp => answered (snd kp)) m)
                          < List.length m)%nat).
           { clear - Hget' Hp. induction m as [|[k1 p1] m IHm];
               simpl in *; [tauto|].
             pose proof (filter_length_le (fun kp => answered (snd kp)) m).
             destruct Hget' as [Heq|Hin].
             - injection Heq as _ ->. rewrite Hp. lia.
             - specialize (IHm Hin). destruct (answered p1); simpl; lia. }
           lia.
      * refine (proj1 IH _ k p' Hin Hk).
        destruct (answered p0); simpl in Hall; lia.
    + intros Hall.
      assert (H0 : answered p0 = true).
      { unfold answered. destruct (answer p0) eqn:E0; [reflexivity|].
        exfalso. apply (Hall k0 p0); [now left| |exact E0].
        intros ->. now rewrite Nat.eqb_refl in E. }
      rewrite H0. simpl.
      destruct IH as [_ IH].
      specialize (IH (fun k p' Hin => Hall k p' (or_intror Hin))).
      lia.
Qed.

(** X11: in a world the server reaches, an answer that is taken moves
    the phase to [reveal] in the same reaction exactly when every other
    player already has an answer; otherwise the phase stays
    [question]. *)
Theorem reveal_when_all_answered (qs : list quiz_question) (rs : conn -> Z)
    (c : conn) (v : JS.jsval) (w : world) (id : nat) (p : player) (n : Z)
    (q : quiz_question) :
  reachable qs w ->
  state (game w) = question ->
  PMap.get id (players (game w)) = Some p ->
  answer p = None ->
  JS.parseInt v = Some n ->
  current_question (game w) = Some q ->
  1 <= n <= Z.of_nat (List.length (options q)) ->
  exists w',
    player_message rs c (Some id) (Answer v) w = Done (Some id) w' /\
    (state (game w') = reveal <->
     forall k p', In (k, p') (players (game w)) -> k <> id ->
                  answer p' <> None) /\
    (state (game w') = question \/ state (game w') = reveal).
Proof.
  intros Hreach Hst Hget Hans Hparse Hq Hn.
  destruct (reachable_session_inv qs w Hreach) as (H1 & _ & _ & _ & H5 & _).
  assert (Hp : answered p = false) by (unfold answered; now rewrite Hans).
  pose proof (all_others_answered id p (players (game w)) H1 Hget Hp) as Hall.
  unfold player_message, bind, get_game.
  rewrite Hst, Hget, Hans, Hparse, Hq. simpl.
  replace (n <? 1) with false by lia.
  replace (n >? Z.of_nat (List.length (options q))) with false by lia.
  unfold update_game. rewrite send_eq, sendToHost_eq. simpl.
  fold (with_answer p n (timeRemaining (game w))).
  rewrite (size_set_present id _ p _ Hget). rewrite H5.
  destruct (answers_given (players (game w)) + 1
            >=? PMap.size (players (game w))) eqn:Hcount.
  - erewrite revealAnswer_eq; [| simpl; exact Hst | simpl; exact Hq].
    eexists. split; [reflexivity|]. simpl. split; [|now right].
    split; [intros _|reflexivity]. apply Hall. lia.
  - eexists. split; [reflexivity|]. simpl. split; [|now left].
    rewrite Hst. split; [discriminate|].
    intros Hothers. apply Hall in Hothers. lia.
Qed.

Lemma demo_answered_answers :
  map (fun kp => (fst kp, answer (snd kp))) (players (game demo_answered))
  = [(1%nat, Some 2); (2%nat, None)].
Proof. vm_compute. reflexivity. Qed.

Lemma reveal_when_all_answered_witness :
  exists w',
    player_message (fun _ => 1) 12%nat (Some 2%nat) (Answer (JS.JStr "3"))
      demo_answered = Done (Some 2%nat) w' /\
    state (game w') = reveal.
Proof.
  destruct (reveal_when_all_answered [] (fun _ => 1) 12%nat (JS.JStr "3")
              demo_answered 2%nat (new_player "Bob" 12%nat) 3
              (load_row (hd (Build_csv_row "" "" "" "" "" "" "" "") demo_rows)))
    as (w' & Hrun & Hiff & _);
    try (vm_compute; reflexivity).
  - apply reachable_run; [apply reachable_demo_question | reflexivity].
  - vm_compute. split; discriminate.
  - exists w'. split; [exact Hrun|]. apply Hiff.
    intros k p' Hin Hk.
    apply (in_map (fun kp => (fst kp, answer (snd kp)))) in Hin.
    rewrite demo_answered_answers in Hin. cbn [fst snd] in Hin.
    destruct Hin as [Heq|[Heq|[]]]; injection Heq as <- <-;
      [discriminate | congruence].
Defined.

(** ** What a reaction leaves behind it *)

Lemma grows_refl (rs : conn -> Z) (w : world) : grows rs w w.
Proof.
  split; [|split; lia]. exists []. split; [now rewrite app_nil_r | constructor].
Qed.

Lemma grows_trans (rs : conn -> Z) (w1 w2 w3 : world) :
  grows rs w1 w2 -> grows rs w2 w3 -> grows rs w1 w3.
Proof.
  intros [(l1 & E1 & F1) [P1 I1]] [(l2 & E2 & F2) [P2 I2]].
  split; [|split; lia]. exists (l1 ++ l2)%list. split.
  - now rewrite E2, E1, app_assoc.
  - apply Forall_app. now split.
Qed.

Section Respects.

Variable rs : conn -> Z.

Lemma respects_ret {A : Type} (a : A) : respects rs (ret a).
Proof. intros w a' w' H. injection H as _ <-. apply grows_refl. Qed.

Lemma respects_throw {A : Type} : respects rs (@throw A).
Proof. intros w a w' H. discriminate H. Qed.

Lemma respects_bind {A B : Type} (m : M A) (k : A -> M B) :
  respects rs m -> (forall a, respects rs (k a)) -> respects rs (bind m k).
Proof.
  intros Hm Hk w b w' H. unfold bind in H.
  destruct (m w) as [a w1|w1] eqn:E; [|discriminate].
  eapply grows_trans; [eapply Hm; eauto | eapply Hk; eauto].
Qed.

(** A step that touches neither the outbox nor the counters. *)
Lemma respects_quiet {A : Type} (f : world -> A) (g : world -> world) :
  (forall w, outbox (g w) = outbox w /\
             (nextPlayerId w <= nextPlayerId (g w))%nat /\
             (nextInterval w <= nextInterval (g w))%nat) ->
  respects rs (fun w => Done (f w) (g w)).
Proof.
  intros Hg w a w' H. injection H as _ <-.
  destruct (Hg w) as (Ho & Hp & Hi).
  split; [|split; assumption]. exists []. rewrite Ho.
  split; [now rewrite app_nil_r | constructor].
Qed.

Lemma respects_get_game : respects rs get_game.
Proof. apply (respects_quiet game (fun w => w)). intros w. repeat split; lia. Qed.

Lemma respects_update_game (f : game_state -> game_state) :
  respects rs (update_game f).
Proof.
  apply (respects_quiet (fun _ => tt) (with_game f)).
  intros w. simpl. repeat split; lia.
Qed.

Lemma respects_clearInterval (h : nat) : respects rs (clearInterval h).
Proof.
  apply (respects_quiet (fun _ => tt)). intros w. simpl. repeat split; lia.
Qed.

Lemma respects_setInterval : respects rs setInterval.
Proof.
  apply (respects_quiet nextInterval). intros w. simpl. repeat split; lia.
Qed.

Lemma respects_send (c : conn) (m : server_msg) : respects rs (send rs c m).
Proof.
  intros w a w' H. rewrite send_eq in H. injection H as _ <-.
  split; [|split; simpl; lia].
  exists (delivered rs c m). split; [reflexivity|].
  unfold delivered. destruct (rs c =? 1) eqn:E; constructor; [|constructor].
  now apply Z.eqb_eq.
Qed.

Lemma respects_forEach {A : Type} (f : A -> M unit) (l : list A) :
  (forall x, respects rs (f x)) -> respects rs (forEach f l).
Proof.
  intros Hf. induction l as [|x l IH].
  - apply (respects_ret tt).
  - apply respects_bind; [apply Hf | intros _; exact IH].
Qed.

Ltac respects_step :=
  first
    [ apply respects_bind; [|intros ?]
    | apply respects_ret
    | apply respects_throw
    | apply respects_get_game
    | apply respects_update_game
    | apply respects_clearInterval
    | apply respects_setInterval
    | apply respects_send
    | apply respects_forEach; intros ?
    | apply respects_quiet; intros ?; simpl; repeat split; lia
    | match goal with
      | |- respects _ (match ?x with _ => _ end) => destruct x
      end ].

Lemma respects_sendToHost (m : server_msg) : respects rs (sendToHost rs m).
Proof. unfold sendToHost. repeat respects_step. Qed.

Lemma respects_broadcast (m : server_msg) : respects rs (broadcast rs m).
Proof.
  unfold broadcast. repeat respects_step.
Qed.

Lemma respects_resetGame (csv : option (list csv_row)) (rnd : Z) :
  respects rs (resetGame csv rnd).
Proof. unfold resetGame. repeat respects_step. Qed.

Lemma respects_endGame : respects rs (endGame rs).
Proof. unfold endGame. repeat respects_step. Qed.

Lemma respects_startQuestion : respects rs (startQuestion rs).
Proof.
  unfold startQuestion. repeat respects_step.
Qed.

Lemma respects_revealAnswer : respects rs (revealAnswer rs).
Proof.
  unfold revealAnswer. repeat respects_step.
Qed.

Lemma respects_tick : respects rs (tick rs).
Proof.
  unfold tick. repeat respects_step.
Qed.

Lemma respects_handleHost (c : conn) (csv : option (list csv_row)) (rnd : Z) :
  respects rs (handleHost rs c csv rnd).
Proof. unfold handleHost. repeat respects_step. Qed.

Lemma respects_host_message (c : conn) (msg : client_msg)
    (csv : option (list csv_row)) (rnd : Z) :
  respects rs (host_message rs c msg csv rnd).
Proof.
  unfold host_message. repeat respects_step.
Qed.

Lemma respects_host_close (c : conn) : respects rs (host_close rs c).
Proof. unfold host_close. repeat respects_step. Qed.

Lemma respects_player_message (c : conn) (playerId : option nat)
    (msg : client_msg) :
  respects rs (player_message rs c playerId msg).
Proof.
  unfold player_message. repeat respects_step.
Qed.

Lemma respects_player_close (playerId : option nat) :
  respects rs (player_close rs playerId).
Proof.
  unfold player_close. repeat respects_step.
Qed.

Lemma respects_csv_changed (csv : option (list csv_row)) :
  respects rs (csv_changed csv).
Proof. unfold csv_changed. repeat respects_step. Qed.

Lemma respects_react (e : event) : respects rs (react rs e).
Proof.
  destruct e; simpl.
  - apply respects_handleHost.
  - apply respects_host_message.
  - apply respects_host_close.
  - unfold forget. apply respects_bind; [apply respects_player_message|].
    intros ?. apply respects_ret.
  - apply respects_player_close.
  - intros w a w' H.
    destruct (existsb (Nat.eqb h) (intervals w)).
    + eapply respects_tick; eauto.
    + injection H as _ <-. apply grows_refl.
  - apply respects_csv_changed.
Qed.

End Respects.

(** X12: a reaction that returns has only added to the end of the
    outbox, and only messages for sockets that were open while it ran
    (a socket that is not open is skipped, never written to); and it
    has lowered neither [nextPlayerId] nor the counter of interval
    handles, so an id or a handle is not given out twice. *)
Theorem react_sends_only_to_open (rs : conn -> Z) (e : event)
    (w w' : world) :
  react rs e w = Done tt w' ->
  (exists l,
     outbox w' = (outbox w ++ l)%list /\
     Forall (fun cm => rs (fst cm) = 1) l) /\
  (nextPlayerId w <= nextPlayerId w')%nat /\
  (nextInterval w <= nextInterval w')%nat.
Proof. apply (respects_react rs e w tt w'). Qed.

Lemma react_sends_only_to_open_witness :
  let rs := fun c : conn => if Nat.eqb c 11 then 0 else 1 in
  let w' := final (react rs (HostMessage 10%nat Start None 0) demo_lobby) in
  (exists l,
     outbox w' = (outbox demo_lobby ++ l)%list /\
     Forall (fun cm => rs (fst cm) = 1) l) /\
  (nextPlayerId demo_lobby <= nextPlayerId w')%nat /\
  (nextInterval demo_lobby <= nextInterval w')%nat.
Proof.
  apply (react_sends_only_to_open (fun c => if Nat.eqb c 11 then 0 else 1)
           (HostMessage 10%nat Start None 0) demo_lobby).
  vm_compute. reflexivity.
Defined.

(** ** The countdown *)

Lemma In_existsb (h : nat) (l : list nat) :
  In h l -> existsb (Nat.eqb h) l = true.
Proof.
  intros H. apply existsb_exists. exists h. split; [exact H|].
  apply Nat.eqb_refl.
Qed.

(** A tick before the last second only counts down. *)
Lemma tick_counts_down (rs : conn -> Z) (h : nat) (q : quiz_question)
    (r : Z) (w : world) :
  counting h q r w -> 1 < r ->
  exists w',
    react rs (Tick h) w = Done tt w' /\
    counting h q (r - 1) w' /\
    players (game w') = players (game w) /\
    outbox w' = (outbox w ++ broadcast_to rs (game w) (msg_timer (r - 1)))%list.
Proof.
  intros (Hst & Ht & Hin & Hq & Hr) Hlt. simpl.
  rewrite (In_existsb h _ Hin).
  unfold tick, bind, update_game, get_game. rewrite broadcast_eq. simpl.
  rewrite Hr. replace (r - 1 <=? 0) with false by lia.
  eexists. split; [reflexivity|]. split; [|split; reflexivity].
  repeat split; auto. simpl. now rewrite Hr.
Qed.

(** The tick of the last second clears the interval and reveals. *)
Lemma tick_time_up (rs : conn -> Z) (h : nat) (q : quiz_question)
    (r : Z) (w : world) :
  counting h q r w -> r <= 1 ->
  exists w',
    react rs (Tick h) w = Done tt w' /\
    state (game w') = reveal /\
    timer (game w') = None /\
    ~ In h (intervals w') /\
    players (game w') = PMap.update_all (score_player q) (players (game w)).
Proof.
  intros (Hst & Ht & Hin & Hq & Hr) Hle. simpl.
  rewrite (In_existsb h _ Hin).
  unfold tick, bind, update_game, get_game. rewrite broadcast_eq. simpl.
  rewrite Hr. replace (r - 1 <=? 0) with true by lia.
  rewrite Ht. unfold clearInterval. simpl.
  erewrite revealAnswer_eq; [| simpl; exact Hst | simpl; exact Hq].
  eexists. split; [reflexivity|]. simpl.
  repeat split; auto.
  unfold cleared. simpl. intros Hh. apply filter_In in Hh.
  destruct Hh as [_ Hh]. now rewrite Nat.eqb_refl in Hh.
Qed.

Lemma run_cons_done (e : event) (es : list event) (w w' : world) :
  react (fun _ => 1) e w = Done tt w' -> run (e :: es) w = run es w'.
Proof. intros H. simpl. now rewrite H. Qed.

Lemma ticks_count_down (h : nat) (q : quiz_question) (n : nat) :
  forall r w,
    counting h q r w -> Z.of_nat n < r ->
    counting h q (r - Z.of_nat n) (run (repeat (Tick h) n) w) /\
    players (game (run (repeat (Tick h) n) w)) = players (game w).
Proof.
  induction n as [|n IH]; intros r w Hc Hn.
  - simpl. rewrite Z.sub_0_r. auto.
  - destruct (tick_counts_down (fun _ => 1) h q r w Hc ltac:(lia))
      as (w1 & Hstep & Hc1 & Hp1 & _).
    cbn [repeat]. rewrite (run_cons_done _ _ _ _ Hstep).
    destruct (IH (r - 1) w1 Hc1 ltac:(lia)) as [Hcn Hpn].
    split; [|congruence].
    replace (r - Z.of_nat (S n)) with (r - 1 - Z.of_nat n) by lia.
    exact Hcn.
Qed.

(** X13: while the countdown of a question stands at [r] seconds, from
    1 to [2^53] (where [timeRemaining--] takes off exactly 1), [n < r]
    ticks leave the phase [question], the players as they are and
    [r - n] seconds on the clock; the tick number [r] clears the
    interval, scores the players and makes the phase [reveal]: a
    question ends by its clock when no answer ends it before. *)
Theorem countdown_reveals (h : nat) (q : quiz_question) (r : Z) (w : world) :
  counting h q r w -> 1 <= r <= 2 ^ 53 ->
  (forall n,
     Z.of_nat n < r ->
     state (game (run (repeat (Tick h) n) w)) = question /\
     timeRemaining (game (run (repeat (Tick h) n) w)) = r - Z.of_nat n /\
     players (game (run (repeat (Tick h) n) w)) = players (game w)) /\
  state (game (run (repeat (Tick h) (Z.to_nat r)) w)) = reveal /\
  timer (game (run (repeat (Tick h) (Z.to_nat r)) w)) = None /\
  ~ In h (intervals (run (repeat (Tick h) (Z.to_nat r)) w)) /\
  players (game (run (repeat (Tick h) (Z.to_nat r)) w))
  = PMap.update_all (score_player q) (players (game w)).
Proof.
  intros Hc Hr. split.
  - intros n Hn.
    destruct (ticks_count_down h q n r w Hc Hn)
      as [(Hst & _ & _ & _ & Htr) Hp]. auto.
  - replace (Z.to_nat r) with (Z.to_nat (r - 1) + 1)%nat by lia.
    destruct (ticks_count_down h q (Z.to_nat (r - 1)) r w Hc ltac:(lia))
      as [Hc1 Hp1].
    rewrite repeat_app. 
    assert (Hrun : forall es1 es2 w0,
              runs es1 w0 = true ->
              run (es1 ++ es2) w0 = run es2 (run es1 w0)).
    { induction es1 as [|e es1 IHe]; intros es2 w0 Hok; simpl in *;
        [reflexivity|].
      destruct (react (fun _ => 1) e w0) as [[] w1|w1]; [|discriminate].
      now apply IHe. }
    assert (Hok : forall n r0 w0,
              counting h q r0 w0 -> Z.of_nat n < r0 ->
              runs (repeat (Tick h) n) w0 = true).
    { induction n as [|n IHn]; intros r0 w0 Hc0 Hn0; [reflexivity|].
      destruct (tick_counts_down (fun _ => 1) h q r0 w0 Hc0 ltac:(lia))
        as (w1 & Hstep & Hc' & _).
      cbn [repeat runs]. rewrite Hstep. apply (IHn (r0 - 1)); [exact Hc'|lia]. }
    rewrite Hrun by (apply (Hok _ r); [exact Hc | lia]).
    destruct (tick_time_up (fun _ => 1) h q _ _ Hc1 ltac:(lia))
      as (w2 & Hstep & Hst & Ht & Hi & Hp).
    cbn [repeat]. rewrite (run_cons_done _ _ _ _ Hstep). cbn [run].
    rewrite Hp1 in Hp. auto.
Qed.

Lemma countdown_reveals_witness :
  state (game (run (repeat (Tick 0%nat) 20) demo_question)) = reveal /\
  state (game (run (repeat (Tick 0%nat) 19) demo_question)) = question.
Proof.
  destruct (countdown_reveals 0%nat
              (load_row (hd (Build_csv_row "" "" "" "" "" "" "" "") demo_rows))
              20 demo_question) as (Hbefore & Hst & _).
  - unfold counting.
    split; [vm_compute; reflexivity|]. split; [vm_compute; reflexivity|].
    split; [vm_compute; left; reflexivity|].
    split; vm_compute; reflexivity.
  - split; vm_compute; discriminate.
  - split; [exact Hst|]. apply (Hbefore 19%nat). reflexivity.
Defined.

(** ** Points and the distribution *)

Lemma round_div_mono (n1 n2 d : Z) :
  0 < d -> n1 <= n2 -> round_div n1 d <= round_div n2 d.
Proof.
  intros Hd Hn. unfold round_div. apply Z.div_le_mono; lia.
Qed.

(** X14: with a time limit of 1 to 399 seconds, of two players with the
    correct answer the one who answered with more time remaining gets at
    least as many points, and the points for a correct answer are from
    1000 to 2000, added to the score. *)
Theorem faster_answers_score_more (q : quiz_question) (p1 p2 : player)
    (a r1 r2 : Z) :
  1 <= timeLimit q <= 399 ->
  correct q = Some a ->
  answer p1 = Some a -> answerTime p1 = Some r1 ->
  answer p2 = Some a -> answerTime p2 = Some r2 ->
  0 <= r1 <= r2 -> r2 <= timeLimit q ->
  lastPoints (score_player q p1) <= lastPoints (score_player q p2) /\
  1000 <= lastPoints (score_player q p1) <= 2000 /\
  score (score_player q p1) = score p1 + lastPoints (score_player q p1).
Proof.
  intros Ht Hc Ha1 Hr1 Ha2 Hr2 Hr Hr2t.
  destruct (score_player_points q p1) as [Hs1 Hp1].
  destruct (score_player_points q p2) as [_ Hp2].
  rewrite Hp1, Hp2, Ha1, Ha2, Hr1, Hr2.
  assert (Hyes : answer_is a (correct q) = true) by now apply answer_is_true.
  rewrite Hyes, !timeBonus_exact by lia.
  pose proof (round_div_mono (1000 * r1) (1000 * r2) (timeLimit q)
                ltac:(lia) ltac:(lia)) as Hmono.
  pose proof (round_div_mono (1000 * 0) (1000 * r1) (timeLimit q)
                ltac:(lia) ltac:(lia)) as Hlow.
  pose proof (round_div_mono (1000 * r1) (1000 * timeLimit q) (timeLimit q)
                ltac:(lia) ltac:(nia)) as Hhigh.
  rewrite round_div_zero in Hlow by lia.
  rewrite round_div_full in Hhigh by lia.
  split; [lia|]. split; [lia|].
  rewrite Hs1, Hp1, Ha1, Hyes, Hr1, timeBonus_exact by lia. reflexivity.
Qed.

Lemma faster_answers_score_more_witness :
  let q := load_row (hd (Build_csv_row "" "" "" "" "" "" "" "") demo_rows) in
  lastPoints (score_player q (with_answer (new_player "Bob" 12%nat) 2 17))
  <= lastPoints (score_player q (with_answer (new_player "Ann" 11%nat) 2 20)).
Proof.
  apply (faster_answers_score_more
           (load_row (hd (Build_csv_row "" "" "" "" "" "" "" "") demo_rows))
           (with_answer (new_player "Bob" 12%nat) 2 17)
           (with_answer (new_player "Ann" 11%nat) 2 20) 2 17 20);
    try reflexivity; vm_compute; try split; discriminate.
Defined.

Lemma bump_within (d : list (option Z)) (a : Z) :
  1 <= a <= Z.of_nat (List.length d) ->
  List.length (bump d a) = List.length d /\
  (forall i,
     nth i (bump d a) None
     = if Nat.eqb i (Z.to_nat (a - 1))
       then option_map (Z.add 1) (nth i d None)
       else nth i d None).
Proof.
  intros Ha. unfold bump.
  replace (a - 1 <? 0) with false by lia.
  assert (Hn : (Z.to_nat (a - 1) < List.length d)%nat) by lia.
  apply Nat.ltb_lt in Hn as Hb. rewrite Hb.
  set (n := Z.to_nat (a - 1)) in *.
  assert (Hf : List.length (firstn n d) = n)
    by (rewrite length_firstn; lia).
  split.
  - rewrite length_app. cbn [List.length]. rewrite Hf, length_skipn. lia.
  - intros i. destruct (Nat.eqb i n) eqn:E.
    + apply Nat.eqb_eq in E. subst i.
      rewrite app_nth2 by lia. rewrite Hf, Nat.sub_diag. reflexivity.
    + apply Nat.eqb_neq in E.
      destruct (Nat.lt_ge_cases i n) as [Hlt|Hge].
      * rewrite app_nth1 by lia.
        rewrite <- (firstn_skipn n d) at 2. rewrite app_nth1 by lia.
        reflexivity.
      * rewrite app_nth2 by lia. rewrite Hf.
        destruct (i - n)%nat as [|k] eqn:Ek; [lia|]. cbn [nth].
        assert (Hf' : List.length (firstn (S n) d) = S n)
          by (rewrite length_firstn; lia).
        rewrite <- (firstn_skipn (S n) d) at 2. rewrite app_nth2 by lia.
        rewrite Hf'. f_equal. lia.
Qed.

Lemma count_answers_nth (ps : list player) :
  forall d,
    answers_within (List.length d) ps ->
    List.length (count_answers d ps) = List.length d /\
    (forall i,
       nth i (count_answers d ps) None
       = option_map (Z.add (votes (Z.of_nat i + 1) ps)) (nth i d None)).
Proof.
  unfold count_answers.
  induction ps as [|p ps IH]; intros d Hw.
  - split; [reflexivity|]. intros i. simpl. unfold votes. simpl.
    now destruct (nth i d None).
  - inversion Hw as [|? ? Hp Hps]; subst. cbn [fold_left].
    destruct (answer p) as [a|] eqn:Ea.
    + destruct (bump_within d a (Hp a eq_refl)) as [Hlen Hnth].
      rewrite <- Hlen in Hps. destruct (IH (bump d a) Hps) as [Hl Hn].
      split; [congruence|]. intros i. rewrite Hn, Hnth.
      unfold votes. cbn [filter]. rewrite Ea.
      destruct (Nat.eqb i (Z.to_nat (a - 1))) eqn:E.
      * apply Nat.eqb_eq in E.
        replace (a =? Z.of_nat i + 1) with true
          by (symmetry; apply Z.eqb_eq; specialize (Hp a eq_refl); lia).
        cbn [List.length]. rewrite Nat2Z.inj_succ.
        destruct (nth i d None); cbn [option_map]; [|reflexivity].
        f_equal. lia.
      * apply Nat.eqb_neq in E.
        replace (a =? Z.of_nat i + 1) with false
          by (symmetry; apply Z.eqb_neq; specialize (Hp a eq_refl); lia).
        reflexivity.
    + destruct (IH d Hps) as [Hl Hn]. split; [exact Hl|].
      intros i. rewrite Hn. unfold votes. cbn [filter]. now rewrite Ea.
Qed.

Lemma total_app (l1 l2 : list (option Z)) :
  total (l1 ++ l2) = total l1 + total l2.
Proof.
  unfold total. induction l1 as [|x l1 IH]; cbn [app fold_right]; [lia|].
  rewrite IH. destruct x; lia.
Qed.

Lemma skipn_nth {A : Type} (x : A) (l : list A) :
  forall n, (n < List.length l)%nat -> skipn n l = nth n l x :: skipn (S n) l.
Proof.
  induction l as [|y l IH]; intros n Hn.
  - simpl in Hn. lia.
  - destruct n as [|n]; [reflexivity|].
    change (skipn n l = nth n l x :: skipn (S n) l).
    apply IH. simpl in Hn. lia.
Qed.

Lemma bump_total (d : list (option Z)) (a : Z) :
  1 <= a <= Z.of_nat (List.length d) ->
  Forall (fun x => x <> None) d ->
  Forall (fun x => x <> None) (bump d a) /\ total (bump d a) = total d + 1.
Proof.
  intros Ha Hd. unfold bump.
  replace (a - 1 <? 0) with false by lia.
  assert (Hn : (Z.to_nat (a - 1) < List.length d)%nat) by lia.
  apply Nat.ltb_lt in Hn as Hb. rewrite Hb.
  set (n := Z.to_nat (a - 1)) in *.
  assert (Hsplit : d = (firstn n d ++ nth n d None :: skipn (S n) d)%list).
  { rewrite <- (firstn_skipn n d) at 1. f_equal. now apply skipn_nth. }
  assert (Hx : nth n d None <> None).
  { rewrite Forall_forall in Hd. apply Hd. now apply nth_In. }
  pose proof Hd as Hd'. rewrite Hsplit in Hd'.
  apply Forall_app in Hd' as [Hd1 Hd2]. inversion Hd2 as [|? ? _ Hd3]; subst.
  split.
  - apply Forall_app. split; [exact Hd1|]. constructor; [|exact Hd3].
    destruct (nth n d None); [discriminate|congruence].
  - rewrite (f_equal total Hsplit), !total_app.
    destruct (nth n d None) as [z|]; [|congruence].
    unfold total. cbn [option_map fold_right]. lia.
Qed.

Lemma count_answers_total (ps : list player) :
  forall d,
    answers_within (List.length d) ps ->
    Forall (fun x => x <> None) d ->
    total (count_answers d ps)
    = total d + Z.of_nat (List.length (filter answered ps)).
Proof.
  unfold count_answers.
  induction ps as [|p ps IH]; intros d Hw Hd.
  - simpl. lia.
  - inversion Hw as [|? ? Hp Hps]; subst. cbn [fold_left filter].
    unfold answered at 1. destruct (answer p) as [a|] eqn:Ea.
    + destruct (bump_total d a (Hp a eq_refl) Hd) as [Hd' Ht].
      destruct (bump_within d a (Hp a eq_refl)) as [Hlen _].
      rewrite <- Hlen in Hps. rewrite (IH _ Hps Hd'), Ht.
      cbn [List.length]. lia.
    + now apply IH.
Qed.

Lemma answers_given_values (m : player_map) :
  answers_given m
  = Z.of_nat (List.length (filter answered (PMap.values m))).
Proof.
  unfold answers_given, PMap.values. f_equal.
  induction m as [|[k p] m IH]; [reflexivity|]. cbn [filter map snd].
  destruct (answered p); cbn [List.length]; now rewrite IH.
Qed.

Lemma distributions_sent_emit (l : list (conn * server_msg)) (w : world) :
  distributions_sent (emit l w)
  = (distributions_sent w
     ++ flat_map
          (fun cm =>
             match snd cm with
             | msg_results _ d _ _ _ => [d]
             | _ => []
             end) l)%list.
Proof. unfold distributions_sent, emit. simpl. apply flat_map_app. Qed.

Lemma delivered_all_no_results (rs : conn -> Z) (f : player -> server_msg)
    (ps : list player) :
  (forall p, match f p with msg_results _ _ _ _ _ => False | _ => True end) ->
  flat_map
    (fun cm : conn * server_msg =>
       match snd cm with
       | msg_results _ d _ _ _ => [d]
       | _ => []
       end) (delivered_all rs f ps) = [].
Proof.
  intros Hf. unfold delivered_all, delivered.
  induction ps as [|p ps IH]; [reflexivity|]. cbn [flat_map].
  rewrite flat_map_app, IH, app_nil_r.
  destruct (rs (ws p) =? 1); [|reflexivity]. cbn [flat_map snd].
  specialize (Hf p). destruct (f p); try reflexivity. contradiction.
Qed.

(** X15: when a question is revealed in a session the server can reach,
    [revealAnswer] returns, and the one [results] message it hands to
    the host (none when there is no host, or the host's socket is not
    open) carries a distribution with one slot for each option, where
    slot [i] holds the number of players whose answer is option
    [i + 1], and the slots add up to [answerCount]. *)
Theorem distribution_counts_votes (qs : list quiz_question) (rs : conn -> Z)
    (w : world) (q : quiz_question) :
  reachable qs w ->
  state (game w) = question ->
  current_question (game w) = Some q ->
  let ps := PMap.values (players (game w)) in
  exists w' d,
    revealAnswer rs w = Done tt w' /\
    distributions_sent w'
    = (distributions_sent w
       ++ match hostWs (game w) with
          | Some h => if rs h =? 1 then [d] else []
          | None => []
          end)%list /\
    List.length d = List.length (options q) /\
    (forall i, (i < List.length (options q))%nat ->
       nth i d None = Some (votes (Z.of_nat i + 1) ps)) /\
    total d = answerCount (game w).
Proof.
  intros Hr Hs Hq ps.
  set (d := count_answers (repeat (Some 0) (List.length (options q))) ps).
  rewrite (revealAnswer_eq rs w q Hs Hq).
  eexists. exists d. split; [reflexivity|]. split.
  { rewrite distributions_sent_emit. unfold distributions_sent at 1. simpl.
    f_equal. unfold reveal_messages. rewrite flat_map_app.
    rewrite delivered_all_no_results by (intros p; exact I).
    rewrite app_nil_r. unfold delivered_host, delivered.
    destruct (hostWs (game w)) as [h|]; [|reflexivity].
    destruct (rs h =? 1); reflexivity. }
  destruct (reachable_answers_inv qs w Hr Hs) as (q' & Hq' & _ & _ & Hans).
  assert (q' = q) by congruence. subst q'.
  set (n := List.length (options q)) in *.
  assert (Hw : answers_within (List.length (repeat (Some 0) n)) ps).
  { rewrite repeat_length. apply Forall_forall. intros p Hin a Ha.
    apply in_map_iff in Hin as ([k p'] & Hp & Hin). simpl in Hp. subst p'.
    exact (proj1 (Hans k p a Hin Ha)). }
  destruct (count_answers_nth ps _ Hw) as [Hlen Hnth].
  rewrite repeat_length in Hlen.
  split; [exact Hlen|]. split.
  - intros i Hi. unfold d. rewrite Hnth.
    rewrite (nth_indep _ None (Some 0)) by (rewrite repeat_length; exact Hi).
    rewrite nth_repeat. cbn [option_map]. f_equal. lia.
  - unfold d. rewrite count_answers_total.
    + destruct (reachable_session_inv qs w Hr) as (_ & _ & _ & _ & Hc & _).
      rewrite Hc, answers_given_values.
      replace (total (repeat (Some 0) n)) with 0; [reflexivity|].
      clear. induction n as [|n IH]; [reflexivity|].
      unfold total in *. cbn [repeat fold_right]. lia.
    + exact Hw.
    + apply Forall_forall. intros x Hx. apply repeat_spec in Hx. now subst.
Qed.

Lemma reachable_demo_answered : reachable [] demo_answered.
Proof.
  apply reachable_run; [apply reachable_demo_question | reflexivity].
Qed.

Lemma distribution_counts_votes_witness :
  exists w' d,
    revealAnswer (fun _ => 1) demo_answered = Done tt w' /\
    distributions_sent w' = (distributions_sent demo_answered ++ [d])%list /\
    total d = answerCount (game demo_answered).
Proof.
  destruct (distribution_counts_votes [] (fun _ => 1) demo_answered
              (load_row (hd (Build_csv_row "" "" "" "" "" "" "" "") demo_rows)))
    as (w' & d & Hrun & Hsent & _ & _ & Htotal).
  - exact reachable_demo_answered.
  - reflexivity.
  - reflexivity.
  - exists w', d. split; [exact Hrun|]. split; [exact Hsent | exact Htotal].
Defined.

(** ** The host: start, close, reconnect *)

Lemma lobby_inv_react (rs : conn -> Z) (e : event) (w w' : world) :
  lobby_inv w -> react rs e w = Done tt w' -> lobby_inv w'.
Proof.
  intros Hinv Hrun.
  destruct e as [c csv rnd|c msg csv rnd|c|c pid msg|c pid|h|csv];
    simpl in Hrun.
  - unfold handleHost, bind, get_game, update_game in Hrun.
    rewrite forEach_send_eq, resetGame_eq, send_eq in Hrun.
    injection Hrun as <-. intros _. reflexivity.
  - unfold host_message, bind, get_game in Hrun.
    destruct msg as [vpin vname|v| | | |ty]; try keep_world Hrun.
    + destruct (phase_eqb (state (game w)) lobby); [|keep_world Hrun].
      destruct (PMap.size (players (game w)) =? 0).
      * rewrite send_eq in Hrun. keep_world Hrun.
      * intros H. destruct (state_startQuestion rs w w' Hrun); congruence.
    + destruct (phase_eqb (state (game w)) reveal); [|keep_world Hrun].
      intros H. destruct (state_startQuestion rs w w' Hrun); congruence.
    + rewrite resetGame_eq, send_eq in Hrun. injection Hrun as <-.
      intros _. reflexivity.
  - unfold host_close, bind, get_game, update_game in Hrun.
    destruct (hostWs (game w)) as [h|]; [|keep_world Hrun].
    destruct (Nat.eqb h c); [|keep_world Hrun].
    rewrite forEach_send_eq in Hrun. keep_world Hrun.
  - unfold forget, bind in Hrun.
    destruct (player_message rs c pid msg w) as [r w1|w1] eqn:Hpm;
      [|discriminate].
    injection Hrun as <-. rename Hpm into Hrun.
    unfold player_message, bind, get_game in Hrun.
    destruct msg as [vpin vname|v| | | |ty]; try keep_world_ret Hrun.
    + destruct (negb (JS.truthy vpin) || negb (JS.truthy vname)).
      { rewrite send_eq in Hrun. keep_world_ret Hrun. }
      destruct (pin_differs vpin (pin (game w))).
      { rewrite send_eq in Hrun. keep_world_ret Hrun. }
      destruct (phase_eqb (state (game w)) lobby); cbn [negb] in Hrun.
      2:{ rewrite send_eq in Hrun. keep_world_ret Hrun. }
      destruct vname as [| | | |s]; try discriminate.
      cbv zeta in Hrun.
      destruct (String.eqb (JS.slice0 20 (JS.trim s)) "").
      { rewrite send_eq in Hrun. keep_world_ret Hrun. }
      destruct (name_taken (JS.slice0 20 (JS.trim s)) (players (game w))).
      { rewrite send_eq in Hrun. keep_world_ret Hrun. }
      unfold update_game in Hrun. rewrite send_eq, sendToHost_eq in Hrun.
      keep_world_ret Hrun.
    + destruct pid as [id|]; [|keep_world_ret Hrun].
      destruct (phase_eqb (state (game w)) question) eqn:Hst;
        [|keep_world_ret Hrun].
      apply phase_eqb_eq in Hst. cbn [negb] in Hrun.
      destruct (PMap.get id (players (game w))) as [p|];
        [|keep_world_ret Hrun].
      destruct (answer p); [keep_world_ret Hrun|].
      destruct (JS.parseInt v) as [n|]; [|keep_world_ret Hrun].
      destruct (n <? 1); [keep_world_ret Hrun|].
      destruct (current_question (game w)) as [q|]; [|discriminate].
      destruct (n >? Z.of_nat (List.length (options q)));
        [keep_world_ret Hrun|].
      unfold update_game in Hrun. rewrite send_eq, sendToHost_eq in Hrun.
      simpl in Hrun.
      match type of Hrun with
      | context [if ?b then _ else _] => destruct b
      end.
      * destruct (revealAnswer rs _) as [[] w2|w2] eqn:Hrev in Hrun;
          [|discriminate].
        injection Hrun as _ <-. intros H.
        destruct (state_revealAnswer rs _ _ Hrev) as [[_ E]|[_ E]].
        -- congruence.
        -- rewrite E in H. simpl in H. congruence.
      * injection Hrun as _ <-. intros H. simpl in H. congruence.
  - unfold player_close, bind, get_game, update_game in Hrun.
    destruct pid as [id|]; [|keep_world Hrun].
    destruct (phase_eqb (state (game w)) lobby); [|keep_world Hrun].
    destruct (PMap.get id (players (game w))).
    + rewrite sendToHost_eq in Hrun. keep_world Hrun.
    + keep_world Hrun.
  - destruct (existsb (Nat.eqb h) (intervals w)); [|keep_world Hrun].
    unfold tick, bind, update_game, get_game in Hrun.
    rewrite broadcast_eq in Hrun. simpl in Hrun.
    destruct (timeRemaining (game w) - 1 <=? 0).
    + intros H.
      destruct (timer (game w)) as [h0|];
        unfold clearInterval, ret in Hrun; simpl in Hrun;
        destruct (state_revealAnswer rs _ _ Hrun) as [[_ E]|[_ E]];
        try congruence; rewrite E in H |- *; exact (Hinv H).
    + keep_world Hrun.
  - unfold csv_changed, bind, get_game in Hrun.
    destruct csv as [rows|]; [|keep_world Hrun].
    simpl in Hrun.
    destruct (phase_eqb (state (game w)) idle
              || phase_eqb (state (game w)) lobby);
      keep_world Hrun.
Qed.

Lemma reachable_lobby_inv (qs : list quiz_question) (w : world) :
  reachable qs w -> lobby_inv w.
Proof.
  induction 1 as [|rs e w w' _ IH Hstep].
  - intros H. discriminate H.
  - eapply lobby_inv_react; eauto.
Qed.

(** X16: the host's [start] in the lobby of a session the server can
    reach: without players only an error goes to the host; with players
    and an empty question bank the game goes to the leaderboard at once
    and no countdown is scheduled; otherwise question 0 is asked, with
    its time limit on the countdown, one interval scheduled, no answer
    recorded, and names and scores as they were. *)
Theorem start_asks_first_question (qs : list quiz_question) (rs : conn -> Z)
    (c : conn) (csv : option (list csv_row)) (rnd : Z) (w : world) :
  reachable qs w ->
  state (game w) = lobby ->
  exists w',
    host_message rs c Start csv rnd w = Done tt w' /\
    (players (game w) = [] ->
     w' = emit (delivered rs c (msg_error "Need at least 1 player")) w) /\
    (players (game w) <> [] -> questions (game w) = [] ->
     state (game w') = leaderboard /\ intervals w' = [] /\
     timer (game w') = None /\ players (game w') = players (game w)) /\
    (players (game w) <> [] ->
     forall q rest, questions (game w) = q :: rest ->
       state (game w') = question /\
       currentQuestion (game w') = 0 /\
       timeRemaining (game w') = timeLimit q /\
       answerCount (game w') = 0 /\
       timer (game w') = Some (nextInterval w) /\
       intervals w' = [nextInterval w] /\
       Forall (fun p => answer p = None /\ answerTime p = None)
         (PMap.values (players (game w'))) /\
       map (fun p => (name p, score p)) (PMap.values (players (game w')))
       = map (fun p => (name p, score p)) (PMap.values (players (game w)))).
Proof.
  intros Hr Hst.
  pose proof (reachable_lobby_inv qs w Hr Hst) as Hcur.
  destruct (reachable_inv qs w Hr) as [[Hint Htim] _].
  assert (Hnone : timer (game w) = None) by (apply Htim; congruence).
  rewrite Hnone in Hint.
  unfold host_message, bind, get_game. rewrite Hst. cbn [phase_eqb].
  destruct (players (game w)) as [|kp m] eqn:Hp.
  - cbn [PMap.size List.length Z.of_nat Z.eqb]. rewrite send_eq.
    eexists. split; [reflexivity|].
    split; [reflexivity|]. split; intros E; now destruct E.
  - replace (PMap.size (kp :: m) =? 0) with false
      by (symmetry; apply Z.eqb_neq; unfold PMap.size;
          rewrite length_cons, Nat2Z.inj_succ; lia).
    destruct (questions (game w)) as [|q rest] eqn:Hq.
    + rewrite startQuestion_past_end by (rewrite Hcur, Hq; simpl; lia).
      eexists. split; [reflexivity|]. split; [discriminate|].
      split; [|intros _ q rest E; discriminate E].
      intros _ _. simpl. rewrite Hst in *. auto.
    + rewrite (startQuestion_next rs w q).
      * eexists. split; [reflexivity|]. split; [discriminate|].
        split; [intros _ E; discriminate E|].
        intros _ q' rest' E. injection E as <- <-.
        simpl. rewrite Hcur, Hint, Hp, values_update_all.
        repeat split; try reflexivity.
        -- apply Forall_forall. intros p Hin.
           apply in_map_iff in Hin as (p0 & <- & _). now split.
        -- rewrite map_map. reflexivity.
      * rewrite Hcur, Hq. cbn [List.length]. lia.
      * unfold current_question. simpl. rewrite Hcur, Hq. reflexivity.
Qed.

Lemma start_asks_first_question_witness :
  exists w',
    host_message (fun _ => 1) 10%nat Start None 0 demo_lobby = Done tt w' /\
    state (game w') = question /\ currentQuestion (game w') = 0 /\
    timeRemaining (game w') = 20.
Proof.
  destruct (start_asks_first_question [] (fun _ => 1) 10%nat None 0 demo_lobby
              reachable_demo_lobby eq_refl)
    as (w' & Hrun & _ & _ & Hq).
  exists w'. split; [exact Hrun|].
  destruct (Hq ltac:(vm_compute; discriminate)
              (load_row (hd (Build_csv_row "" "" "" "" "" "" "" "") demo_rows))
              [] ltac:(vm_compute; reflexivity))
    as (H1 & H2 & H3 & _).
  split; [exact H1|]. split; [exact H2|]. rewrite H3. reflexivity.
Defined.

(** X17: the close of a host socket never touches the phase, the game
    code, the players, the cursor or the countdown.  The close of a
    socket that is not the registered host changes nothing at all; the
    close of the registered host clears [hostWs] and tells each player
    with an open socket [host_disconnected]. *)
Theorem host_close_keeps_session (rs : conn -> Z) (c : conn) (w : world) :
  exists w',
    host_close rs c w = Done tt w' /\
    (hostWs (game w) <> Some c -> w' = w) /\
    (hostWs (game w) = Some c ->
     hostWs (game w') = None /\
     outbox w'
     = (outbox w
        ++ delivered_all rs (fun _ => msg_host_disconnected)
             (PMap.values (players (game w))))%list) /\
    state (game w') = state (game w) /\
    pin (game w') = pin (game w) /\
    players (game w') = players (game w) /\
    questions (game w') = questions (game w) /\
    currentQuestion (game w') = currentQuestion (game w) /\
    timer (game w') = timer (game w) /\
    timeRemaining (game w') = timeRemaining (game w) /\
    answerCount (game w') = answerCount (game w) /\
    intervals w' = intervals w.
Proof.
  unfold host_close, bind, get_game, update_game.
  destruct (hostWs (game w)) as [h|] eqn:Hh.
  - destruct (Nat.eqb h c) eqn:E.
    + apply Nat.eqb_eq in E. subst h.
      rewrite (forEach_send_eq rs (fun _ => msg_host_disconnected)).
      eexists. split; [reflexivity|].
      split; [intros H; now destruct H|].
      split; [intros _; split; reflexivity|].
      repeat split; reflexivity.
    + apply Nat.eqb_neq in E.
      eexists. split; [reflexivity|]. split; [reflexivity|].
      split; [intros H; congruence|]. repeat split; reflexivity.
  - eexists. split; [reflexivity|]. split; [reflexivity|].
    split; [discriminate|]. repeat split; reflexivity.
Qed.

Lemma host_close_other (rs : conn -> Z) (c : conn) (w : world) :
  hostWs (game w) <> Some c -> host_close rs c w = Done tt w.
Proof.
  intros H. unfold host_close, bind, get_game.
  destruct (hostWs (game w)) as [h|]; [|reflexivity].
  destruct (Nat.eqb h c) eqn:E; [|reflexivity].
  apply Nat.eqb_eq in E. congruence.
Qed.

(** X18: when a host connects on a new socket before the old host
    socket has closed, the late close of the old socket changes
    nothing: the new host stays registered and the fresh lobby stays
    as it is. *)
Theorem stale_host_close_ignored (rs : conn -> Z) (old new : conn)
    (csv : option (list csv_row)) (rnd : Z) (w : world) :
  old <> new ->
  exists w1,
    handleHost rs new csv rnd w = Done tt w1 /\
    hostWs (game w1) = Some new /\
    host_close rs old w1 = Done tt w1.
Proof.
  intros Hne.
  unfold handleHost, bind, get_game, update_game.
  rewrite forEach_send_eq, resetGame_eq, send_eq.
  eexists. split; [reflexivity|]. split; [reflexivity|].
  apply host_close_other. change (Some new <> Some old). congruence.
Qed.

Lemma stale_host_close_ignored_witness :
  exists w1,
    handleHost (fun _ => 1) 20%nat None 0 demo_question = Done tt w1 /\
    hostWs (game w1) = Some 20%nat /\
    host_close (fun _ => 1) 10%nat w1 = Done tt w1.
Proof.
  apply (stale_host_close_ignored (fun _ => 1) 10%nat 20%nat None 0
           demo_question).
  discriminate.
Defined.

(** X19: a change of the question file while a game is running is read
    into the loaded questions but leaves the game itself, the countdown
    and the outbox alone; the next reset that cannot read the file
    starts the lobby with the questions read at the change. *)
Theorem csv_change_waits_for_reset (rows : list csv_row) (rnd : Z)
    (w : world) :
  state (game w) = question \/ state (game w) = reveal \/
  state (game w) = leaderboard ->
  exists w1,
    csv_changed (Some rows) w = Done tt w1 /\
    game w1 = game w /\
    outbox w1 = outbox w /\
    intervals w1 = intervals w /\
    loaded w1 = loadQuestions rows /\
    exists w2,
      resetGame None rnd w1 = Done tt w2 /\
      questions (game w2) = loadQuestions rows.
Proof.
  intros Hst. unfold csv_changed, bind, get_game.
  cbn [game set_loaded].
  replace (phase_eqb (state (game w)) idle || phase_eqb (state (game w)) lobby)
    with false
    by (destruct Hst as [E|[E|E]]; rewrite E; reflexivity).
  eexists. split; [reflexivity|]. repeat split.
  rewrite resetGame_eq. eexists. split; reflexivity.
Qed.

Lemma csv_change_waits_for_reset_witness :
  exists w1,
    csv_changed (Some slow_rows) demo_question = Done tt w1 /\
    game w1 = game demo_question.
Proof.
  destruct (csv_change_waits_for_reset slow_rows 0 demo_question)
    as (w1 & Hrun & Hgame & _).
  - left. reflexivity.
  - exists w1. split; [exact Hrun | exact Hgame].
Defined.

Lemma name_taken_set (id : nat) (p : player) (s : string) (m : player_map) :
  JS.toLowerCase (name p) = JS.toLowerCase s ->
  name_taken s (PMap.set id p m) = true.
Proof.
  intros E. unfold name_taken. apply existsb_exists. exists p. split.
  - unfold PMap.values. apply in_map_iff. exists (id, p). split; [reflexivity|].
    apply get_In, get_set.
  - apply String.eqb_eq. exact E.
Qed.

Lemma join_name_taken (rs : conn -> Z) (c : conn) (playerId : option nat)
    (vpin : JS.jsval) (s : string) (w : world) :
  JS.truthy vpin = true ->
  pin_differs vpin (pin (game w)) = false ->
  state (game w) = lobby ->
  JS.slice0 20 (JS.trim s) <> "" ->
  name_taken (JS.slice0 20 (JS.trim s)) (players (game w)) = true ->
  player_message rs c playerId (Join vpin (JS.JStr s)) w
  = Done playerId (emit (delivered rs c (msg_error "Name already taken")) w).
Proof.
  intros Hpin Hmatch Hst Hne Htaken.
  assert (Hs : JS.truthy (JS.JStr s) = true).
  { destruct s; [|reflexivity]. now destruct Hne. }
  unfold player_message, bind, get_game.
  rewrite Hpin, Hs, Hmatch, Hst. cbn [negb orb phase_eqb]. cbv zeta.
  apply String.eqb_neq in Hne. rewrite Hne, Htaken, send_eq. reflexivity.
Qed.

(** X20: after a join has been accepted, a join from any socket under a
    name that is the same after trimming, cutting to 20 characters and
    lowering the case is refused with "Name already taken", and changes
    nothing but the outbox. *)
Theorem second_join_same_name_rejected (rs : conn -> Z) (c c2 : conn)
    (playerId playerId2 : option nat) (vpin vpin2 : JS.jsval)
    (s s2 : string) (w : world) :
  JS.truthy vpin = true -> s <> "" ->
  pin_differs vpin (pin (game w)) = false ->
  state (game w) = lobby ->
  JS.slice0 20 (JS.trim s) <> "" ->
  name_taken (JS.slice0 20 (JS.trim s)) (players (game w)) = false ->
  JS.truthy vpin2 = true ->
  pin_differs vpin2 (pin (game w)) = false ->
  JS.toLowerCase (JS.slice0 20 (JS.trim s2))
  = JS.toLowerCase (JS.slice0 20 (JS.trim s)) ->
  exists w1,
    player_message rs c playerId (Join vpin (JS.JStr s)) w
    = Done (Some (nextPlayerId w)) w1 /\
    player_message rs c2 playerId2 (Join vpin2 (JS.JStr s2)) w1
    = Done playerId2
        (emit (delivered rs c2 (msg_error "Name already taken")) w1).
Proof.
  intros Hpin Hs Hmatch Hst Hne Hfree Hpin2 Hmatch2 Hsame.
  rewrite (join_accepted rs c playerId vpin s w Hpin Hs Hmatch Hst Hne Hfree).
  eexists. split; [reflexivity|].
  assert (Hs2 : JS.slice0 20 (JS.trim s2) <> "").
  { intros E. rewrite E in Hsame. apply Hne.
    apply toLowerCase_empty. rewrite <- Hsame. reflexivity. }
  apply join_name_taken; try assumption.
  apply name_taken_set. symmetry. exact Hsame.
Qed.

Lemma second_join_same_name_rejected_witness :
  exists w1,
    player_message (fun _ => 1) 13%nat None
      (Join (JS.JStr "1000") (JS.JStr "Cy")) demo_lobby
    = Done (Some 3%nat) w1 /\
    player_message (fun _ => 1) 14%nat None
      (Join (JS.JNum 1000) (JS.JStr "  CY ")) w1
    = Done None (emit (delivered (fun _ => 1) 14%nat
                         (msg_error "Name already taken")) w1).
Proof.
  apply (second_join_same_name_rejected (fun _ => 1) 13%nat 14%nat None None
           (JS.JStr "1000") (JS.JNum 1000) "Cy" "  CY " demo_lobby);
    try (vm_compute; reflexivity); vm_compute; discriminate.
Defined.

Lemma last_flags_app (l1 l2 : list (conn * server_msg)) :
  last_flags (l1 ++ l2) = (last_flags l1 ++ last_flags l2)%list.
Proof. unfold last_flags. apply flat_map_app. Qed.

Lemma last_flags_reveal (rs : conn -> Z) (q : quiz_question) (g : game_state) :
  Forall
    (eq (currentQuestion g >=? Z.of_nat (List.length (questions g)) - 1))
    (last_flags (reveal_messages rs q g)).
Proof.
  unfold reveal_messages. cbv zeta. rewrite last_flags_app.
  apply Forall_app. split.
  - unfold delivered_host, delivered. destruct (hostWs g) as [h|]; [|constructor].
    destruct (rs h =? 1); repeat constructor.
  - unfold delivered_all.
    induction (PMap.values (players (scored q g))) as [|p ps IH];
      [constructor|].
    cbn [flat_map]. rewrite last_flags_app. apply Forall_app. split; [|exact IH].
    unfold delivered. destruct (rs (ws p) =? 1); repeat constructor.
Qed.

(** X21: the [isLast] flag of a reveal tells what the host's [next]
    will do.  Every [results] and [result] message of the reveal carries
    the same flag; when it is set, [next] ends the game on the
    leaderboard, and when it is not, [next] asks the following
    question. *)
Theorem isLast_announces_the_end (rs : conn -> Z) (c : conn)
    (csv : option (list csv_row)) (rnd : Z) (w : world) (q : quiz_question) :
  state (game w) = question ->
  current_question (game w) = Some q ->
  let isLast :=
    currentQuestion (game w)
    >=? Z.of_nat (List.length (questions (game w))) - 1 in
  exists w1 w2 sent,
    revealAnswer rs w = Done tt w1 /\
    outbox w1 = (outbox w ++ sent)%list /\
    Forall (eq isLast) (last_flags sent) /\
    host_message rs c Next csv rnd w1 = Done tt w2 /\
    (isLast = true -> state (game w2) = leaderboard) /\
    (isLast = false ->
     state (game w2) = question /\
     currentQuestion (game w2) = currentQuestion (game w) + 1).
Proof.
  intros Hst Hq isLast.
  rewrite (revealAnswer_eq rs w q Hst Hq).
  assert (Hcur : 0 <= currentQuestion (game w)
                 /\ (Z.to_nat (currentQuestion (game w))
                     < List.length (questions (game w)))%nat).
  { unfold current_question in Hq.
    destruct (currentQuestion (game w) <? 0) eqn:E; [discriminate|].
    split; [lia|]. apply nth_error_Some. congruence. }
  set (w1 := emit (reveal_messages rs q (game w))
               (with_game (scored q) (set_intervals (cleared w) w))).
  assert (Hst1 : state (game w1) = reveal) by reflexivity.
  assert (Hc1 : currentQuestion (game w1) = currentQuestion (game w))
    by reflexivity.
  assert (Hq1 : questions (game w1) = questions (game w)) by reflexivity.
  assert (Hnext : host_message rs c Next csv rnd w1 = startQuestion rs w1).
  { unfold host_message, bind, get_game. rewrite Hst1. reflexivity. }
  exists w1.
  destruct isLast eqn:Hlast; subst isLast.
  - eexists. exists (reveal_messages rs q (game w)).
    split; [reflexivity|]. split; [reflexivity|].
    split; [rewrite <- Hlast; apply last_flags_reveal|].
    rewrite Hnext, startQuestion_past_end by (rewrite Hc1, Hq1; lia).
    split; [reflexivity|]. split; [reflexivity | discriminate].
  - assert (Hlt : currentQuestion (game w1) + 1
                  < Z.of_nat (List.length (questions (game w1))))
      by (rewrite Hc1, Hq1; lia).
    destruct (nth_error (questions (game w1))
                (Z.to_nat (currentQuestion (game w1) + 1)))
      as [q'|] eqn:Hq'.
    2:{ apply nth_error_None in Hq'. lia. }
    eexists. exists (reveal_messages rs q (game w)).
    split; [reflexivity|]. split; [reflexivity|].
    split; [rewrite <- Hlast; apply last_flags_reveal|].
    rewrite Hnext, (startQuestion_next rs w1 q' Hlt).
    + split; [reflexivity|]. split; [discriminate|].
      intros _. split; reflexivity.
    + unfold current_question. cbn [currentQuestion set_currentQuestion questions].
      replace (currentQuestion (game w1) + 1 <? 0) with false by lia.
      exact Hq'.
Qed.

Lemma isLast_announces_the_end_witness :
  exists w1 w2,
    revealAnswer (fun _ => 1) demo_answered = Done tt w1 /\
    host_message (fun _ => 1) 10%nat Next None 0 w1 = Done tt w2 /\
    state (game w2) = leaderboard.
Proof.
  destruct (isLast_announces_the_end (fun _ => 1) 10%nat None 0 demo_answered
              (load_row (hd (Build_csv_row "" "" "" "" "" "" "" "") demo_rows))
              eq_refl eq_refl)
    as (w1 & w2 & sent & Hrev & _ & _ & Hnext & Hend & _).
  exists w1, w2. split; [exact Hrev|]. split; [exact Hnext|].
  apply Hend. reflexivity.
Defined.
